(** * hachoir: the lazy field-set driver, the float fields and the JPEG walk

    A shallow embedding of
    - [hachoir_core/field/generic_field_set.py] (class [GenericFieldSet]),
    - [hachoir_core/field/float.py] ([floatFactory], [Float32/64/80]),
    - [hachoir_parser/image/jpeg.py] ([JpegFile], [JpegChunk], ...),
    and the properties of the specification that concern them.

    Python objects are records, mutation is explicit state passing in a
    small state-and-exception monad, generators are resumable state
    machines, and every unbounded loop takes a step budget. *)

From Stdlib Require Import ZArith List String Ascii Floats Lia.
From Stdlib Require Import Strings.Byte.
From stdpp Require Import base option list gmap strings pretty.

Local Open Scope string_scope.
Local Open Scope list_scope.
Local Open Scope Z_scope.

(** ** Exceptions and results *)

(** The texts of the [ParserError]s raised by the driver; the field path
    that the source formats into the message is kept as the field name. *)
Inductive ParserErrorMsg :=
| FieldTooLarge (name : string)          (* "Field %s is too large!" *)
| InvalidParserSize (name : string)      (* "Invalid parser \"%s\" size!" *)
| ReplaceNoField (name : string)         (* "Unable to replace %s: field doesn't exist!" *)
| ReplaceSizeMismatch (name : string) (total old : Z)
                                         (* "... new field(s) hasn't same size" *)
| ReplaceNameUsed (name new_name : string)
                                         (* "... name \"%s\" is already used!" *)
| SeekError                              (* "Seek error, unable to go back!" *)
| FormatError (msg : string).            (* raised by a format description *)

Inductive Exc :=
| ParserError (m : ParserErrorMsg)
| InputStreamError
| UniqKeyError (key : string)
| FieldError
| MissingField (name : string)
| KeyError
| IndexError
| TypeError
| AttributeError
| OverflowError
| NotImplementedError
| AssertionError
| StructError
| StopIteration.

(** Modelled from the spec: the tuple [HACHOIR_ERRORS] of
    [hachoir_core.error], which is not part of the sources at hand.  It
    holds the library's own errors and Python's lookup, type, attribute,
    value, arithmetic and runtime errors; assertion failures,
    [struct.error] and [StopIteration] are not in it. *)
Definition HACHOIR_ERRORS (e : Exc) : bool :=
  match e with
  | AssertionError | StructError | StopIteration => false
  | _ => true
  end.

(** The outcome of a call: a value, a Python exception, or [Fuel] when the
    step budget of the model ran out (no Python behaviour). *)
Inductive Res (A : Type) :=
| Ok (a : A)
| Raise (e : Exc)
| Fuel.
Arguments Ok {A} a.
Arguments Raise {A} e.
Arguments Fuel {A}.

(** A method mutating an object of type [S]: the state is also returned
    when the call raises, as Python leaves the object as it was then. *)
Definition M (S A : Type) : Type := S → Res A * S.

Definition ret {S A} (a : A) : M S A := λ s, (Ok a, s).
Definition bind {S A B} (m : M S A) (f : A → M S B) : M S B :=
  λ s, match m s with
       | (Ok a, s') => f a s'
       | (Raise e, s') => (Raise e, s')
       | (Fuel, s') => (Fuel, s')
       end.
Definition raise {S A} (e : Exc) : M S A := λ s, (Raise e, s).
Definition get {S} : M S S := λ s, (Ok s, s).
Definition gets {S A} (f : S → A) : M S A := λ s, (Ok (f s), s).
Definition modify {S} (f : S → S) : M S unit := λ s, (Ok tt, f s).
Definition lift {S A} (r : Res A) : M S A := λ s, (r, s).
Definition assert_ {S} (b : bool) : M S unit :=
  if b then ret tt else raise AssertionError.

Declare Scope py_scope.
Delimit Scope py_scope with py.
Notation "x <- m ;; k" := (bind m (λ x, k))
  (at level 100, m at next level, right associativity) : py_scope.
Notation "m ;;; k" := (bind m (λ _, k))
  (at level 100, right associativity) : py_scope.
Local Open Scope py_scope.

Definition res_bind {A B} (r : Res A) (f : A → Res B) : Res B :=
  match r with
  | Ok a => f a
  | Raise e => Raise e
  | Fuel => Fuel
  end.

(** ** The input stream *)

Inductive Endian := BIG_ENDIAN | LITTLE_ENDIAN.

(** Modelled from the spec: [hachoir_core.stream.InputStream], which is not
    part of the sources at hand.  A stream is its bytes; its size in bits is
    known unless the source is a pipe. *)
Record InputStream := {
  stream_bytes : list byte;
  stream_size_known : bool
}.

Definition stream_bits (s : InputStream) : Z := 8 * Z.of_nat (length (stream_bytes s)).

(** [stream.size]: [None] while the size is unknown. *)
Definition stream_size (s : InputStream) : option Z :=
  if stream_size_known s then Some (stream_bits s) else None.

(** [stream.sizeGe(n)]. *)
Definition sizeGe (s : InputStream) (n : Z) : bool := n <=? stream_bits s.

Definition byte_at (s : InputStream) (i : Z) : Z :=
  match stream_bytes s !! Z.to_nat i with
  | Some b => Z.of_N (Byte.to_N b)
  | None => 0
  end.

(** Bit [k] of the stream: bit 0 is the most significant bit of byte 0 for
    big-endian reads and the least significant bit of byte 0 for
    little-endian reads. *)
Definition stream_bit (s : InputStream) (e : Endian) (k : Z) : bool :=
  match e with
  | BIG_ENDIAN => Z.testbit (byte_at s (k / 8)) (7 - k mod 8)
  | LITTLE_ENDIAN => Z.testbit (byte_at s (k / 8)) (k mod 8)
  end.

(** The unsigned integer held by [nbits] bits from bit [address] on: the
    first bit read is the most significant one in big endian, the least
    significant one in little endian. *)
Fixpoint bits_value (s : InputStream) (e : Endian) (address : Z) (nbits : nat) : Z :=
  match nbits with
  | O => 0
  | S n =>
    match e with
    | BIG_ENDIAN =>
      Z.b2z (stream_bit s e address) * 2 ^ Z.of_nat n + bits_value s e (address + 1) n
    | LITTLE_ENDIAN =>
      Z.b2z (stream_bit s e address) + 2 * bits_value s e (address + 1) n
    end
  end.

(** [stream.readBits(address, nbits, endian)]. *)
Definition readBits (s : InputStream) (address nbits : Z) (e : Endian) : Res Z :=
  if (address <? 0) || (nbits <? 0) || (stream_bits s <? address + nbits)
  then Raise InputStreamError
  else Ok (bits_value s e address (Z.to_nat nbits)).

(** [stream.readBytes(address, nbytes)]: [address] is byte aligned. *)
Definition readBytes (s : InputStream) (address nbytes : Z) : Res (list byte) :=
  if (address <? 0) || (nbytes <? 0) || negb (address mod 8 =? 0)
     || (stream_bits s <? address + 8 * nbytes)
  then Raise InputStreamError
  else Ok (take (Z.to_nat nbytes) (drop (Z.to_nat (address / 8)) (stream_bytes s))).

(** ** Strings of field names *)

(** [s.endswith(suffix)]. *)
Definition endswith (s suffix : string) : bool :=
  let n := String.length s in
  let m := String.length suffix in
  (m <=? n)%nat && String.eqb (substring (n - m) m s) suffix.

(** [s[:-2]]. *)
Definition drop_last2 (s : string) : string :=
  substring 0 (String.length s - 2) s.

(** ["[%u]" % k]. *)
Definition index_suffix (k : nat) : string := "[" +:+ pretty k +:+ "]".

(** ** Fields *)

(** The classes of the fields met here.  A leaf class decides how the value
    is read from the stream; [FieldSet] stands for every composite whose
    value is the set itself, [Float] for the classes made by
    [floatFactory], whose instances carry [struct_format]. *)
Inductive FieldClass :=
| Bit | Bits | UInt8 | UInt16
| String_ | RawBytes | RawBits
| FloatMantissa | FloatExponent
| FieldSet
| Float (struct_format : option string).

Section Fields.

(** The type of the suspended states of the producers ([createFields]
    generators). *)
Context {G : Type}.

(** [self._field_generator] when it is not [None]: a generator suspended in
    state [g], or one that has returned or raised, whose [next()] raises
    [StopIteration] from then on. *)
Inductive Generator :=
| Suspended (g : G)
| Finished.

(** A field: the attributes of [Field] and, for a composite
    ([is_field_set]), those of [GenericFieldSet].  [_fields] is the ordered
    dictionary of the children, as (key, field) pairs in insertion order.
    [createFields] is the initial state of the producer of the class, [None]
    for the method of [GenericFieldSet] itself, which raises
    [NotImplementedError]. *)
#[warnings="-register-all"]
Inductive Field := mkField {
  cls : FieldClass;
  is_field_set : bool;
  endian : Endian;
  _name : string;
  _address : Z;
  _size : option Z;
  _description : option string;
  _fields : list (string * Field);
  _current_size : Z;
  _field_array_count : gmap string nat;
  _array_cache : list string;
  _field_generator : option Generator;
  createFields : option G
}.

Abbreviation Dict := (list (string * Field)).

Definition set_name (v : string) (f : Field) : Field :=
  mkField (cls f) (is_field_set f) (endian f) v (_address f) (_size f) (_description f) (_fields f) (_current_size f) (_field_array_count f) (_array_cache f) (_field_generator f) (createFields f).
Definition set_address (v : Z) (f : Field) : Field :=
  mkField (cls f) (is_field_set f) (endian f) (_name f) v (_size f) (_description f) (_fields f) (_current_size f) (_field_array_count f) (_array_cache f) (_field_generator f) (createFields f).
Definition set_size (v : option Z) (f : Field) : Field :=
  mkField (cls f) (is_field_set f) (endian f) (_name f) (_address f) v (_description f) (_fields f) (_current_size f) (_field_array_count f) (_array_cache f) (_field_generator f) (createFields f).
Definition set_description (v : option string) (f : Field) : Field :=
  mkField (cls f) (is_field_set f) (endian f) (_name f) (_address f) (_size f) v (_fields f) (_current_size f) (_field_array_count f) (_array_cache f) (_field_generator f) (createFields f).
Definition set_fields (v : Dict) (f : Field) : Field :=
  mkField (cls f) (is_field_set f) (endian f) (_name f) (_address f) (_size f) (_description f) v (_current_size f) (_field_array_count f) (_array_cache f) (_field_generator f) (createFields f).
Definition set_current_size (v : Z) (f : Field) : Field :=
  mkField (cls f) (is_field_set f) (endian f) (_name f) (_address f) (_size f) (_description f) (_fields f) v (_field_array_count f) (_array_cache f) (_field_generator f) (createFields f).
Definition set_field_array_count (v : gmap string nat) (f : Field) : Field :=
  mkField (cls f) (is_field_set f) (endian f) (_name f) (_address f) (_size f) (_description f) (_fields f) (_current_size f) v (_array_cache f) (_field_generator f) (createFields f).
Definition set_array_cache (v : list string) (f : Field) : Field :=
  mkField (cls f) (is_field_set f) (endian f) (_name f) (_address f) (_size f) (_description f) (_fields f) (_current_size f) (_field_array_count f) v (_field_generator f) (createFields f).
Definition set_field_generator (v : option Generator) (f : Field) : Field :=
  mkField (cls f) (is_field_set f) (endian f) (_name f) (_address f) (_size f) (_description f) (_fields f) (_current_size f) (_field_array_count f) (_array_cache f) v (createFields f).

(** ** The ordered dictionary of the children *)

(** Modelled from the spec: [hachoir_core.dict.Dict], which is not part of
    the sources at hand: an insertion-ordered map from unique names to
    fields with append, index by position, replace in place, insert at a
    position and delete at a position; appending or inserting a key that is
    present raises [UniqKeyError]. *)

(** [d.index(key)]. *)
Fixpoint Dict_index (key : string) (d : Dict) : option nat :=
  match d with
  | [] => None
  | (k, _) :: d' =>
    if String.eqb k key then Some O else S <$> Dict_index key d'
  end.

(** [key in d]. *)
Definition Dict_contains (key : string) (d : Dict) : bool :=
  match Dict_index key d with Some _ => true | None => false end.

(** The position that Python's [l[i]] designates in a list of [len] items:
    a negative [i] counts from the end. *)
Definition py_index (len : nat) (i : Z) : option nat :=
  let j := if i <? 0 then i + Z.of_nat len else i in
  if (0 <=? j) && (j <? Z.of_nat len) then Some (Z.to_nat j) else None.

(** [d.values[i]]. *)
Definition Dict_values_at (i : Z) (d : Dict) : Res Field :=
  match py_index (length d) i with
  | Some j => match d !! j with Some kv => Ok kv.2 | None => Raise IndexError end
  | None => Raise IndexError
  end.

(** [d[key]]. *)
Definition Dict_getitem (key : string) (d : Dict) : Res Field :=
  match Dict_index key d with
  | Some j => match d !! j with Some kv => Ok kv.2 | None => Raise KeyError end
  | None => Raise KeyError
  end.

(** [d.append(key, value)]. *)
Definition Dict_append (key : string) (value : Field) (d : Dict) : Res Dict :=
  if Dict_contains key d then Raise (UniqKeyError key)
  else Ok (d ++ [(key, value)]).

(** [del d[i]]. *)
Definition Dict_delitem (i : Z) (d : Dict) : Res Dict :=
  match py_index (length d) i with
  | Some j => Ok (delete j d)
  | None => Raise IndexError
  end.

(** [d.insert(i, key, value)]. *)
Definition Dict_insert (i : Z) (key : string) (value : Field) (d : Dict) : Res Dict :=
  if Dict_contains key d then Raise (UniqKeyError key)
  else
    let j := if i <? 0 then i + Z.of_nat (length d) else i in
    if (0 <=? j) && (j <=? Z.of_nat (length d))
    then Ok (take (Z.to_nat j) d ++ (key, value) :: drop (Z.to_nat j) d)
    else Raise IndexError.

(** [d.replace(oldkey, newkey, value)]: the position is kept. *)
Definition Dict_replace (oldkey newkey : string) (value : Field) (d : Dict) : Res Dict :=
  match Dict_index oldkey d with
  | Some j => Ok (<[j := (newkey, value)]> d)
  | None => Raise KeyError
  end.

End Fields.

Arguments Field : clear implicits.
Arguments Generator : clear implicits.
Abbreviation Dict G := (list (string * Field G)).

(** What [generator.next()] does: the producer runs from where it was
    suspended to its next [yield], to its end, or to an exception.  [Stall]
    is the model's own outcome for a producer that used its step budget. *)
Inductive GenStep (G : Type) :=
| Yield (field : Field G) (g' : G)
| Return_
| Throw (e : Exc)
| Stall.
Arguments Yield {G} field g'.
Arguments Return_ {G}.
Arguments Throw {G} e.
Arguments Stall {G}.

(** The events that [replaceField] raises, in the order of the calls to
    [raiseEvent]; the handlers are callbacks of the caller. *)
Inductive Event (G : Type) :=
| field_replaced (old_field new_field : Field G)
| field_insered (index : Z) (new_field : Field G).
Arguments field_replaced {G} old_field new_field.
Arguments field_insered {G} index new_field.

(** ** The field-set driver: [GenericFieldSet] *)

Section Driver.

Context {G : Type}.

(** [self.stream], the same for the whole tree. *)
Variable stream : InputStream.

(** [config.autofix]. *)
Variable autofix : bool.

(** The producers: what the generator of the set [self], whose ancestors
    are [parents] (nearest first), does from the suspended state [g]. *)
Variable next : list (Field G) → Field G → G → GenStep G.

Implicit Types (self field parent : Field G) (parents : list (Field G)).

(** [GenericFieldSet.__init__], lines 72-125, for a class whose attributes
    [endian] and [static_size] are [class_endian] and [static_size] and
    whose [createFields] starts in state [producer]. *)
Definition GenericFieldSet_init (c : FieldClass) (class_endian : option Endian)
    (static_size : option Z) (producer : option G)
    (parent : option (Field G)) (name : string) (description : option string)
    (size : option Z) : Res (Field G) :=
  let size := match static_size with Some s => Some s | None => size end in
  if negb (match size with Some s => 0 <? s | None => true end)
  then Raise AssertionError
  else
    match (match class_endian with
           | Some e => Some e
           | None => endian <$> parent
           end) with
    | None => Raise AssertionError
    | Some e =>
      match producer with
      | None => Raise NotImplementedError
      | Some g =>
        Ok (mkField c true e name
                    (match parent with Some p => _current_size p | None => 0 end)
                    size description [] 0 ∅ [] (Some (Suspended g)) (Some g))
      end
    end.

(** [f(self)] for a pure, fallible [f]. *)
Definition call {A} (f : Field G → Res A) : M (Field G) A := λ self, (f self, self).

(** [self = f(self)] when [f] succeeds; [self] is left as it is otherwise. *)
Definition update (f : Field G → Res (Field G)) : M (Field G) unit :=
  λ self, match f self with
          | Ok self' => (Ok tt, self')
          | Raise e => (Raise e, self)
          | Fuel => (Fuel, self)
          end.

(** [self._fields.append(field._name, field)]. *)
Definition fields_append field : M (Field G) unit :=
  update (λ self, res_bind (Dict_append (_name field) field (_fields self))
                           (λ d, Ok (set_fields d self))).

(** [del self._fields[index]]. *)
Definition fields_delitem (index : Z) : M (Field G) unit :=
  update (λ self, res_bind (Dict_delitem index (_fields self))
                           (λ d, Ok (set_fields d self))).

(** Modelled from the spec: the constructor of a leaf [Field], which is not
    part of the sources at hand: the address of a new field is the current
    size of its parent, and a leaf has its size from the start. *)
Definition new_leaf (c : FieldClass) parent (name : string) (size : Z) : Field G :=
  mkField c false (endian parent) name (_current_size parent) (Some size) None
          [] 0 ∅ [] None None.

(** Modelled from the spec: [createRawField(parent, size, name)] of
    [hachoir_core.field], which is not part of the sources at hand: raw
    bytes when [size] is a multiple of 8, raw bits otherwise. *)
Definition createRawField parent (size : Z) (name : string) : Res (Field G) :=
  if size <=? 0 then Raise FieldError
  else if size mod 8 =? 0 then Ok (new_leaf RawBytes parent name size)
  else Ok (new_leaf RawBits parent name size).

(** [field.size] for a field whose size has been computed ([_size] is set):
    the property returns [_size]; the arithmetic that follows raises
    [TypeError] on [None]. *)
Definition sized field : Res Z :=
  match _size field with
  | Some z => Ok z
  | None => Raise TypeError
  end.

(** [self._parent] is a field set, or [None] for the root. *)
Definition has_parent parents : bool :=
  match parents with [] => false | _ => true end.

(** [_checkSize(size, strict)], lines 221-233: walks up from [self] to the
    first field set whose size is known. *)
Fixpoint _checkSize parents self (size : Z) (strict : bool) : Res (option Z) :=
  match _size self with
  | Some fsize => Ok (Some (fsize - size))
  | None =>
    match parents with
    | [] =>
      match stream_size stream with
      | Some _ => Raise AssertionError
      | None =>
        if negb strict then Ok None
        else if sizeGe stream size then Ok (Some 0)
        else Raise TypeError  (* after [break]: [None - size] *)
      end
    | parent :: ancestors => _checkSize ancestors parent (size + _address self) strict
    end
  end.

(** The property [eof], line 219. *)
Definition eof parents self : Res bool :=
  res_bind (_checkSize parents self (_current_size self + 1) true)
           (λ d, match d with
                 | Some d => Ok (d <? 0)
                 | None => Ok true  (* Python 2 orders [None] below every int *)
                 end).

(** [setUniqueFieldName(field)], lines 235-241; returns the renamed field. *)
Definition setUniqueFieldName field : M (Field G) (Field G) :=
  λ self,
    let key := drop_last2 (_name field) in
    let count := match _field_array_count self !! key with
                 | Some n => S n
                 | None => O
                 end in
    (Ok (set_name (key +:+ index_suffix count) field),
     set_field_array_count (<[key := count]> (_field_array_count self)) self).

(** [_deleteField(index)], lines 348-353. *)
Definition _deleteField (index : Z) : M (Field G) (Field G) :=
  field <- call (λ self, Dict_values_at index (_fields self)) ;;
  size <- lift (sized field) ;;
  modify (λ self, set_current_size (_current_size self - size) self) ;;;
  fields_delitem index ;;;
  ret field.

(** The loop of [_fixLastField], lines 367-369; [n] bounds the number of
    rounds, and one more than the number of children is enough. *)
Fixpoint delete_too_large (size : Z) (n : nat) : M (Field G) unit :=
  self <- get ;;
  if size <? _current_size self then
    match n with
    | O => lift Fuel
    | S n' =>
      _deleteField (Z.of_nat (length (_fields self)) - 1) ;;;
      delete_too_large size n'
    end
  else ret tt.

(** [_fixLastField()], lines 355-384. *)
Definition _fixLastField : M (Field G) (option (Field G)) :=
  self <- get ;;
  match _size self with
  | None => raise AssertionError
  | Some size =>
    modify (set_field_generator None) ;;;
    delete_too_large size (S (length (_fields self))) ;;;
    self <- get ;;
    assert_ (_current_size self <=? size) ;;;
    let slack := size - _current_size self in
    new_field <-
      (if slack =? 0 then ret None
       else
         field <- call (λ self, createRawField self slack "raw[]") ;;
         fsize <- lift (sized field) ;;
         modify (λ self, set_current_size (_current_size self + fsize) self) ;;;
         fields_append field ;;;
         ret (Some field)) ;;
    self <- get ;;
    assert_ (_current_size self =? size) ;;;
    ret new_field
  end.

(** [_stopFeeding()], lines 386-397. *)
Definition _stopFeeding parents : M (Field G) (option (Field G)) :=
  self <- get ;;
  new_field <-
    match _size self with
    | None =>
      (if has_parent parents
       then modify (set_size (Some (_current_size self)))
       else ret tt) ;;;
      ret None
    | Some size =>
      if negb (size =? _current_size self) then
        if autofix then _fixLastField
        else raise (ParserError (InvalidParserSize (_name self)))
      else ret None
    end ;;
  modify (set_field_generator None) ;;;
  ret new_field.

(** [_fixFeedError(exception)], lines 399-407: [None] stands for [False]. *)
Definition _fixFeedError : M (Field G) (option (option (Field G))) :=
  self <- get ;;
  match _size self with
  | None => ret None
  | Some _ =>
    if negb autofix then ret None
    else new_field <- _fixLastField ;; ret (Some new_field)
  end.

(** The last child of [self] becomes [field]: the child held by the
    dictionary is the object that was mutated. *)
Definition set_last field self : Field G :=
  set_fields (alter (λ kv, (kv.1, field)) (length (_fields self) - 1)%nat (_fields self)) self.

(** The loop of [_truncate], lines 327-331: deletes the last child until one
    starts before [size], and returns that one; as many rounds as there are
    children are enough. *)
Fixpoint drop_beyond (size : Z) (n : nat) : M (Field G) (Field G) :=
  field <- call (λ self, Dict_values_at (-1) (_fields self)) ;;
  if _address field <? size then ret field
  else match n with
       | O => lift Fuel
       | S n' => fields_delitem (-1) ;;; drop_beyond size n'
       end.

(** [_truncate(size)], lines 322-346; [fuel] bounds the depth of the
    recursion into the last child. *)
Fixpoint _truncate (fuel : nat) (size : Z) : M (Field G) unit :=
  match fuel with
  | O => lift Fuel
  | S fuel' =>
    assert_ (0 <? size) ;;;
    self <- get ;;
    (if size <? _current_size self then
       modify (set_size (Some size)) ;;;
       field <- drop_beyond size (length (_fields self)) ;;
       modify (set_current_size (_address field)) ;;;
       let size' := size - _address field in
       (if match _size field with Some fsize => size' <? fsize | None => false end
        then
          if is_field_set field then
            (λ self, match _truncate fuel' size' field with
                     | (Ok _, field') => (Ok tt, set_last field' self)
                     | (Raise e, field') => (Raise e, set_last field' self)
                     | (Fuel, _) => (Fuel, self)
                     end)
          else
            fields_delitem (-1) ;;;
            field <- call (λ self, createRawField self size' "raw[]") ;;
            fields_append field
        else ret tt) ;;;
       modify (set_current_size size)
     else
       assert_ (match _size self with Some s => size <? s | None => true end) ;;;
       modify (set_size (Some size))) ;;;
    self <- get ;;
    if match _size self with Some s => s =? _current_size self | None => false end
    then modify (set_field_generator None)
    else ret tt
  end.

(** [_fixFieldSize(field, new_size)], lines 292-302: returns the truncated
    field, or raises [StopIteration]. *)
Definition _fixFieldSize (fuel : nat) field (new_size : Z) : M (Field G) (Field G) :=
  if 0 <? new_size then
    composite <- (if is_field_set field
                  then fsize <- lift (sized field) ;; ret (0 <? fsize)
                  else ret false) ;;
    if composite : bool then
      (λ self, match _truncate fuel new_size field with
               | (Ok _, field') => (Ok field', self)
               | (Raise e, _) => (Raise e, self)
               | (Fuel, _) => (Fuel, self)
               end)
    else
      self <- get ;;
      (match _size self with
       | None => modify (set_size (Some (_current_size self + new_size)))
       | Some _ => ret tt
       end) ;;;
      raise StopIteration
  else raise StopIteration.

(** The property [size] of a field, lines 208-212: a composite whose size
    is unknown is fed to its end first; [feedAll] is its [_feedAll]. *)
Definition _getSize (feedAll : M (Field G) unit) : M (Field G) (option Z) :=
  self <- get ;;
  (match _size self with
   | None => if is_field_set self then feedAll else ret tt
   | Some _ => ret tt
   end) ;;;
  gets _size.

(** Lines 262-271 of [_addField]: the size of the new child is asked for;
    when that fails on a child that has children and is at its end, the
    child is sealed and the caller is asked to stop. *)
Definition try_field_size (child_feedAll : list (Field G) → M (Field G) unit)
    parents self field : Res (bool * Field G) :=
  match _getSize (child_feedAll (self :: parents)) field with
  | (Ok _, field) => Ok (false, field)
  | (Raise err, field) =>
    if HACHOIR_ERRORS err then
      res_bind
        (if is_field_set field && (0 <? length (_fields field))%nat
         then eof (self :: parents) field else Ok false)
        (λ at_end,
           if at_end : bool then
             match _stopFeeding (self :: parents) field with
             | (Ok _, field) => Ok (true, field)
             | (Raise e, _) => Raise e
             | (Fuel, _) => Fuel
             end
           else Raise err)
    else Raise err
  | (Fuel, _) => Fuel
  end.

(** Lines 255-259 of [_addField]: the unique name and the address. *)
Definition prepare_field field : M (Field G) (Field G) :=
  field <- (if endswith (_name field) "[]" then setUniqueFieldName field
            else ret field) ;;
  self <- get ;;
  ret (if negb (_address field =? _current_size self)
       then set_address (_current_size self) field else field).

(** Lines 272-279 of [_addField]: is there enough place for the field?
    Returns the field, truncated when it had to be. *)
Definition check_place (fuel : nat) parents field : M (Field G) (Field G) :=
  fsize <- lift (sized field) ;;
  dsize <- call (λ self, _checkSize parents self (_address field + fsize) false) ;;
  if match dsize with Some d => d <? 0 | None => false end
     || (is_field_set field && (fsize <=? 0))
  then
    if autofix then
      match dsize with
      | Some d => _fixFieldSize fuel field (fsize + d)
      | None => raise TypeError  (* [field.size + None] *)
      end
    else raise (ParserError (FieldTooLarge (_name field)))
  else ret field.

(** Lines 281-288 of [_addField]: the field is counted and appended, under
    a new name when its name is taken. *)
Definition append_field field : M (Field G) (Field G) :=
  fsize <- lift (sized field) ;;
  modify (λ self, set_current_size (_current_size self + fsize) self) ;;;
  self <- get ;;
  match Dict_append (_name field) field (_fields self) with
  | Ok d => modify (set_fields d) ;;; ret field
  | Raise (UniqKeyError _) =>
    field <- setUniqueFieldName (set_name (_name field +:+ "[]") field) ;;
    fields_append field ;;;
    ret field
  | Raise e => raise e
  | Fuel => lift Fuel
  end.

(** [_addField(field)], lines 243-290; returns the field as it was
    appended.  [child_feedAll] is the [_feedAll] of a child, [fuel] bounds
    the depth of a truncation. *)
Definition _addField (fuel : nat) (child_feedAll : list (Field G) → M (Field G) unit)
    parents field : M (Field G) (Field G) :=
  field <- prepare_field field ;;
  r <- call (λ self, try_field_size child_feedAll parents self field) ;;
  field <- check_place fuel parents r.2 ;;
  field <- append_field field ;;
  if r.1 : bool then raise StopIteration else ret field.

(** [self._field_generator.next()]. *)
Definition gen_next parents : M (Field G) (Field G) :=
  λ self,
    match _field_generator self with
    | None => (Raise AttributeError, self)
    | Some Finished => (Raise StopIteration, self)
    | Some (Suspended g) =>
      match next parents self g with
      | Yield field g' => (Ok field, set_field_generator (Some (Suspended g')) self)
      | Return_ => (Raise StopIteration, set_field_generator (Some Finished) self)
      | Throw e => (Raise e, set_field_generator (Some Finished) self)
      | Stall => (Fuel, self)
      end
    end.

(** The handlers shared by the loops that feed a set:
    [except HACHOIR_ERRORS, err: if self._fixFeedError(err) is False: raise]
    and [except StopIteration: self._stopFeeding()].  The result is the new
    field that the repair appended, if any. *)
Definition feed_except parents (err : Exc) : M (Field G) (option (Field G)) :=
  if HACHOIR_ERRORS err then
    fixed <- _fixFeedError ;;
    match fixed with
    | None => raise err
    | Some new_field => ret new_field
    end
  else
    match err with
    | StopIteration => _stopFeeding parents
    | _ => raise err
    end.

(** [_feedAll()], lines 462-472, and its [while True] loop. *)
Fixpoint _feedAll (fuel : nat) parents : M (Field G) unit :=
  match fuel with
  | O => lift Fuel
  | S fuel' =>
    λ self,
      match _field_generator self with
      | None => (Ok tt, self)
      | Some _ =>
        match feed_forever fuel' parents self with
        | (Raise err, self) => (feed_except parents err ;;; ret tt) self
        | r => r
        end
      end
  end
with feed_forever (fuel : nat) parents : M (Field G) unit :=
  match fuel with
  | O => lift Fuel
  | S fuel' =>
    field <- gen_next parents ;;
    _addField fuel' (_feedAll fuel') parents field ;;;
    feed_forever fuel' parents
  end.

(** The [for] loop of [readMoreFields], lines 450-452; [added] counts the
    fields appended so far and survives an exception. *)
Fixpoint read_fields (fuel : nat) parents (number : nat) (added : Z)
    : Field G → Res unit * (Z * Field G) :=
  λ self,
    match number with
    | O => (Ok tt, (added, self))
    | S number' =>
      match (field <- gen_next parents ;;
             _addField fuel (_feedAll fuel) parents field) self with
      | (Ok _, self) => read_fields fuel parents number' (added + 1) self
      | (Raise e, self) => (Raise e, (added, self))
      | (Fuel, self) => (Fuel, (added, self))
      end
    end.

(** [readMoreFields(number)], lines 440-460; [fuel] is the budget of each
    child that has to be fed. *)
Definition readMoreFields (fuel : nat) parents (number : Z) : M (Field G) Z :=
  λ self,
    match _field_generator self with
    | None => (Ok 0, self)
    | Some _ =>
      match read_fields fuel parents (Z.to_nat number) 0 self with
      | (Ok _, (added, self)) => (Ok added, self)
      | (Raise err, (added, self)) =>
        (new_field <- feed_except parents err ;;
         ret (if HACHOIR_ERRORS err then added + 1
              else match new_field with
                   | Some _ => added + 1
                   | None => added
                   end)) self
      | (Fuel, (_, self)) => (Fuel, self)
      end
    end.

(** [readFirstFields(number)], lines 426-438; [None] when parsing is done. *)
Definition readFirstFields (fuel : nat) parents (number : Z) : M (Field G) (option Z) :=
  self <- get ;;
  match _field_generator self with
  | None => ret None
  | Some _ =>
    let number := number - Z.of_nat (length (_fields self)) in
    if 0 <? number then added <- readMoreFields fuel parents number ;; ret (Some added)
    else ret (Some 0)
  end.

(** The [while True] loop of [_feedUntil], lines 414-418. *)
Fixpoint feed_until (fuel : nat) parents (field_name : string) : M (Field G) (Field G) :=
  match fuel with
  | O => lift Fuel
  | S fuel' =>
    field <- gen_next parents ;;
    field <- _addField fuel' (_feedAll fuel') parents field ;;
    if String.eqb (_name field) field_name then ret field
    else feed_until fuel' parents field_name
  end.

(** [_feedUntil(field_name)], lines 409-424. *)
Definition _feedUntil (fuel : nat) parents (field_name : string)
    : M (Field G) (option (Field G)) :=
  λ self,
    match feed_until fuel parents field_name self with
    | (Ok field, self) => (Ok (Some field), self)
    | (Raise err, self) => (feed_except parents err ;;; ret None) self
    | (Fuel, self) => (Fuel, self)
    end.

(** [_getField(name, const)], lines 304-311, for a plain name (the paths
    are resolved by [Field._getField], which is not part of the sources at
    hand). *)
Definition _getField (fuel : nat) parents (name : string) (const : bool)
    : M (Field G) (option (Field G)) :=
  self <- get ;;
  if Dict_contains name (_fields self) then
    field <- call (λ self, Dict_getitem name (_fields self)) ;;
    ret (Some field)
  else
    match _field_generator self with
    | Some _ => if negb const then _feedUntil fuel parents name else ret None
    | None => ret None
    end.

(** Modelled from the spec: [self[name]] ([Field.__getitem__], which is not
    part of the sources at hand): the child of that name, pulled from the
    producer when it is not there yet; [MissingField] when it never comes. *)
Definition getitem (fuel : nat) parents (name : string) : M (Field G) (Field G) :=
  found <- _getField fuel parents name false ;;
  match found with
  | Some field => ret field
  | None => raise (MissingField name)
  end.

(** [reset()], lines 166-180. *)
Definition reset : M (Field G) unit :=
  modify (set_fields []) ;;;
  self <- get ;;
  match createFields self with
  | None => raise NotImplementedError
  | Some g =>
    modify (set_field_generator (Some (Suspended g))) ;;;
    modify (set_field_array_count ∅) ;;;
    modify (set_current_size 0) ;;;
    modify (set_array_cache [])
  end.

(** *** Random-access editing *)

(** A method of the set in the state that also holds the trace of the
    events raised. *)
Definition on_self {A} (m : M (Field G) A) : M (Field G * list (Event G)) A :=
  λ st, match m st.1 with (r, self) => (r, (self, st.2)) end.

(** [self.raiseEvent(...)], lines 186-193: the local and the global
    listeners are called; the trace records the call. *)
Definition raiseEvent (e : Event G) : M (Field G * list (Event G)) unit :=
  modify (λ st, (st.1, st.2 ++ [e])).

(** [sum(field.size for field in new_fields)]. *)
Fixpoint sum_sizes (new_fields : list (Field G)) : Res Z :=
  match new_fields with
  | [] => Ok 0
  | field :: rest =>
    res_bind (sized field) (λ size, res_bind (sum_sizes rest) (λ total, Ok (size + total)))
  end.

(** The loop of [replaceField] over [new_fields[1:]], lines 573-584. *)
Fixpoint insert_fields (name : string) (new_fields : list (Field G)) (index address : Z)
    : M (Field G * list (Event G)) unit :=
  match new_fields with
  | [] => ret tt
  | field :: rest =>
    field <- on_self (if endswith (_name field) "[]" then setUniqueFieldName field
                      else ret field) ;;
    let field := set_address address field in
    used <- on_self (gets (λ self, Dict_contains (_name field) (_fields self))) ;;
    if used : bool then raise (ParserError (ReplaceNameUsed name (_name field)))
    else
      on_self (update (λ self, res_bind (Dict_insert index (_name field) field (_fields self))
                                        (λ d, Ok (set_fields d self)))) ;;;
      raiseEvent (field_insered index field) ;;;
      fsize <- lift (sized field) ;;
      insert_fields name rest (index + 1) (address + fsize)
  end.

(** [replaceField(name, new_fields)], lines 548-584. *)
Definition replaceField (name : string) (new_fields : list (Field G))
    : M (Field G * list (Event G)) unit :=
  present <- on_self (gets (λ self, Dict_contains name (_fields self))) ;;
  if negb present then raise (ParserError (ReplaceNoField name))
  else
    assert_ (1 <=? length new_fields)%nat ;;;
    old_field <- on_self (call (λ self, Dict_getitem name (_fields self))) ;;
    total_size <- lift (sum_sizes new_fields) ;;
    old_size <- lift (sized old_field) ;;
    if negb (old_size =? total_size)
    then raise (ParserError (ReplaceSizeMismatch name total_size old_size))
    else
      match new_fields with
      | [] => raise IndexError
      | field :: rest =>
        field <- on_self (if endswith (_name field) "[]" then setUniqueFieldName field
                          else ret field) ;;
        let field := set_address (_address old_field) field in
        used <- on_self (gets (λ self, Dict_contains (_name field) (_fields self))) ;;
        if negb (String.eqb (_name field) name) && used
        then raise (ParserError (ReplaceNameUsed name (_name field)))
        else
          on_self (update (λ self, res_bind (Dict_replace name (_name field) field (_fields self))
                                            (λ d, Ok (set_fields d self)))) ;;;
          raiseEvent (field_replaced old_field field) ;;;
          if (1 <? length new_fields)%nat then
            index <- on_self (call (λ self, match Dict_index (_name field) (_fields self) with
                                            | Some i => Ok (Z.of_nat i + 1)
                                            | None => Raise TypeError
                                            end)) ;;
            fsize <- lift (sized field) ;;
            insert_fields name rest index (_address field + fsize)
          else ret tt
      end.

End Driver.

(** ** Values of the leaf fields *)

(** [field.value]: Python's int, bool, float, str and raw bytes; a field
    set is its own value. *)
Inductive Value :=
| VInt (z : Z)
| VBool (b : bool)
| VFloat (x : float)
| VStr (s : string)
| VBytes (l : list byte)
| VFieldSet.

(** A Python value used as an integer: [True] is 1 and [False] is 0. *)
Definition py_int (v : Value) : Res Z :=
  match v with
  | VInt z => Ok z
  | VBool b => Ok (Z.b2z b)
  | _ => Raise TypeError
  end.

(** [float(z)] for a Python integer: the nearest binary64, ties to even. *)
Definition py_float (z : Z) : float := SF2Prim (binary_normalize prec emax z 0 false).

(** The exact binary64 power of two [2.0 ** e], zero on underflow. *)
Definition float_pow2 (e : Z) : float := Z.ldexp 1%float e.

(** [x * (2 ** e)] for a float [x] and a Python integer [e]: for [0 <= e]
    the power is an integer, which is converted to a float for the product
    and is too large for that from [2 ** 1024] on; for [e < 0] the power is
    a float already. *)
Definition float_times_pow2 (x : float) (e : Z) : Res float :=
  if 1024 <=? e then Raise OverflowError
  else Ok (x * float_pow2 e)%float.

(** Modelled from the spec: [struct.unpack] of Python's library for the
    formats of one IEEE-754 number: sign, biased exponent and mantissa of
    binary32 (["f"]) and binary64 (["d"]), the bytes taken in the order
    that the first character of the format gives. *)
Definition bytes_to_Z (be : bool) (raw : list byte) : Z :=
  fold_left (λ acc b, 256 * acc + Z.of_N (Byte.to_N b)) (if be then raw else rev raw) 0.

Definition ieee_decode (exponent_bits mantissa_bits : Z) (bits : Z) : float :=
  let m := bits mod 2 ^ mantissa_bits in
  let e := (bits / 2 ^ mantissa_bits) mod 2 ^ exponent_bits in
  let s := Z.odd (bits / 2 ^ (mantissa_bits + exponent_bits)) in
  let bias := 2 ^ (exponent_bits - 1) - 1 in
  SF2Prim
    (if e =? 2 ^ exponent_bits - 1 then
       if m =? 0 then S754_infinity s else S754_nan
     else if e =? 0 then
       match m with
       | Z.pos p => S754_finite s p (1 - bias - mantissa_bits)
       | _ => S754_zero s
       end
     else
       match m + 2 ^ mantissa_bits with
       | Z.pos p => S754_finite s p (e - bias - mantissa_bits)
       | _ => S754_zero s
       end).

Definition struct_unpack (format : string) (raw : list byte) : Res float :=
  let unpack (be : bool) (exponent_bits mantissa_bits : Z) :=
    if Z.of_nat (length raw) =? (1 + exponent_bits + mantissa_bits) / 8
    then Ok (ieee_decode exponent_bits mantissa_bits (bytes_to_Z be raw))
    else Raise StructError in
  if String.eqb format ">d" then unpack true 11 52
  else if String.eqb format "<d" then unpack false 11 52
  else if String.eqb format ">f" then unpack true 8 23
  else if String.eqb format "<f" then unpack false 8 23
  else Raise StructError.

Section Values.

Context {G : Type}.
Variable stream : InputStream.

Implicit Types (self field : Field G) (parents : list (Field G)).

(** Modelled from the spec: the property [absolute_address] of [Field],
    which is not part of the sources at hand: the sum of the addresses up
    to the root. *)
Definition absolute_address parents field : Z :=
  fold_left (λ acc p, acc + _address p) parents (_address field).

(** [field._parent.endian]. *)
Definition parent_endian parents : Endian :=
  match parents with
  | parent :: _ => endian parent
  | [] => BIG_ENDIAN
  end.

(** Modelled from the spec: [Bits.createValue] of [hachoir_core.field],
    which is not part of the sources at hand: the bits of the field, read
    in the byte order of the parent. *)
Definition Bits_createValue parents field : Res Z :=
  res_bind (sized field)
           (λ size, readBits stream (absolute_address parents field) size
                             (parent_endian parents)).

(** [FloatMantissa.createValue], float.py lines 12-14. *)
Definition FloatMantissa_createValue parents field : Res float :=
  res_bind (Bits_createValue parents field) (λ value,
  res_bind (sized field) (λ size,
  Ok (1 + py_float value / py_float (2 ^ size))%float)).

(** [FloatExponent.createValue], float.py lines 20-25; [bias] is set by the
    constructor from the size. *)
Definition FloatExponent_bias (size : Z) : Z := 2 ^ (size - 1) - 1.

Definition FloatExponent_createValue parents field : Res Z :=
  res_bind (Bits_createValue parents field) (λ value,
  res_bind (sized field) (λ size,
  Ok (value - FloatExponent_bias size))).

(** [field.value] for a leaf, by its class.  The classes other than the
    two of float.py are modelled from the spec, as they are not part of the
    sources at hand: a bit is a boolean, bits and unsigned integers are
    read in the byte order of the parent, a string of fixed length is its
    bytes decoded, raw bytes are themselves. *)
Definition createValue parents field : Res Value :=
  match cls field with
  | Bit => res_bind (Bits_createValue parents field) (λ v, Ok (VBool (v =? 1)))
  | Bits | RawBits | UInt8 | UInt16 =>
    res_bind (Bits_createValue parents field) (λ v, Ok (VInt v))
  | String_ =>
    res_bind (sized field) (λ size,
    res_bind (readBytes stream (absolute_address parents field) (size / 8)) (λ raw,
    Ok (VStr (string_of_list_byte raw))))
  | RawBytes =>
    res_bind (sized field) (λ size,
    res_bind (readBytes stream (absolute_address parents field) (size / 8)) (λ raw,
    Ok (VBytes raw)))
  | FloatMantissa =>
    res_bind (FloatMantissa_createValue parents field) (λ x, Ok (VFloat x))
  | FloatExponent =>
    res_bind (FloatExponent_createValue parents field) (λ v, Ok (VInt v))
  | FieldSet | Float _ => Ok VFieldSet
  end.

(** [self[name].value] for a child that is in the dictionary already. *)
Definition child_value parents self (name : string) : Res Value :=
  res_bind (Dict_getitem name (_fields self))
           (λ field, createValue (self :: parents) field).

(** [FloatMantissa.createRawDisplay] and [FloatExponent.createRawDisplay],
    float.py lines 16-17 and 27-28: the number that is displayed, the bits
    of the mantissa and the biased exponent. *)
Definition FloatMantissa_raw parents field : Res Z := Bits_createValue parents field.

Definition FloatExponent_raw parents field : Res Z :=
  res_bind (FloatExponent_createValue parents field) (λ value,
  res_bind (sized field) (λ size,
  Ok (value + FloatExponent_bias size))).

End Values.

(** ** The producers of float.py and jpeg.py *)

(** The suspended states of the [createFields] generators unfolded here:
    the class (with the variables that the generator closes over) and the
    [yield] at which it waits; 0 is the start.  [OtherFields] stands for
    the producers of the classes that are not unfolded: nothing is known
    of what they yield. *)
Inductive Producer :=
| FloatFields (mantissa_bits exponent_bits : Z) (pc : nat)
| JpegFileFields (pc : nat)
| JpegChunkFields (pc : nat)
| JpegChunkApp0Fields (pc : nat)
| OtherFields (class_name : string).

(** [Float.createFields], float.py lines 64-71. *)
Definition Float_createFields (mantissa_bits exponent_bits : Z) (pc : nat)
    (self : Field Producer) : GenStep Producer :=
  let at_ := FloatFields mantissa_bits exponent_bits in
  match pc with
  | 0%nat => Yield (new_leaf Bit self "negative" 1) (at_ 1%nat)
  | 1%nat => Yield (new_leaf FloatExponent self "exponent" exponent_bits) (at_ 2%nat)
  | 2%nat =>
    if 64 <=? mantissa_bits
    then Yield (new_leaf Bit self "one" 1) (at_ 3%nat)
    else Yield (new_leaf FloatMantissa self "mantissa" mantissa_bits) (at_ 4%nat)
  | 3%nat => Yield (new_leaf FloatMantissa self "mantissa" (mantissa_bits - 1)) (at_ 4%nat)
  | _ => Return_
  end.

(** [floatFactory(name, format, mantissa_bits, exponent_bits, doc)], float.py
    lines 30-74: the constructor of the class that it returns. *)
Definition floatFactory (format : option string) (mantissa_bits exponent_bits : Z)
    (parent : Field Producer) (name : string) (description : option string)
    : Res (Field Producer) :=
  let size := 1 + mantissa_bits + exponent_bits in
  let struct_format :=
    (λ f, match endian parent with
          | BIG_ENDIAN => ">" +:+ f
          | LITTLE_ENDIAN => "<" +:+ f
          end) <$> format in
  GenericFieldSet_init (Float struct_format) None (Some size)
                       (Some (FloatFields mantissa_bits exponent_bits 0))
                       (Some parent) name description (Some size).

(** float.py lines 76-86. *)
Definition Float32 := floatFactory (Some "f") 23 8.
Definition Float64 := floatFactory (Some "d") 52 11.
Definition Float80 := floatFactory None 64 15.

(** The tables of [JpegChunk], jpeg.py lines 170-208. *)
Definition TAG_SOI : Z := 0xD8.
Definition TAG_EOI : Z := 0xD9.
Definition TAG_SOS : Z := 0xDA.
Definition TAG_DQT : Z := 0xDB.
Definition TAG_DRI : Z := 0xDD.

Definition type_name (tag : Z) : option string :=
  if tag =? 0xC0 then Some "sof"
  else if tag =? 0xC4 then Some "dht[]"
  else if tag =? TAG_SOI then Some "soi"
  else if tag =? TAG_EOI then Some "eoi"
  else if tag =? TAG_SOS then Some "sos"
  else if tag =? TAG_DQT then Some "dqt[]"
  else if tag =? 0xDC then Some "dnl[]"
  else if tag =? TAG_DRI then Some "dri[]"
  else if tag =? 0xE0 then Some "app0"
  else if tag =? 0xED then Some "psd"
  else if tag =? 0xFE then Some "comment[]"
  else None.

Definition handler (tag : Z) : option Producer :=
  if tag =? 0xE0 then Some (JpegChunkApp0Fields 0)
  else if tag =? 0xC0 then Some (OtherFields "StartOfFrame")
  else if tag =? TAG_SOS then Some (OtherFields "StartOfScan")
  else if tag =? TAG_DRI then Some (OtherFields "RestartInterval")
  else if tag =? TAG_DQT then Some (OtherFields "DefineQuantizationTable")
  else if tag =? 0xED then Some (OtherFields "PhotoshopMetadata")
  else None.

(** ["JFIF\0"] and ["Exif\0\0"]. *)
Definition JFIF0 : string := "JFIF" +:+ String (ascii_of_nat 0) "".
Definition Exif00 : string := "Exif" +:+ String (ascii_of_nat 0) (String (ascii_of_nat 0) "").

Section Formats.

Variable stream : InputStream.
Variable autofix : bool.
Variable next : list (Field Producer) → Field Producer → Producer → GenStep Producer.

Implicit Types (self field parent : Field Producer) (parents : list (Field Producer)).

(** A result of the producer's own code as the outcome of [next()]. *)
Definition step_of {A} (r : Res A) (k : A → GenStep Producer) : GenStep Producer :=
  match r with
  | Ok a => k a
  | Raise e => Throw e
  | Fuel => Stall
  end.

(** [Float.createValue], float.py lines 48-61. *)
Definition Float_createValue (fuel : nat) parents : M (Field Producer) Value :=
  self <- get ;;
  match cls self with
  | Float (Some struct_format) =>
    size <- lift (sized self) ;;
    raw <- lift (readBytes stream (absolute_address parents self) (size / 8)) ;;
    x <- lift (struct_unpack struct_format raw) ;;
    ret (VFloat x)
  | Float None =>
    mantissa <- getitem stream autofix next fuel parents "mantissa" ;;
    m <- call (λ self, FloatMantissa_createValue stream (self :: parents) mantissa) ;;
    exponent <- getitem stream autofix next fuel parents "exponent" ;;
    e <- call (λ self, FloatExponent_createValue stream (self :: parents) exponent) ;;
    value <- lift (float_times_pow2 m e) ;;
    negative <- getitem stream autofix next fuel parents "negative" ;;
    sign <- call (λ self, createValue stream (self :: parents) negative) ;;
    match sign with
    | VBool true => ret (VFloat (- value)%float)
    | _ => ret (VFloat value)
    end
  | _ => raise TypeError
  end.

(** [JpegChunkApp0.createFields], jpeg.py lines 85-109. *)
Definition JpegChunkApp0_createFields (pc : nat) parents self : GenStep Producer :=
  let at_ := JpegChunkApp0Fields in
  match pc with
  | 0%nat => Yield (new_leaf String_ self "jfif" 40) (at_ 1%nat)
  | 1%nat =>
    step_of (child_value stream parents self "jfif") (λ jfif,
      match jfif with
      | VStr s =>
        if negb (String.eqb s JFIF0)
        then Throw (ParserError (FormatError
               "Stream doesn't look like JPEG chunk (wrong JFIF signature)"))
        else Yield (new_leaf UInt8 self "ver_maj" 8) (at_ 2%nat)
      | _ => Throw TypeError
      end)
  | 2%nat => Yield (new_leaf UInt8 self "ver_min" 8) (at_ 3%nat)
  | 3%nat => Yield (new_leaf UInt8 self "units" 8) (at_ 4%nat)
  | 4%nat =>
    step_of (res_bind (child_value stream parents self "units") py_int) (λ units,
      if units =? 0
      then Yield (new_leaf UInt16 self "aspect_x" 16) (at_ 5%nat)
      else Yield (new_leaf UInt16 self "x_density" 16) (at_ 6%nat))
  | 5%nat => Yield (new_leaf UInt16 self "aspect_y" 16) (at_ 7%nat)
  | 6%nat => Yield (new_leaf UInt16 self "y_density" 16) (at_ 7%nat)
  | 7%nat => Yield (new_leaf UInt8 self "thumb_w" 8) (at_ 8%nat)
  | 8%nat => Yield (new_leaf UInt8 self "thumb_h" 8) (at_ 9%nat)
  | 9%nat =>
    step_of (res_bind (child_value stream parents self "thumb_w") py_int) (λ w,
    step_of (res_bind (child_value stream parents self "thumb_h") py_int) (λ h,
      let thumb_size := w * h in
      if negb (thumb_size =? 0) then
        step_of (GenericFieldSet_init FieldSet None None (Some (OtherFields "PaletteRGB"))
                                      (Some self) "thumb_palette" None None)
                (λ palette, Yield palette (at_ 10%nat))
      else Return_))
  | 10%nat =>
    step_of (res_bind (child_value stream parents self "thumb_w") py_int) (λ w,
    step_of (res_bind (child_value stream parents self "thumb_h") py_int) (λ h,
      Yield (new_leaf RawBytes self "thumb_data" (w * h * 8)) (at_ 11%nat)))
  | _ => Return_
  end.

(** [JpegChunk.__init__], jpeg.py lines 210-222. *)
Definition JpegChunk_init (fuel : nat) parents parent (name : string)
    : Res (Field Producer) :=
  res_bind (GenericFieldSet_init FieldSet None None (Some (JpegChunkFields 0))
                                 (Some parent) name None None) (λ chunk,
  match getitem stream autofix next fuel (parent :: parents) "type" chunk with
  | (Ok type_field, chunk) =>
    res_bind (res_bind (createValue stream (chunk :: parent :: parents) type_field) py_int)
    (λ tag,
       match type_name tag with
       | Some name => Ok (set_name name chunk)
       | None =>
         if tag =? 0xE1 then
           res_bind (readBytes stream (absolute_address (parent :: parents) chunk + 32) 6)
           (λ bytes,
              if String.eqb (string_of_list_byte bytes) Exif00
              then Ok (set_description (Some "EXIF") (set_name "exif" chunk))
              else Ok chunk)
         else Ok chunk
       end)
  | (Raise e, _) => Raise e
  | (Fuel, _) => Fuel
  end).

(** [JpegChunk.createFields], jpeg.py lines 224-244. *)
Definition JpegChunk_createFields (pc : nat) parents self : GenStep Producer :=
  let at_ := JpegChunkFields in
  match pc with
  | 0%nat => Yield (new_leaf UInt8 self "header" 8) (at_ 1%nat)
  | 1%nat =>
    step_of (res_bind (child_value stream parents self "header") py_int) (λ header,
      if negb (header =? 0xFF)
      then Throw (ParserError (FormatError "JPEG: Invalid chunk header!"))
      else Yield (new_leaf UInt8 self "type" 8) (at_ 2%nat))
  | 2%nat =>
    step_of (res_bind (child_value stream parents self "type") py_int) (λ tag,
      if (tag =? TAG_SOI) || (tag =? TAG_EOI) then Return_
      else Yield (new_leaf UInt16 self "size" 16) (at_ 3%nat))
  | 3%nat =>
    step_of (res_bind (child_value stream parents self "type") py_int) (λ tag,
    step_of (res_bind (child_value stream parents self "size") py_int) (λ size_value,
      let size := size_value - 2 in
      if 0 <? size then
        let handler :=
          match handler tag with
          | Some h => Some h
          | None => if String.eqb (_name self) "exif" then Some (OtherFields "Exif")
                    else None
          end in
        match handler with
        | Some h =>
          step_of (GenericFieldSet_init FieldSet None None (Some h) (Some self)
                                        "content" (Some "Chunk content") (Some (size * 8)))
                  (λ content, Yield content (at_ 4%nat))
        | None => Yield (new_leaf RawBytes self "data" (size * 8)) (at_ 4%nat)
        end
      else Return_))
  | _ => Return_
  end.

(** [JpegFile.createFields], jpeg.py lines 271-285: the code after the
    loop, the loop from its test on, and the generator. *)
Definition JpegFile_after_loop self : GenStep Producer :=
  match _size self with
  | None => Throw NotImplementedError
  | Some total =>
    let size := (total - _current_size self) / 8 in
    if negb (size =? 0)
    then Yield (new_leaf RawBytes self "data" (size * 8)) (JpegFileFields 2)
    else Return_
  end.

Definition JpegFile_loop (fuel : nat) parents self : GenStep Producer :=
  step_of (eof stream parents self) (λ at_end,
    if at_end : bool then JpegFile_after_loop self
    else step_of (JpegChunk_init fuel parents self "chunk[]")
                 (λ chunk, Yield chunk (JpegFileFields 1))).

Definition JpegFile_createFields (fuel : nat) (pc : nat) parents self : GenStep Producer :=
  match pc with
  | 0%nat => JpegFile_loop fuel parents self
  | 1%nat =>
    (* resumed after [yield chunk]: the chunk is the last child *)
    step_of (res_bind (Dict_values_at (-1) (_fields self)) (λ chunk,
             res_bind (child_value stream (self :: parents) chunk "type") py_int))
            (λ tag, if tag =? TAG_SOS then JpegFile_after_loop self
                    else JpegFile_loop fuel parents self)
  | _ => Return_
  end.

End Formats.

(** [generator.next()] for the producers above; [n] bounds the nesting of
    the producers that feed a field set of their own ([JpegChunk.__init__]
    reads [self["type"]]). *)
Fixpoint createFields_next (stream : InputStream) (autofix : bool) (n : nat)
    (parents : list (Field Producer)) (self : Field Producer) (g : Producer)
    : GenStep Producer :=
  match n with
  | O => Stall
  | S n' =>
    match g with
    | FloatFields mantissa_bits exponent_bits pc =>
      Float_createFields mantissa_bits exponent_bits pc self
    | JpegFileFields pc =>
      JpegFile_createFields stream autofix (createFields_next stream autofix n') n' pc parents self
    | JpegChunkFields pc => JpegChunk_createFields stream pc parents self
    | JpegChunkApp0Fields pc => JpegChunkApp0_createFields stream pc parents self
    | OtherFields _ => Stall
    end
  end.

(** Modelled from the spec: the constructor of a [Parser], which is not
    part of the sources at hand: a root field set over the whole stream. *)
Definition JpegFile (stream : InputStream) : Res (Field Producer) :=
  GenericFieldSet_init FieldSet (Some BIG_ENDIAN) None (Some (JpegFileFields 0))
                       None "root" None (stream_size stream).

(** ** Seeking and writing in place *)

Section Seek.

Context {G : Type}.

(** Modelled from the spec: [createPaddingField(parent, nbits, name,
    description)] and [createNullField] of [hachoir_core.field], which are
    not part of the sources at hand; they are taken as they come. *)
Variables createPaddingField createNullField :
  Field G → Z → string → option string → Res (Field G).

Implicit Types (self field old_field : Field G) (parents : list (Field G)).

(** [seekBit(address, name, description, relative, null)], lines 517-537. *)
Definition seekBit parents (address : Z) (name : string) (description : option string)
    (relative null : bool) self : Res (option (Field G)) :=
  let nbits := if relative then address - _current_size self
               else address - (absolute_address parents self + _current_size self) in
  if nbits <? 0 then Raise (ParserError SeekError)
  else if 0 <? nbits then
    res_bind (if null then createNullField self nbits name description
              else createPaddingField self nbits name description)
             (λ field, Ok (Some field))
  else Ok None.

(** [seekByte(address, name, description, relative, null)], lines 539-543. *)
Definition seekByte parents (address : Z) (name : string) (description : option string)
    (relative null : bool) self : Res (option (Field G)) :=
  seekBit parents (address * 8) name description relative null self.

(** The loop of [writeFieldsIn] over [new_fields], lines 620-623: the
    fields with their addresses, and the address after the last. *)
Fixpoint place_fields (address : Z) (new_fields : list (Field G)) : Res (list (Field G) * Z) :=
  match new_fields with
  | [] => Ok ([], address)
  | field :: rest =>
    res_bind (sized field) (λ size,
    res_bind (place_fields (address + size) rest) (λ placed,
    Ok (set_address address field :: placed.1, placed.2)))
  end.

(** The padding of [writeFieldsIn], lines 614-617 and 628-631: none when
    [size] is zero. *)
Definition padding_at (address size : Z) self : Res (list (Field G)) :=
  if 0 <? size then
    res_bind (createPaddingField self size "padding[]" None)
             (λ padding, Ok [set_address address padding])
  else Ok [].

(** [writeFieldsIn(old_field, address, new_fields)], lines 598-633. *)
Definition writeFieldsIn old_field (address : Z) (new_fields : list (Field G))
    : M (Field G * list (Event G)) unit :=
  total_size <- lift (sum_sizes new_fields) ;;
  old_size <- lift (sized old_field) ;;
  if old_size <? total_size
  then raise (ParserError (FormatError
         ("Unable to write fields at address " +:+ pretty address +:+ " (too big)!")))
  else
    assert_ (0 <=? address - _address old_field) ;;;
    before <- on_self (call (padding_at (_address old_field) (address - _address old_field))) ;;
    placed <- lift (place_fields address new_fields) ;;
    assert_ (0 <=? _address old_field + old_size - placed.2) ;;;
    after <- on_self (call (padding_at placed.2 (_address old_field + old_size - placed.2))) ;;
    replaceField (_name old_field) (before ++ placed.1 ++ after).

(** [setUniqueFieldName] for each field of a list, in order. *)
Fixpoint rename_each (fields : list (Field G)) : M (Field G) (list (Field G)) :=
  match fields with
  | [] => ret []
  | field :: rest =>
    field <- setUniqueFieldName field ;;
    rest <- rename_each rest ;;
    ret (field :: rest)
  end.

End Seek.

(** ** The vocabulary of the properties *)

Section Layout.

Context {G : Type}.
Implicit Types (self field : Field G) (l : list (Field G)) (fs : list (Field G)).

(** The children of a set, in the order of the dictionary. *)
Definition children self : list (Field G) := (_fields self).*2.

(** The fields of [l] tile the bits from [a] to [b]: each starts where the
    one before it ends, and each has its size. *)
Fixpoint contiguous (a : Z) l (b : Z) : Prop :=
  match l with
  | [] => a = b
  | field :: l' =>
    _address field = a ∧ ∃ size, _size field = Some size ∧ contiguous (a + size) l' b
  end.

(** The children of [self] tile the bits from 0 to [_current_size]. *)
Definition Contiguous self : Prop :=
  contiguous 0 (children self) (_current_size self).

(** The sum of the sizes of the fields of [l]. *)
Definition extent l : Z := foldr (λ field acc, default 0 (_size field) + acc) 0 l.

(** The attributes that only sealing and sizing change are the same. *)
Definition same_frame self self' : Prop :=
  _size self' = _size self ∧ _field_generator self' = _field_generator self
  ∧ _name self' = _name self.

(** The index that [setUniqueFieldName] gives to the next use of [key]. *)
Definition next_index (counts : gmap string nat) (key : string) : nat :=
  match counts !! key with
  | Some n => S n
  | None => O
  end.

(** The name under which [_addField] first tries to append a field, and
    the counters after that. *)
Definition unique_name self field : string :=
  if endswith (_name field) "[]"
  then drop_last2 (_name field)
       +:+ index_suffix (next_index (_field_array_count self) (drop_last2 (_name field)))
  else _name field.

Definition unique_counts self field : gmap string nat :=
  if endswith (_name field) "[]"
  then <[drop_last2 (_name field)
         := next_index (_field_array_count self) (drop_last2 (_name field))]>
       (_field_array_count self)
  else _field_array_count self.

(** The dictionary entries of fields stored under their names. *)
Definition entries fs : list (string * Field G) := map (λ field, (_name field, field)) fs.

(** [p] is [field] under another name and at another address. *)
Definition same_content (p field : Field G) : Prop :=
  ∃ name address, p = set_address address (set_name name field).

Definition sized_all fs : Prop := Forall (λ field, is_Some (_size field)) fs.

(** [n] is a name that [field] can end with: its own, or its prefix with
    an index when it ends with ["[]"]. *)
Definition final_name (n : string) field : Prop :=
  if endswith (_name field) "[]"
  then ∃ k : nat, n = drop_last2 (_name field) +:+ index_suffix k
  else n = _name field.

(** The check of line 564 of [replaceField] lets the first new field
    through. *)
Definition first_ok self (name : string) field : Prop :=
  unique_name self field = name
  ∨ Dict_contains (unique_name self field) (_fields self) = false.

(** The attributes that no method of the driver assigns. *)
Definition static self :=
  (cls self, is_field_set self, endian self, _name self, _address self,
   _description self, createFields self).

Definition same_static self self' : Prop := static self' = static self.

(** A size that is known stays as it is. *)
Definition size_kept self self' : Prop :=
  ∀ z : Z, _size self = Some z → _size self' = Some z.

(** The names, the classes and the places of the children. *)
Definition names self : list string := map fst (_fields self).

Definition layout self : list (string * Z * option Z) :=
  map (λ kv, (kv.1, _address kv.2, _size kv.2)) (_fields self).

Definition field_summary (d : Dict G) : list (string * FieldClass * Z * option Z) :=
  map (λ kv, (kv.1, cls kv.2, _address kv.2, _size kv.2)) d.

Variable stream : InputStream.

(** The field has its size and there is place for it: lines 272-275 of
    [_addField] find nothing to repair. *)
Definition fits (parents : list (Field G)) self field : Prop :=
  ∃ fsize dsize,
    _size field = Some fsize ∧
    _checkSize stream parents self (_current_size self + fsize) false = Ok dsize ∧
    match dsize with Some d => 0 ≤ d | None => True end ∧
    (is_field_set field = true → 0 < fsize).

(** A relation [P] between the object before and after a call holds for
    every run of the method [m], or for its runs from [s]. *)
Variable P : Field G → Field G → Prop.

Definition preserves {A} (m : M (Field G) A) : Prop :=
  ∀ s r s', m s = (r, s') → P s s'.

Definition preserves_from {A} (s : Field G) (m : M (Field G) A) : Prop :=
  ∀ r s', m s = (r, s') → P s s'.

End Layout.

(** The state in which a call leaves the object. *)
Definition state_after {S A} (m : M S A) (s : S) : S := (m s).2.

(** ** Concrete inputs *)

(** A root field set over a stream, in byte order [e]. *)
Definition root_set (e : Endian) (stream : InputStream) : Field Producer :=
  mkField FieldSet true e "root" 0 (stream_size stream) None [] 0 ∅ [] None None.

(** The eight bytes of the assertion at line 9 of float.py. *)
Definition float64_stream : InputStream :=
  {| stream_bytes := [xc0; x00; x00; x00; x00; x00; x00; x00];
     stream_size_known := true |}.

(** The field that [Float80(parent, name)] constructs, the four leaves that
    its producer yields, and the field once they are its children. *)
Definition Float80_new (parent : Field Producer) (name : string) : Field Producer :=
  mkField (Float None) true (endian parent) name (_current_size parent) (Some 80) None
          [] 0 ∅ [] (Some (Suspended (FloatFields 64 15 0))) (Some (FloatFields 64 15 0)).

Definition Float80_leaf (e : Endian) (c : FieldClass) (name : string) (address size : Z)
    : Field Producer :=
  mkField c false e name address (Some size) None [] 0 ∅ [] None None.

Definition Float80_children (e : Endian) : list (Field Producer) :=
  [Float80_leaf e Bit "negative" 0 1; Float80_leaf e FloatExponent "exponent" 1 15;
   Float80_leaf e Bit "one" 16 1; Float80_leaf e FloatMantissa "mantissa" 17 63].

Definition Float80_fed (parent : Field Producer) (name : string)
    (g : option (Generator Producer)) : Field Producer :=
  set_field_generator g
    (set_current_size 80
       (set_fields (entries (Float80_children (endian parent))) (Float80_new parent name))).

(** Sign 1, exponent 0x4000, integer bit 1, mantissa 0. *)
Definition float80_stream : InputStream :=
  {| stream_bytes := [xc0; x00; x80; x00; x00; x00; x00; x00; x00; x00];
     stream_size_known := true |}.

(** A JPEG stream: SOI, APP0 (JFIF 1.1), one DQT chunk of 65 bytes, EOI. *)
Definition jpeg_bytes : list byte :=
  [xff; xd8;
   xff; xe0; x00; x10; x4a; x46; x49; x46; x00; x01; x01; x00; x00; x01; x00; x01; x00; x00;
   xff; xdb; x00; x43] ++ repeat x01 65 ++ [xff; xd9].

Definition jpeg_stream : InputStream :=
  {| stream_bytes := jpeg_bytes; stream_size_known := true |}.

(** [parent[name].value] read as an integer, for a child that is there. *)
Definition int_value (stream : InputStream) (parents : list (Field Producer))
    (self : Field Producer) (name : string) : Res Z :=
  res_bind (child_value stream parents self name) py_int.

(** Producers that follow a script: a leaf of a given name and size, a
    composite of a given name and size with no child of its own, or a leaf
    whose name depends on whether the size of the set is known, as the
    producers that read [self._size] do. *)
Inductive Item :=
| Leaf (name : string) (size : Z)
| Composite (name : string) (size : Z)
| BySize (unknown known : string) (size : Z).

Definition Script := list Item.

Definition script_next (parents : list (Field Script)) (self : Field Script) (g : Script)
    : GenStep Script :=
  match g with
  | [] => Return_
  | Leaf name size :: g' => Yield (new_leaf Bits self name size) g'
  | Composite name size :: g' =>
    match GenericFieldSet_init FieldSet None None (Some []) (Some self) name None (Some size) with
    | Ok field => Yield field g'
    | Raise e => Throw e
    | Fuel => Stall
    end
  | BySize unknown known size :: g' =>
    Yield (new_leaf Bits self (match _size self with None => unknown | Some _ => known end) size) g'
  end.

Definition script_stream : InputStream :=
  {| stream_bytes := [x00; x00; x00; x00]; stream_size_known := true |}.

Definition script_set (name : string) (size : option Z) (g : Script) : Field Script :=
  mkField FieldSet true BIG_ENDIAN name 0 size None [] 0 ∅ [] (Some (Suspended g)) (Some g).

(** The set after [readMoreFields(number)]. *)
Definition script_read (autofix : bool) (parents : list (Field Script)) (number : Z)
    (self : Field Script) : Field Script :=
  state_after (readMoreFields script_stream autofix script_next 4 parents number) self.

(** A composite child as [script_next] yields it. *)
Definition composite_child (self : Field Script) (name : string) (size : Z) : Field Script :=
  mkField FieldSet true BIG_ENDIAN name (_current_size self) (Some size) None
          [] 0 ∅ [] (Some (Suspended [])) (Some []).

(** A set of 32 bits whose producer yields the names "a[0]", "a" and "a". *)
Definition hole_set : Field Script :=
  script_set "root" (Some 32) [Leaf "a[0]" 8; Leaf "a" 8; Leaf "a" 8].

(** That set once "a[0]" and "a" are its children. *)
Definition taken_set : Field Script := script_read true [] 2 hole_set.

(** A set of 32 bits with one child of 8 bits. *)
Definition slack_set : Field Script :=
  script_read true [] 1 (script_set "root" (Some 32) [Leaf "a" 8; Leaf "b" 8]).

(** A set of 8 bits that its first child fills, and a set of 16 bits half
    filled by its first child. *)
Definition full_set : Field Script :=
  script_read true [] 1 (script_set "root" (Some 8) [Leaf "a" 8; Composite "b" 8]).

Definition half_set : Field Script :=
  script_read true [] 1 (script_set "root" (Some 16) [Leaf "a" 8; Composite "b" 16]).

(** A set with the children "x" (16 bits) and "y" (8 bits), and new leaves
    for it. *)
Definition pair_set : Field Script :=
  script_read true [] 2 (script_set "root" (Some 24) [Leaf "x" 16; Leaf "y" 8]).

Definition bits_leaf (name : string) (size : Z) : Field Script :=
  new_leaf Bits pair_set name size.

(** A set of unknown size inside a set of 16 bits; its only child is named
    after whether its size is known. *)
Definition outer_set : Field Script := script_set "outer" (Some 16) [].
Definition inner_set : Field Script := script_set "inner" None [BySize "a" "b" 8].

(** A set of 16 bits with two leaves to come. *)
Definition sized_set : Field Script :=
  script_set "root" (Some 16) [Leaf "a" 8; Leaf "b" 8].

(** [reset()] followed by [readMoreFields(k)]. *)
Definition reset_read (parents : list (Field Script)) (k : Z) : M (Field Script) Z :=
  reset ;;; readMoreFields script_stream true script_next 4 parents k.

(** ** More vocabulary and inputs *)

Section Offsets.

Context {G : Type}.

(** The offset of the start of [self] in the ancestor that follows
    [below] in the chain of its parents. *)
Definition offset_in (below : list (Field G)) (self : Field G) : Z :=
  fold_left (λ acc p, acc + _address p) below (_address self).

End Offsets.

(** A set of unknown size, inside a set of 16 bits, whose first child of
    16 bits is read. *)
Definition fed_inner : Field Script :=
  script_read true [outer_set] 1 (script_set "inner" None [Leaf "a" 16; Leaf "b" 8]).

(** A leaf of a scripted set, as it sits in the dictionary. *)
Definition placed_leaf (c : FieldClass) (name : string) (address size : Z) : Field Script :=
  mkField c false BIG_ENDIAN name address (Some size) None [] 0 ∅ [] None None.

(** A padding of the asked size, for the examples. *)
Definition raw_padding (parent : Field Script) (nbits : Z) (name : string)
    (description : option string) : Res (Field Script) :=
  Ok (set_description description (new_leaf RawBits parent name nbits)).

Section Blind.
Context {G : Type}.
Variable stream : InputStream.
Variable autofix : bool.
Variable next : list (Field G) → Field G → G → GenStep G.
Implicit Types (self field : Field G) (parents : list (Field G)).

(** The suspended producer of the set, if any, is in a state of [good]. *)
Definition gen_good (good : G → Prop) self : Prop :=
  match _field_generator self with
  | Some (Suspended g) => good g
  | _ => True
  end.

(** From the producer states [good], neither the producer of a set whose
    parents are [parents] nor the producers of the sets below it read the
    size of that set. *)
Definition size_blind (good : G → Prop) parents : Prop :=
  (∀ self v g, good g → next parents (set_size v self) g = next parents self g)
  ∧ (∀ below self v child g, good g →
       next (below ++ set_size v self :: parents) child g
       = next (below ++ self :: parents) child g).

(** A field as a producer may yield it: its size, when it has one, is not
    negative; a field that has none has not counted a negative number of
    bits and its producer is in a state of [good]. *)
Definition field_ok (good : G → Prop) field : Prop :=
  match _size field with
  | Some fsize => 0 ≤ fsize
  | None => gen_good good field ∧ 0 ≤ _current_size field
  end.

(** From the producer states [good], the producers yield such fields and go
    on in a state of [good]. *)
Definition yields_ok (good : G → Prop) : Prop :=
  ∀ parents self g field g', good g → next parents self g = Yield field g' →
    good g' ∧ field_ok good field.

(** The set does not start after the end of the nearest ancestor whose size
    is known. *)
Definition well_placed parents self : Prop :=
  ∀ room : Z, _checkSize stream parents self 0 false = Ok (Some room) → 0 ≤ room.

(** What the sets of unknown size that start at [address] under [parents]
    get from [_checkSize]: the bits left up to [bound], or nothing to
    measure against. *)
Definition bounded_at parents (address bound : Z) : Prop :=
  ∀ self (size : Z) strict, _size self = None → _address self = address →
    _checkSize stream parents self size strict = Ok (Some (bound - size)).

Definition unbounded_at parents (address : Z) : Prop :=
  ∀ self (size : Z), _size self = None → _address self = address →
    _checkSize stream parents self size false = Ok None
    ∧ (_checkSize stream parents self size true = Ok (Some 0)
       ∨ _checkSize stream parents self size true = Raise TypeError).

(** Lines 272-290 of [_addField]: the field, whose size has been asked for,
    is checked, counted and appended. *)
Definition add_sized (fuel : nat) parents (ask_stop : bool) field : M (Field G) (Field G) :=
  field <- check_place stream autofix fuel parents field ;;
  field <- append_field field ;;
  if ask_stop then raise StopIteration else ret field.

(** What [readMoreFields] makes of the outcome of its loop, lines 453-460. *)
Definition read_outcome parents (res : Res unit * (Z * Field G)) : Res Z * Field G :=
  match res with
  | (Ok _, (added, self)) => (Ok added, self)
  | (Raise err, (added, self)) =>
    (new_field <- feed_except autofix parents err ;;
     ret (if HACHOIR_ERRORS err then added + 1
          else match new_field with
               | Some _ => added + 1
               | None => added
               end)) self
  | (Fuel, (_, self)) => (Fuel, self)
  end.

(** One round of the loop of [readMoreFields], lines 451-452. *)
Definition read_step (fuel : nat) parents : M (Field G) (Field G) :=
  field <- gen_next next parents ;;
  _addField stream autofix fuel (_feedAll stream autofix next fuel) parents field.

(** The method never raises [StopIteration]. *)
Definition no_stop {A} (m : M (Field G) A) : Prop :=
  ∀ s s', m s ≠ (Raise StopIteration, s').

(** How [add_sized] ends: with the field, or with [StopIteration] when the
    caller asked for it. *)
Definition ends (ask_stop : bool) (r : Res (Field G)) : Prop :=
  if ask_stop then r = Raise StopIteration else ∃ f, r = Ok f.

(** Two chains of parents that differ by the size of one set, whose own
    parents are [parents]. *)
Definition resized parents (parents1 parents2 : list (Field G)) : Prop :=
  ∃ below self v, parents1 = below ++ self :: parents
                  ∧ parents2 = below ++ set_size v self :: parents.

(** Two chains of parents that give the same bounds. *)
Definition same_bounds (parents1 parents2 : list (Field G)) : Prop :=
  ∀ self (size : Z) strict,
    _checkSize stream parents1 self size strict = _checkSize stream parents2 self size strict.

(** The sets of unknown size that start at [address] under [parents] get an
    assertion failure from [_checkSize]. *)
Definition broken_at parents (address : Z) : Prop :=
  ∀ self (size : Z) strict, _size self = None → _address self = address →
    _checkSize stream parents self size strict = Raise AssertionError.

(** Under [parents2] the sets of unknown size that start at [address] are
    bound by [bound]; under [parents1], which differs from [parents2] by
    the size of one set, they are bound by more, or by nothing. *)
Definition fit_regime parents (parents1 parents2 : list (Field G)) (address bound : Z)
    : Prop :=
  resized parents parents1 parents2 ∧ bounded_at parents2 address bound
  ∧ (unbounded_at parents1 address
     ∨ ∃ bound1 : Z, bound < bound1 ∧ bounded_at parents1 address bound1).

End Blind.

(** Producers that follow a tree of parts: a leaf of a given name and
    size, or a group, a composite of unknown size whose producer follows
    the parts of the group. *)
#[warnings="-register-all"]
Inductive Part :=
| Piece (name : string) (size : N)
| Group (name : string) (parts : list Part).

Definition Parts := list Part.

Definition parts_next (parents : list (Field Parts)) (self : Field Parts) (g : Parts)
    : GenStep Parts :=
  match g with
  | [] => Return_
  | Piece name size :: g' => Yield (new_leaf Bits self name (Z.of_N size)) g'
  | Group name parts :: g' =>
    match GenericFieldSet_init FieldSet None None (Some parts) (Some self) name None None with
    | Ok field => Yield field g'
    | Raise e => Throw e
    | Fuel => Stall
    end
  end.

Definition parts_set (name : string) (size : option Z) (g : Parts) : Field Parts :=
  mkField FieldSet true BIG_ENDIAN name 0 size None [] 0 ∅ [] (Some (Suspended g)) (Some g).

(** A set of unknown size, inside a set of 32 bits, whose producer yields a
    group of two leaves and a leaf. *)
Definition parts_outer : Field Parts := parts_set "outer" (Some 32) [].
Definition parts_inner : Field Parts :=
  parts_set "inner" None [Group "g" [Piece "a" 8; Piece "b" 8]; Piece "c" 8].

(** [reset()] followed by [readMoreFields(k)]. *)
Definition parts_read (parents : list (Field Parts)) (k : Z) : M (Field Parts) Z :=
  reset ;;; readMoreFields script_stream true parts_next 4 parents k.

(** A stream whose size is not known, a set of unknown size over it with
    one child of 8 bits, and a composite of unknown size that has no
    child to come. *)
Definition pipe_stream : InputStream :=
  {| stream_bytes := [x00; x00; x00; x00]; stream_size_known := false |}.

Definition unbounded_set : Field Script :=
  state_after (readMoreFields pipe_stream true script_next 4 [] 1)
              (script_set "root" None [Leaf "a" 8]).

Definition empty_composite : Field Script := script_set "b" None [].

(** * Properties of the driver *)

Section Layout.
Context {G : Type}.
Implicit Types (self field : Field G) (l : list (Field G)).




Lemma contiguous_app a l1 l2 c :
  contiguous a (l1 ++ l2) c ↔ ∃ b, contiguous a l1 b ∧ contiguous b l2 c.
Proof.
  revert a. induction l1 as [|f l1 IH]; intros a; simpl.
  - split.
    + intros H. exists a. split; [reflexivity | exact H].
    + intros (b & -> & H). exact H.
  - split.
    + intros (Ha & s & Hs & H). apply IH in H as (b & H1 & H2).
      exists b. split; [|exact H2]. split; [exact Ha|]. exists s. split; assumption.
    + intros (b & (Ha & s & Hs & H1) & H2). split; [exact Ha|].
      exists s. split; [exact Hs|]. apply IH. exists b. split; assumption.
Qed.

Lemma contiguous_fun a l b b' : contiguous a l b → contiguous a l b' → b = b'.
Proof.
  revert a. induction l as [|f l IH]; intros a; simpl.
  - congruence.
  - intros (_ & s & Hs & H) (_ & s' & Hs' & H').
    rewrite Hs in Hs'. injection Hs' as <-. eauto.
Qed.

End Layout.

Section Layout2.
Context {G : Type}.
Implicit Types (self field : Field G) (l : list (Field G)) (d : list (string * Field G)).


Lemma extent_app l1 l2 : extent (l1 ++ l2) = extent l1 + extent l2.
Proof. induction l1 as [|f l1 IH]; simpl; [reflexivity|]. rewrite IH. lia. Qed.

Lemma contiguous_extent a l b : contiguous a l b → b = a + extent l.
Proof.
  revert a. induction l as [|f l IH]; intros a; simpl.
  - intros ->. lia.
  - intros (_ & s & Hs & H). apply IH in H. rewrite Hs. simpl. lia.
Qed.

Lemma self_eta self :
  set_current_size (_current_size self) (set_fields (_fields self) self) = self.
Proof. destruct self; reflexivity. Qed.

Ltac zcases :=
  repeat match goal with
         | |- context [(?a <? ?b)%Z] => destruct (Z.ltb_spec a b)
         | |- context [(?a <=? ?b)%Z] => destruct (Z.leb_spec a b)
         | |- context [(?a =? ?b)%Z] => destruct (Z.eqb_spec a b)
         end; simpl; try lia; try reflexivity; try congruence.

Lemma py_index_last (n : nat) : py_index (S n) (Z.of_nat (S n) - 1) = Some n.
Proof. unfold py_index. cbv zeta. zcases. f_equal. lia. Qed.

Lemma py_index_minus1 (n : nat) : py_index (S n) (-1) = Some n.
Proof. unfold py_index. cbv zeta. zcases. f_equal. lia. Qed.

Lemma py_index_nil (i : Z) : py_index 0 i = None.
Proof. unfold py_index. cbv zeta. zcases. Qed.

Lemma Dict_values_at_last d kf :
  Dict_values_at (Z.of_nat (length (d ++ [kf])) - 1) (d ++ [kf]) = Ok kf.2.
Proof.
  unfold Dict_values_at. rewrite length_app. simpl length.
  replace (length d + 1)%nat with (S (length d)) by lia.
  rewrite py_index_last. rewrite lookup_app_r by lia.
  rewrite Nat.sub_diag. reflexivity.
Qed.

Lemma Dict_delitem_last d kf :
  Dict_delitem (Z.of_nat (length (d ++ [kf])) - 1) (d ++ [kf]) = Ok d.
Proof.
  unfold Dict_delitem. rewrite length_app. simpl length.
  replace (length d + 1)%nat with (S (length d)) by lia.
  rewrite py_index_last. f_equal.
  rewrite delete_take_drop. rewrite take_app_length.
  rewrite drop_ge; [apply app_nil_r | rewrite length_app; simpl; lia].
Qed.

End Layout2.

Section FixLast.
Context {G : Type}.
Implicit Types (self field : Field G) (l : list (Field G)) (d : list (string * Field G)).

Lemma self_eta' self :
  set_fields (_fields self) (set_current_size (_current_size self) self) = self.
Proof. destruct self; reflexivity. Qed.

Lemma _deleteField_last d k field size self :
  _fields self = d ++ [(k, field)] → _size field = Some size →
  _deleteField (Z.of_nat (length (_fields self)) - 1) self
  = (Ok field, set_fields d (set_current_size (_current_size self - size) self)).
Proof.
  intros Hd Hs. unfold _deleteField, bind, call, lift, modify, fields_delitem, update, ret, sized.
  rewrite Hd. rewrite Dict_values_at_last. simpl. rewrite Hs. simpl.
  rewrite Hd. rewrite Dict_delitem_last. reflexivity.
Qed.

Lemma Contiguous_last d k field self :
  _fields self = d ++ [(k, field)] → Contiguous self →
  ∃ size, _size field = Some size ∧ contiguous 0 d.*2 (_address field)
          ∧ _address field + size = _current_size self.
Proof.
  unfold Contiguous, children. intros ->. rewrite fmap_app. simpl.
  intros H. apply contiguous_app in H as (b & H1 & H2). simpl in H2.
  destruct H2 as (Ha & s & Hs & Hb). exists s. subst b.
  split; [exact Hs|]. split; [exact H1|]. lia.
Qed.

Lemma nil_or_snoc {A} (xs : list A) :
  xs = [] ∨ ∃ (xs0 : list A) (x : A), xs = xs0 ++ [x].
Proof.
  induction xs as [|x xs0 _] using rev_ind; [left; reflexivity|].
  right. exists xs0, x. reflexivity.
Qed.

Lemma delete_too_large_spec (size : Z) (n : nat) self :
  Contiguous self → 0 ≤ size → (length (_fields self) < n)%nat →
  ∃ k : nat, (k ≤ length (_fields self))%nat ∧
    delete_too_large size n self
    = (Ok tt, set_fields (take k (_fields self))
                (set_current_size (extent (take k (children self))) self)) ∧
    extent (take k (children self)) ≤ size ∧
    (∀ j : nat, (k < j ≤ length (_fields self))%nat →
                size < extent (take j (children self))).
Proof.
  revert self. induction n as [|n IH]; intros self Hc Hsize Hn; [lia|].
  simpl. unfold bind at 1. unfold get at 1.
  pose proof (contiguous_extent _ _ _ Hc) as Hcs. simpl in Hcs.
  destruct (Z.ltb_spec size (_current_size self)) as [Hlt|Hge].
  - destruct (nil_or_snoc (_fields self)) as [Hf|(d0 & [k field] & Hf)].
    { unfold children in Hcs. rewrite Hf in Hcs. simpl in Hcs. lia. }
    destruct (Contiguous_last _ _ _ _ Hf Hc) as (s & Hs & Hd & Hend).
    unfold bind.
    rewrite (_deleteField_last d0 k field s self Hf Hs).
    set (self1 := set_fields d0 (set_current_size (_current_size self - s) self)).
    destruct (IH self1) as (k1 & Hk1 & Hrun & Hle & Hbig).
    + unfold Contiguous, children, self1. simpl.
      replace (_current_size self - s) with (_address field) by lia. exact Hd.
    + exact Hsize.
    + unfold self1. simpl. rewrite Hf, length_app in Hn. simpl in Hn. lia.
    + unfold self1 in Hk1, Hrun, Hle, Hbig. simpl in Hk1, Hrun, Hle, Hbig.
      assert (Htake : ∀ j : nat, (j ≤ length d0)%nat →
                take j (children self) = take j d0.*2).
      { intros j Hj. unfold children. rewrite Hf, fmap_app.
        rewrite take_app_le; [reflexivity|]. rewrite length_fmap. exact Hj. }
      exists k1. rewrite Hf. rewrite length_app. simpl length.
      split; [lia|]. split; [|split].
      * cbv beta iota. subst self1. rewrite Hrun. unfold children at 1. simpl.
        rewrite (take_app_le d0) by exact Hk1. rewrite Htake by exact Hk1.
        reflexivity.
      * rewrite Htake by exact Hk1. exact Hle.
      * intros j Hj. destruct (decide (j ≤ length d0)%nat) as [Hjl|Hjl].
        -- rewrite Htake by exact Hjl. apply Hbig. split; [apply Hj | exact Hjl].
        -- rewrite take_ge.
           ++ lia.
           ++ unfold children. rewrite length_fmap, Hf, length_app. simpl. lia.
  - exists (length (_fields self)). split; [lia|].
    assert (Hall : take (length (_fields self)) (children self) = children self).
    { apply take_ge. unfold children. rewrite length_fmap. lia. }
    rewrite Hall. rewrite firstn_all. split; [|split].
    + unfold ret. replace (extent (children self)) with (_current_size self) by lia.
      rewrite self_eta'. reflexivity.
    + lia.
    + intros j Hj. lia.
Qed.

End FixLast.

Section MonadFacts.
Context {S A B : Type}.

Lemma bind_inv (m : M S A) (f : A → M S B) s r s' :
  bind m f s = (r, s') →
  (∃ a s1, m s = (Ok a, s1) ∧ f a s1 = (r, s'))
  ∨ (∃ e, m s = (Raise e, s') ∧ r = Raise e)
  ∨ (m s = (Fuel, s') ∧ r = Fuel).
Proof.
  unfold bind. destruct (m s) as [[a|e|] s1]; intros H.
  - left. eauto.
  - right. left. injection H as <- <-. eauto.
  - right. right. injection H as <- <-. eauto.
Qed.

Lemma bind_ok (m : M S A) (f : A → M S B) s a s1 :
  m s = (Ok a, s1) → bind m f s = f a s1.
Proof. unfold bind. intros ->. reflexivity. Qed.

End MonadFacts.

Ltac inv_bind H :=
  let a := fresh "a" in let s1 := fresh "s" in let e := fresh "e" in
  let H1 := fresh H in let H' := fresh "Hinv" in
  pose proof (bind_inv _ _ _ _ _ H) as H'; clear H;
  destruct H' as [(a & s1 & H1 & H) | [(e & H1 & H) | (H1 & H)]].

Section Preserve.
Context {G : Type}.
Implicit Types (self field : Field G) (d : list (string * Field G)).


Lemma same_frame_refl self : same_frame self self.
Proof. unfold same_frame; auto. Qed.

Lemma same_frame_trans (s1 s2 s3 : Field G) : same_frame s1 s2 → same_frame s2 s3 → same_frame s1 s3.
Proof. unfold same_frame. intuition congruence. Qed.

Lemma update_fields_frame (f : Field G → Res (Dict G)) self r self' :
  update (λ self, res_bind (f self) (λ d, Ok (set_fields d self))) self = (r, self') →
  same_frame self self'.
Proof.
  unfold update. destruct (f self) as [d|e|]; simpl; intros H; injection H as <- <-;
    (unfold same_frame; simpl; auto).
Qed.

Lemma fields_delitem_frame index self r self' :
  fields_delitem index self = (r, self') → same_frame self self'.
Proof. apply (update_fields_frame (λ self, Dict_delitem index (_fields self))). Qed.

Lemma fields_append_frame field self r self' :
  fields_append field self = (r, self') → same_frame self self'.
Proof. apply (update_fields_frame (λ self, Dict_append (_name field) field (_fields self))). Qed.

Lemma _deleteField_frame index self r self' :
  _deleteField index self = (r, self') → same_frame self self'.
Proof.
  unfold _deleteField. intros H.
  inv_bind H; unfold call in H0.
  - injection H0 as H0 <-. inv_bind H.
    + unfold lift in H1. injection H1 as H1 <-. inv_bind H.
      * unfold modify in H2. injection H2 as _ <-. inv_bind H.
        -- apply fields_delitem_frame in H2. unfold ret in H. injection H as _ <-.
           eapply same_frame_trans; [|exact H2]. (unfold same_frame; simpl; auto).
        -- apply fields_delitem_frame in H2. eapply same_frame_trans; [|exact H2]. (unfold same_frame; simpl; auto).
        -- apply fields_delitem_frame in H2. eapply same_frame_trans; [|exact H2]. (unfold same_frame; simpl; auto).
      * unfold modify in H2. discriminate.
      * unfold modify in H2. discriminate.
    + unfold lift in H1. injection H1 as _ <-. (unfold same_frame; simpl; auto).
    + unfold lift in H1. injection H1 as _ <-. (unfold same_frame; simpl; auto).
  - injection H0 as _ <-. (unfold same_frame; simpl; auto).
  - injection H0 as _ <-. (unfold same_frame; simpl; auto).
Qed.

Lemma delete_too_large_frame size n self r self' :
  delete_too_large size n self = (r, self') → same_frame self self'.
Proof.
  revert self. induction n as [|n IH]; intros self; simpl; unfold bind at 1, get at 1.
  - destruct (size <? _current_size self); unfold lift, ret; intros H; injection H as _ <-;
      (unfold same_frame; simpl; auto).
  - destruct (size <? _current_size self).
    + intros H. inv_bind H.
      * apply _deleteField_frame in H0. apply IH in H.
        eapply same_frame_trans; eassumption.
      * apply _deleteField_frame in H0. exact H0.
      * apply _deleteField_frame in H0. exact H0.
    + unfold ret. intros H. injection H as _ <-. (unfold same_frame; simpl; auto).
Qed.

End Preserve.

Lemma bind_unfold {S A B} (m : M S A) (f : A → M S B) s :
  bind m f s = match m s with
               | (Ok a, s') => f a s'
               | (Raise e, s') => (Raise e, s')
               | (Fuel, s') => (Fuel, s')
               end.
Proof. reflexivity. Qed.

Ltac mred H :=
  cbn [bind get gets ret modify raise lift call assert_ res_bind
       cls is_field_set endian _name _address _size _description _fields
       _current_size _field_array_count _array_cache _field_generator createFields
       set_name set_address set_size set_description set_fields set_current_size
       set_field_array_count set_array_cache set_field_generator fst snd] in H.
Ltac mrun :=
  unfold bind, get, gets, ret, modify, raise, lift, call, assert_;
  cbn [res_bind
       cls is_field_set endian _name _address _size _description _fields
       _current_size _field_array_count _array_cache _field_generator createFields
       set_name set_address set_size set_description set_fields set_current_size
       set_field_array_count set_array_cache set_field_generator fst snd].
Ltac mgoal :=
  cbn [bind get gets ret modify raise lift call assert_ res_bind
       cls is_field_set endian _name _address _size _description _fields
       _current_size _field_array_count _array_cache _field_generator createFields
       set_name set_address set_size set_description set_fields set_current_size
       set_field_array_count set_array_cache set_field_generator fst snd].
Tactic Notation "mbind" hyp(H) "as" ident(a) ident(s') ident(E) :=
  match type of H with
  | bind ?m ?f ?s = _ =>
    rewrite (bind_unfold m f s) in H;
    destruct (m s) as [[a|?|] s'] eqn:E; mred H; try discriminate H
  end.
Ltac munfold := unfold get, gets, modify, lift, call, ret, raise, assert_ in *.
Ltac mstep H := inv_bind H; munfold; simplify_eq.

Section FixLastField.
Context {G : Type}.
Implicit Types (self field : Field G) (d : list (string * Field G)).

Lemma createRawField_inv parent size name field :
  createRawField parent size name = Ok field →
  0 < size ∧ _name field = name ∧ _address field = _current_size parent
  ∧ _size field = Some size ∧ is_field_set field = false.
Proof.
  unfold createRawField. destruct (Z.leb_spec size 0) as [Hle|Hlt]; [discriminate|].
  destruct (size mod 8 =? 0); intros H; injection H as <-; simpl; auto.
Qed.

Lemma _fixLastField_sealed self r self' :
  _fixLastField self = (Ok r, self') →
  ∃ size, _size self = Some size ∧ _size self' = Some size
          ∧ _current_size self' = size ∧ _field_generator self' = None
          ∧ _name self' = _name self.
Proof.
  unfold _fixLastField. intros H. mred H.
  destruct (_size self) as [size|] eqn:Hsize; mred H; [|discriminate].
  exists size. split; [reflexivity|].
  mbind H as u s1 Hdel.
  apply delete_too_large_frame in Hdel as (Hs1 & Hg1 & Hn1); simpl in Hs1, Hg1, Hn1.
  destruct (_current_size s1 <=? size); mred H; [|discriminate].
  mbind H as new_field s2 Hblock.
  assert (Hframe : same_frame s1 s2).
  { destruct (size - _current_size s1 =? 0); mred Hblock.
    - injection Hblock as _ <-. apply same_frame_refl.
    - destruct (createRawField _ _ _) as [field| |]; mred Hblock; try discriminate.
      destruct (sized field) as [fsize| |]; mred Hblock; try discriminate.
      mbind Hblock as u2 s3 Happ. injection Hblock as _ <-.
      apply fields_append_frame in Happ as (Hs2 & Hg2 & Hn2). simpl in Hs2, Hg2, Hn2.
      unfold same_frame. auto. }
  destruct Hframe as (Hs2 & Hg2 & Hn2).
  destruct (Z.eqb_spec (_current_size s2) size); mred H; [|discriminate].
  injection H as <- <-. repeat split; congruence.
Qed.

End FixLastField.

Section StopFeeding.
Context {G : Type}.
Variable autofix : bool.
Implicit Types (self field : Field G) (d : list (string * Field G)) (parents : list (Field G)).

Lemma Dict_index_take key d (k : nat) :
  Dict_index key d = None → Dict_index key (take k d) = None.
Proof.
  revert k. induction d as [|[k0 f0] d IH]; intros k; [destruct k; reflexivity|].
  destruct k as [|k]; [reflexivity|]. simpl.
  destruct (String.eqb k0 key); [discriminate|].
  destruct (Dict_index key d) eqn:E; [discriminate|].
  intros _. rewrite IH by reflexivity. reflexivity.
Qed.

Lemma Dict_contains_take key d (k : nat) :
  Dict_contains key d = false → Dict_contains key (take k d) = false.
Proof.
  unfold Dict_contains. destruct (Dict_index key d) eqn:E; [discriminate|].
  intros _. rewrite Dict_index_take by exact E. reflexivity.
Qed.

Lemma _fixLastField_spec self size :
  _size self = Some size → Contiguous self → 0 ≤ size →
  Dict_contains "raw[]" (_fields self) = false →
  ∃ (k : nat) new_field self',
    (k ≤ length (_fields self))%nat ∧
    extent (take k (children self)) ≤ size ∧
    (∀ j : nat, (k < j ≤ length (_fields self))%nat →
                size < extent (take j (children self))) ∧
    _fixLastField self = (Ok new_field, self') ∧
    (if extent (take k (children self)) =? size
     then new_field = None ∧ _fields self' = take k (_fields self)
     else ∃ raw, new_field = Some raw ∧ _name raw = "raw[]"
                 ∧ is_field_set raw = false
                 ∧ _address raw = extent (take k (children self))
                 ∧ _size raw = Some (size - extent (take k (children self)))
                 ∧ _fields self' = take k (_fields self) ++ [("raw[]", raw)]).
Proof.
  intros Hsize Hc Hpos Hraw.
  destruct (delete_too_large_spec size (S (length (_fields self)))
              (set_field_generator None self)) as (k & Hk & Hrun & Hle & Hbig).
  { exact Hc. } { exact Hpos. } { simpl. lia. }
  unfold children in Hk, Hle, Hbig, Hrun. mred Hk. mred Hle. mred Hbig. mred Hrun.
  fold (children self) in Hle, Hbig, Hrun.
  exists k.
  set (used := extent (take k (children self))) in *.
  unfold _fixLastField. mgoal. rewrite Hsize. mgoal.
  rewrite (bind_ok _ _ _ _ _ Hrun). mgoal.
  destruct (Z.leb_spec used size) as [_|Hbad]; [|lia]. mgoal.
  destruct (Z.eqb_spec (size - used) 0) as [Hz|Hnz].
  - do 2 eexists. split; [exact Hk|]. split; [exact Hle|]. split; [exact Hbig|].
    mgoal.
    destruct (Z.eqb_spec used size) as [_|Hne]; [|lia]. mgoal.
    split; [reflexivity|]. split; reflexivity.
  - unfold createRawField.
    destruct (Z.leb_spec (size - used) 0) as [Hbad|_]; [lia|].
    destruct (Z.eqb_spec used size) as [Heq|_]; [lia|].
    assert (Hsum : (used + (size - used) =? size) = true) by (apply Z.eqb_eq; lia).
    destruct ((size - used) mod 8 =? 0).
    all: do 2 eexists.
    all: split; [exact Hk|]; split; [exact Hle|]; split; [exact Hbig|].
    all: unfold sized, new_leaf, fields_append, update, Dict_append; mrun.
    all: rewrite (Dict_contains_take _ _ _ Hraw); mrun.
    all: rewrite Hsum; mrun.
    all: split; [reflexivity|].
    all: eexists; repeat split; reflexivity.
Qed.

End StopFeeding.

Section StopFeeding2.
Context {G : Type}.
Variable autofix : bool.
Implicit Types (self field : Field G) (d : list (string * Field G)) (parents : list (Field G)).

Lemma _stopFeeding_sealed parents self r self' (size : Z) :
  _stopFeeding autofix parents self = (Ok r, self') →
  _size self' = Some size →
  _current_size self' = size ∧ _field_generator self' = None.
Proof.
  unfold _stopFeeding. intros H Hs. mred H.
  destruct (_size self) as [size0|] eqn:Hsize.
  - destruct (Z.eqb_spec size0 (_current_size self)) as [Heq|Hne]; mred H.
    + injection H as <- <-. simpl in *. split; [congruence|reflexivity].
    + destruct autofix; mred H; [|discriminate].
      mbind H as nf s1 Hfix. injection H as <- <-. simpl in *.
      apply _fixLastField_sealed in Hfix as (sz & H1 & H2 & H3 & H4 & H5).
      split; [congruence|reflexivity].
  - destruct (has_parent parents); mred H; injection H as <- <-; simpl in *.
    + split; [congruence|reflexivity].
    + congruence.
Qed.

(** Claim C2.  [_stopFeeding] on a set whose children are contiguous and
    that has no child named "raw[]" yet: when the size is unknown, it
    becomes the current size if the set has a parent; when the size is
    known and is the current size, nothing changes; when it differs, the
    call raises [ParserError] without auto-fix, and with auto-fix it keeps
    the longest prefix of the children that fits, and appends a leaf
    "raw[]" of exactly the bits that are left when there are any.  In
    every case the generator is cleared, and whenever the call returns
    with a known size, the current size is that size. *)
Theorem stopFeeding_seals parents self :
  Contiguous self →
  Dict_contains "raw[]" (_fields self) = false →
  (∀ size, _size self = Some size → 0 ≤ size) →
  match _size self with
  | None =>
    _stopFeeding autofix parents self
    = (Ok None,
       set_field_generator None
         (if has_parent parents then set_size (Some (_current_size self)) self else self))
  | Some size =>
    if size =? _current_size self then
      _stopFeeding autofix parents self = (Ok None, set_field_generator None self)
    else if autofix then
      ∃ (k : nat) new_field self',
        _stopFeeding autofix parents self = (Ok new_field, self') ∧
        (k ≤ length (_fields self))%nat ∧
        extent (take k (children self)) ≤ size ∧
        (∀ j : nat, (k < j ≤ length (_fields self))%nat →
                    size < extent (take j (children self))) ∧
        (if extent (take k (children self)) =? size
         then new_field = None ∧ _fields self' = take k (_fields self)
         else ∃ raw, new_field = Some raw ∧ _name raw = "raw[]"
                     ∧ is_field_set raw = false
                     ∧ _address raw = extent (take k (children self))
                     ∧ _size raw = Some (size - extent (take k (children self)))
                     ∧ _fields self' = take k (_fields self) ++ [("raw[]", raw)]) ∧
        _current_size self' = size ∧ _size self' = Some size
        ∧ _field_generator self' = None
    else
      _stopFeeding autofix parents self
      = (Raise (ParserError (InvalidParserSize (_name self))), self)
  end
  ∧ (∀ r self' (size : Z),
       _stopFeeding autofix parents self = (Ok r, self') →
       _size self' = Some size →
       _current_size self' = size ∧ _field_generator self' = None).
Proof.
  intros Hc Hraw Hpos. split; [|intros r self' size; apply _stopFeeding_sealed].
  destruct (_size self) as [size|] eqn:Hsize.
  - destruct (Z.eqb_spec size (_current_size self)) as [Heq|Hne].
    + unfold _stopFeeding. mrun. rewrite Hsize.
      destruct (Z.eqb_spec size (_current_size self)); [reflexivity|contradiction].
    + destruct autofix eqn:Hauto.
      * destruct (_fixLastField_spec self size Hsize Hc (Hpos _ eq_refl) Hraw)
          as (k & nf & s1 & Hk & Hle & Hbig & Hrun & Hnew).
        pose proof (_fixLastField_sealed _ _ _ Hrun) as (sz & H1 & H2 & H3 & H4 & H5).
        exists k, nf, (set_field_generator None s1).
        split.
        { unfold _stopFeeding. mrun. rewrite Hsize.
          destruct (Z.eqb_spec size (_current_size self)); [contradiction|].
          cbn [negb]. rewrite Hrun. reflexivity. }
        split; [exact Hk|]. split; [exact Hle|]. split; [exact Hbig|].
        split; [exact Hnew|]. simpl. split; [congruence|]. split; [congruence|reflexivity].
      * unfold _stopFeeding. mrun. rewrite Hsize.
        destruct (Z.eqb_spec size (_current_size self)); [contradiction|]. reflexivity.
  - unfold _stopFeeding. mrun. rewrite Hsize. destruct (has_parent parents); reflexivity.
Qed.

End StopFeeding2.

Section Names.

Lemma append_cons (c : ascii) (s1 s2 : string) :
  String c s1 +:+ s2 = String c (s1 +:+ s2).
Proof. reflexivity. Qed.

Lemma length_append (s1 s2 : string) :
  String.length (s1 +:+ s2) = (String.length s1 + String.length s2)%nat.
Proof.
  induction s1 as [|c s1 IH]; [reflexivity|].
  rewrite append_cons. cbn [String.length]. rewrite IH. reflexivity.
Qed.

Lemma substring_all (s : string) : substring 0 (String.length s) s = s.
Proof. induction s as [|c s IH]; [reflexivity|]. simpl. rewrite IH. reflexivity. Qed.

Lemma substring_append_l (s1 s2 : string) :
  substring 0 (String.length s1) (s1 +:+ s2) = s1.
Proof.
  induction s1 as [|c s1 IH]; [destruct s2; reflexivity|].
  rewrite append_cons. cbn [String.length substring]. rewrite IH. reflexivity.
Qed.

Lemma substring_append_r (s1 s2 : string) :
  substring (String.length s1) (String.length s2) (s1 +:+ s2) = s2.
Proof.
  induction s1 as [|c s1 IH]; [apply substring_all|].
  rewrite append_cons. cbn [String.length substring]. exact IH.
Qed.

Lemma endswith_append (p suffix : string) : endswith (p +:+ suffix) suffix = true.
Proof.
  unfold endswith. rewrite length_append.
  replace (String.length p + String.length suffix - String.length suffix)%nat
    with (String.length p) by lia.
  rewrite substring_append_r. rewrite String.eqb_refl.
  destruct (Nat.leb_spec (String.length suffix) (String.length p + String.length suffix));
    [reflexivity|lia].
Qed.

Lemma drop_last2_append (p : string) : drop_last2 (p +:+ "[]") = p.
Proof.
  unfold drop_last2. rewrite length_append. simpl String.length.
  replace (String.length p + 2 - 2)%nat with (String.length p) by lia.
  apply substring_append_l.
Qed.

End Names.

Section AddFieldNames.
Context {G : Type}.
Variable stream : InputStream.
Variable autofix : bool.
Implicit Types (self field : Field G) (d : list (string * Field G)) (parents : list (Field G)).



Lemma setUniqueFieldName_spec field self (prefix : string) :
  _name field = prefix +:+ "[]" →
  setUniqueFieldName field self
  = (Ok (set_name (prefix +:+ index_suffix (next_index (_field_array_count self) prefix)) field),
     set_field_array_count
       (<[prefix := next_index (_field_array_count self) prefix]> (_field_array_count self))
       self).
Proof.
  intros Hn. unfold setUniqueFieldName. rewrite Hn, drop_last2_append. reflexivity.
Qed.

Lemma _checkSize_frame parents self self' size strict :
  _size self' = _size self → _address self' = _address self →
  _checkSize stream parents self' size strict = _checkSize stream parents self size strict.
Proof.
  intros Hs Ha. destruct parents as [|p ps]; simpl; rewrite Hs, ?Ha; reflexivity.
Qed.

End AddFieldNames.

Section AddFieldNames2.
Context {G : Type}.
Variable stream : InputStream.
Variable autofix : bool.
Implicit Types (self field : Field G) (d : list (string * Field G)) (parents : list (Field G)).



Lemma prepare_field_spec field self :
  ∃ field1,
    prepare_field field self
    = (Ok field1, set_field_array_count (unique_counts self field) self)
    ∧ _name field1 = unique_name self field
    ∧ _address field1 = _current_size self
    ∧ _size field1 = _size field
    ∧ is_field_set field1 = is_field_set field.
Proof.
  unfold prepare_field, unique_name, unique_counts, setUniqueFieldName, next_index.
  destruct (endswith (_name field) "[]"); mrun.
  - eexists. split; [reflexivity|].
    destruct (Z.eqb_spec (_address field) (_current_size self)) as [He|He]; simpl; auto.
  - eexists. split; [destruct self; reflexivity|].
    destruct (Z.eqb_spec (_address field) (_current_size self)) as [He|He]; simpl; auto.
Qed.

Lemma append_field_spec field self fsize :
  _size field = Some fsize →
  append_field field self =
    let self1 := set_current_size (_current_size self + fsize) self in
    if Dict_contains (_name field) (_fields self) then
      let k := next_index (_field_array_count self) (_name field) in
      let renamed := set_name (_name field +:+ index_suffix k) field in
      let self2 := set_field_array_count
                     (<[_name field := k]> (_field_array_count self)) self1 in
      if Dict_contains (_name renamed) (_fields self)
      then (Raise (UniqKeyError (_name renamed)), self2)
      else (Ok renamed, set_fields (_fields self ++ [(_name renamed, renamed)]) self2)
    else (Ok field, set_fields (_fields self ++ [(_name field, field)]) self1).
Proof.
  intros Hs. unfold append_field, sized. rewrite Hs. mrun. unfold Dict_append.
  destruct (Dict_contains (_name field) (_fields self)) eqn:Hin; [|reflexivity].
  cbv zeta.
  rewrite (setUniqueFieldName_spec _ _ (_name field)) by reflexivity.
  unfold fields_append, update, Dict_append. mrun.
  destruct (Dict_contains (_name field +:+ _) (_fields self)); reflexivity.
Qed.

Lemma check_place_fits fuel parents field self :
  _address field = _current_size self →
  fits stream parents self field →
  check_place stream autofix fuel parents field self = (Ok field, self).
Proof.
  intros Ha (fsize & dsize & Hs & Hd & Hpos & Hset).
  unfold check_place, sized. rewrite Hs. mrun. rewrite Ha, Hd.
  assert (H1 : match dsize with Some d => d <? 0 | None => false end = false).
  { destruct dsize as [d|]; [|reflexivity]. apply Z.ltb_ge. exact Hpos. }
  assert (H2 : is_field_set field && (fsize <=? 0) = false).
  { destruct (is_field_set field); [|reflexivity]. simpl. apply Z.leb_gt. auto. }
  rewrite H1, H2. reflexivity.
Qed.

Lemma try_field_size_sized feed parents self field fsize :
  _size field = Some fsize →
  try_field_size stream autofix feed parents self field = Ok (false, field).
Proof. intros Hs. unfold try_field_size, _getSize. mrun. rewrite Hs. reflexivity. Qed.

Lemma fits_frame parents self self' field field' :
  _size self' = _size self → _address self' = _address self →
  _current_size self' = _current_size self →
  _size field' = _size field → is_field_set field' = is_field_set field →
  fits stream parents self field → fits stream parents self' field'.
Proof.
  intros H1 H2 H3 H4 H5 (fsize & dsize & Hs & Hd & Hpos & Hset).
  exists fsize, dsize. rewrite H4, H3, H5.
  rewrite (_checkSize_frame stream parents self self') by assumption. auto.
Qed.

Lemma _addField_fits fuel feed parents field self :
  fits stream parents self field →
  _addField stream autofix fuel feed parents field self
  = (field1 <- prepare_field field ;; append_field field1) self.
Proof.
  intros Hfit.
  destruct (prepare_field_spec field self) as (field1 & Hprep & Hn & Ha & Hs & Hfs).
  unfold _addField. rewrite !(bind_ok _ _ _ _ _ Hprep).
  destruct Hfit as (fsize & dsize & Hsz & Hfit).
  mgoal. rewrite (try_field_size_sized feed parents _ field1 fsize) by congruence.
  mgoal. erewrite bind_ok; cycle 1.
  { apply check_place_fits; [exact Ha|].
    apply (fits_frame parents self _ field field1); try reflexivity; try assumption.
    exists fsize, dsize. auto. }
  unfold bind. destruct (append_field field1 _) as [[?|?|] ?]; reflexivity.
Qed.

End AddFieldNames2.

Section Truncate.
Context {G : Type}.
Implicit Types (self field : Field G) (d : list (string * Field G)).

Lemma drop_beyond_frame size n self r self' :
  drop_beyond size n self = (r, self') → same_frame self self'.
Proof.
  revert self. induction n as [|n IH]; intros self; cbn [drop_beyond]; intros H.
  - mbind H as field s1 Hlast; unfold call in Hlast; injection Hlast as _ <-.
    + destruct (_address field <? size); mred H; injection H as _ <-; apply same_frame_refl.
    + injection H as _ <-. apply same_frame_refl.
    + injection H as _ <-. apply same_frame_refl.
  - mbind H as field s1 Hlast; unfold call in Hlast; injection Hlast as _ <-.
    + destruct (_address field <? size); mred H.
      * injection H as _ <-. apply same_frame_refl.
      * mbind H as u s2 Hdel; apply fields_delitem_frame in Hdel.
        -- apply IH in H. eapply same_frame_trans; eassumption.
        -- injection H as _ <-. exact Hdel.
        -- injection H as _ <-. exact Hdel.
    + injection H as _ <-. apply same_frame_refl.
    + injection H as _ <-. apply same_frame_refl.
Qed.

Lemma _truncate_size fuel size field r field' :
  _truncate fuel size field = (Ok r, field') → _size field' = Some size.
Proof.
  destruct fuel as [|fuel]; [discriminate|]. cbn [_truncate]. intros H.
  destruct (0 <? size); mred H; [|discriminate].
  mbind H as u s1 Hbody.
  assert (Hs1 : _size s1 = Some size).
  { destruct (size <? _current_size field); mred Hbody.
    - mbind Hbody as last s2 Hdrop. apply drop_beyond_frame in Hdrop as (Hsz & _).
      cbn in Hsz.
      mbind Hbody as u2 s3 Hfix. injection Hbody as _ <-. cbn.
      assert (Hframe : _size s3 = _size s2); [|congruence].
      destruct (match _size last with Some fsize => size - _address last <? fsize | None => false end);
        [|injection Hfix as _ <-; reflexivity].
      destruct (is_field_set last).
      + destruct (_truncate fuel (size - _address last) last) as [[?|?|] ?];
          try discriminate Hfix. injection Hfix as _ <-. reflexivity.
      + mbind Hfix as u3 s4 Hdel. apply fields_delitem_frame in Hdel as (Hd & _).
        cbn in Hd. unfold call in Hfix.
        destruct (createRawField s4 _ _) as [raw| |]; mred Hfix; try discriminate Hfix.
        apply fields_append_frame in Hfix as (Ha & _). congruence.
    - destruct (match _size field with Some s => size <? s | None => true end);
        mred Hbody; [|discriminate].
      injection Hbody as _ <-. reflexivity. }
  destruct (match _size s1 with Some s => s =? _current_size s1 | None => false end);
    mred H; injection H as _ <-; simpl; exact Hs1.
Qed.

Lemma _truncate_unfed fuel size field :
  0 < size → _current_size field ≤ size →
  match _size field with Some s => size < s | None => True end →
  _truncate (S fuel) size field
  = (Ok tt, if size =? _current_size field
            then set_field_generator None (set_size (Some size) field)
            else set_size (Some size) field).
Proof.
  intros Hpos Hcs Hsz.
  assert (H1 : (0 <? size) = true) by (apply Z.ltb_lt; lia).
  assert (H2 : (size <? _current_size field) = false) by (apply Z.ltb_ge; lia).
  assert (Hc : match _size field with Some s => size <? s | None => true end = true).
  { destruct (_size field); [apply Z.ltb_lt; exact Hsz|reflexivity]. }
  cbn [_truncate]. rewrite H1. unfold assert_, bind, ret, get, modify. cbv beta iota.
  rewrite H2. cbv beta iota. rewrite Hc. cbn.
  destruct (size =? _current_size field); reflexivity.
Qed.

End Truncate.

Section AddFieldNames3.
Context {G : Type}.
Variable stream : InputStream.
Variable autofix : bool.
Implicit Types (self field : Field G) (d : list (string * Field G)) (parents : list (Field G)).

(** Claim C4.  [_addField] of a field that has its size and fits: a name
    [prefix ++ "[]"] becomes [prefix[k]] with [k] the counter of the
    prefix, 0 at its first use and one more at each later use.  When the
    name is free the field is appended under it; when it is taken the
    field is renamed [name[k']] through the same counters and appended,
    unless that name is taken too: then [UniqKeyError] reaches the caller
    and the field is not appended. *)
Theorem addField_unique_names fuel feed parents field self :
  fits stream parents self field →
  let counts := _field_array_count self in
  let name1 := unique_name self field in
  let counts1 := unique_counts self field in
  (∀ prefix, _name field = prefix +:+ "[]" →
     name1 = prefix +:+ index_suffix (next_index counts prefix)
     ∧ counts1 !! prefix = Some (next_index counts prefix)
     ∧ (counts !! prefix = None → next_index counts prefix = O)
     ∧ (∀ n, counts !! prefix = Some n → next_index counts prefix = S n))
  ∧
  if Dict_contains name1 (_fields self) then
    let k := next_index counts1 name1 in
    let name2 := name1 +:+ index_suffix k in
    if Dict_contains name2 (_fields self) then
      ∃ self', _addField stream autofix fuel feed parents field self
               = (Raise (UniqKeyError name2), self')
               ∧ _fields self' = _fields self
    else
      ∃ field' self', _addField stream autofix fuel feed parents field self
                      = (Ok field', self')
                      ∧ _name field' = name2
                      ∧ _fields self' = _fields self ++ [(name2, field')]
                      ∧ _field_array_count self' !! name1 = Some k
  else
    ∃ field' self', _addField stream autofix fuel feed parents field self
                    = (Ok field', self')
                    ∧ _name field' = name1
                    ∧ _fields self' = _fields self ++ [(name1, field')].
Proof.
  intros Hfit counts name1 counts1. split.
  - intros prefix Hn. subst name1 counts1. unfold unique_name, unique_counts.
    rewrite Hn, endswith_append, drop_last2_append.
    split; [reflexivity|]. split; [apply lookup_insert_eq|].
    unfold next_index. subst counts. split.
    + intros ->. reflexivity.
    + intros n ->. reflexivity.
  - rewrite (_addField_fits stream autofix fuel feed parents field self Hfit).
    destruct (prepare_field_spec field self) as (field1 & Hprep & Hn & Ha & Hs & Hfs).
    rewrite (bind_ok _ _ _ _ _ Hprep).
    destruct Hfit as (fsize & dsize & Hsz & _).
    rewrite (append_field_spec field1 _ fsize) by congruence.
    cbv zeta. mgoal. rewrite Hn. fold name1. fold counts1.
    destruct (Dict_contains name1 (_fields self)).
    + destruct (Dict_contains (name1 +:+ index_suffix (next_index counts1 name1))
                              (_fields self)).
      * eexists. split; reflexivity.
      * do 2 eexists. split; [reflexivity|]. split; [reflexivity|].
        split; [reflexivity|]. simpl. apply lookup_insert_eq.
    + do 2 eexists. split; [reflexivity|]. split; [exact Hn|]. reflexivity.
Qed.


(** Claim C3, as amended.  Lines 272-279 of [_addField] when the field has
    no place (the bound [dsize] is a number [d < 0]) or is a composite of
    size zero or less: without auto-fix, [ParserError] "Field ... is too
    large!", whether a bound is known or not; with auto-fix and a bound
    [d], a composite of positive size is truncated to the [fsize + d] bits
    that are left when that is more than zero, and in every other case the
    field is dropped: [StopIteration] is raised, after the size of the set
    is fixed when it was unknown and there are bits left.  With auto-fix
    and no bound anywhere ([dsize] is [None], which only a composite of
    size zero or less meets), [field.size + dsize] raises [TypeError] and
    nothing is changed.  A truncation that returns leaves the field with
    the size [fsize + d], and it does return when the field has not been
    fed past that size. *)
Theorem check_place_no_place fuel parents field self (fsize : Z) (dsize : option Z) :
  _size field = Some fsize →
  _checkSize stream parents self (_address field + fsize) false = Ok dsize →
  (∃ d : Z, dsize = Some d ∧ d < 0) ∨ (is_field_set field = true ∧ fsize ≤ 0) →
  check_place stream autofix fuel parents field self =
    (if autofix then
       match dsize with
       | Some d =>
         if (0 <? fsize + d) && is_field_set field && (0 <? fsize) then
           match _truncate fuel (fsize + d) field with
           | (Ok _, field') => (Ok field', self)
           | (Raise e, _) => (Raise e, self)
           | (Fuel, _) => (Fuel, self)
           end
         else
           (Raise StopIteration,
            if 0 <? fsize + d then
              match _size self with
              | None => set_size (Some (_current_size self + (fsize + d))) self
              | Some _ => self
              end
            else self)
       | None => (Raise TypeError, self)
       end
     else (Raise (ParserError (FieldTooLarge (_name field))), self))
  ∧ (∀ (d : Z) u field', dsize = Some d →
                   _truncate fuel (fsize + d) field = (Ok u, field') →
                   _size field' = Some (fsize + d))
  ∧ (∀ (d : Z) fuel', dsize = Some d → fuel = S fuel' → 0 < fsize + d → d < 0 →
                _current_size field ≤ fsize + d →
                _truncate fuel (fsize + d) field
                = (Ok tt, if fsize + d =? _current_size field
                          then set_field_generator None (set_size (Some (fsize + d)) field)
                          else set_size (Some (fsize + d)) field)).
Proof.
  intros Hs Hd Htrig. split; [|split].
  - unfold check_place, sized. rewrite Hs. mrun. rewrite Hd.
    assert (Hcond : match dsize with Some d => d <? 0 | None => false end
                    || is_field_set field && (fsize <=? 0) = true).
    { destruct Htrig as [(d & -> & Hneg)|[Hfs Hle]].
      - apply Z.ltb_lt in Hneg. rewrite Hneg. reflexivity.
      - rewrite Hfs. apply Z.leb_le in Hle. rewrite Hle. apply orb_true_r. }
    rewrite Hcond. destruct autofix; [|reflexivity].
    destruct dsize as [d|]; [|reflexivity].
    unfold _fixFieldSize, sized. rewrite Hs.
    destruct (0 <? fsize + d); [|reflexivity].
    destruct (is_field_set field); mrun.
    + destruct (0 <? fsize); simpl.
      * destruct (_truncate fuel (fsize + d) field) as [[?|?|] ?]; reflexivity.
      * destruct (_size self); reflexivity.
    + destruct (_size self); reflexivity.
  - intros d u field' _. apply _truncate_size.
  - intros d fuel' _ -> Hpos Hneg Hcs. apply _truncate_unfed; [exact Hpos|exact Hcs|].
    rewrite Hs. lia.
Qed.

End AddFieldNames3.

Section Replace.
Context {G : Type}.
Implicit Types (self field : Field G) (d : list (string * Field G))
  (log : list (Event G)) (fs : list (Field G)).




Lemma Dict_insert_at (j : nat) key value d :
  (j ≤ length d)%nat → Dict_contains key d = false →
  Dict_insert (Z.of_nat j) key value d = Ok (take j d ++ (key, value) :: drop j d).
Proof.
  intros Hj Hc. unfold Dict_insert. rewrite Hc.
  destruct (Z.ltb_spec (Z.of_nat j) 0); [lia|].
  destruct (Z.leb_spec 0 (Z.of_nat j)); [|lia].
  destruct (Z.leb_spec (Z.of_nat j) (Z.of_nat (length d))); [|lia].
  simpl. rewrite Nat2Z.id. reflexivity.
Qed.

Lemma rename_step field self :
  (if endswith (_name field) "[]" then setUniqueFieldName field else ret field) self
  = (Ok (set_name (unique_name self field) field),
     set_field_array_count (unique_counts self field) self).
Proof.
  unfold unique_name, unique_counts, setUniqueFieldName, next_index, ret.
  destruct (endswith (_name field) "[]"); [reflexivity|].
  destruct self, field; reflexivity.
Qed.


Lemma unique_name_final self field : final_name (unique_name self field) field.
Proof.
  unfold final_name, unique_name. destruct (endswith (_name field) "[]"); eauto.
Qed.

Lemma insert_fields_inv name rest (j : nat) address self log r self' log' :
  (j ≤ length (_fields self))%nat → sized_all rest →
  insert_fields name rest (Z.of_nat j) address (self, log) = (r, (self', log')) →
  ∃ placed,
    _fields self' = take j (_fields self) ++ entries placed ++ drop j (_fields self)
    ∧ log' = log ++ imap (λ n p, field_insered (Z.of_nat j + Z.of_nat n) p) placed
    ∧ Forall2 same_content placed (take (length placed) rest)
    ∧ contiguous address placed (address + extent placed)
    ∧ match r with
      | Ok _ => length placed = length rest
      | Raise e =>
        ∃ g n, rest !! length placed = Some g
               ∧ e = ParserError (ReplaceNameUsed name n)
               ∧ final_name n g
               ∧ Dict_contains n (_fields self') = true
      | Fuel => False
      end.
Proof.
  revert j address self log.
  induction rest as [|field rest IH]; intros j address self log Hj Hsized H.
  - simpl in H. unfold ret in H. injection H as <- <- <-.
    exists []. simpl. rewrite take_drop, app_nil_r.
    repeat split; auto. lia.
  - cbn [insert_fields] in H. unfold bind at 1 in H. unfold on_self at 1 in H.
    cbn [fst snd] in H. rewrite rename_step in H.
    set (self1 := set_field_array_count (unique_counts self field) self) in *.
    set (field1 := set_address address (set_name (unique_name self field) field)) in *.
    unfold bind at 1 in H. unfold on_self at 1, gets in H. cbn [fst snd] in H.
    destruct (Dict_contains (_name field1) (_fields self1)) eqn:Hused.
    + unfold raise in H. injection H as <- <- <-.
      exists []. simpl. rewrite take_drop, app_nil_r.
      split; [reflexivity|]. split; [reflexivity|]. split; [constructor|].
      split; [lia|]. exists field, (_name field1).
      split; [reflexivity|]. split; [reflexivity|]. split; [|exact Hused].
      apply unique_name_final.
    + unfold bind at 1 in H. unfold on_self at 1, update in H. cbn [fst snd] in H.
      rewrite (Dict_insert_at j (_name field1) field1 (_fields self1) Hj Hused) in H.
      cbn [res_bind] in H.
      unfold bind at 1 in H. unfold raiseEvent, modify in H. cbn [fst snd] in H.
      inversion Hsized as [|? ? Hfs Hrest]; subst.
      destruct Hfs as [fsize Hfs].
      unfold bind at 1, lift, sized in H. change (_size field1) with (_size field) in H.
      rewrite Hfs in H.
      replace (Z.of_nat j + 1) with (Z.of_nat (S j)) in H by lia.
      apply IH in H; [|simpl; rewrite length_app; simpl;
                        rewrite length_take, length_drop; lia|exact Hrest].
      destruct H as (placed & Hf & Hl & Hsame & Hchain & Hr).
      exists (field1 :: placed). cbn [_fields set_fields] in Hf.
      change (_fields self1) with (_fields self) in Hf.
      assert (Hlen : length (take j (_fields self)) = j) by (rewrite length_take; lia).
      split.
      { rewrite Hf.
        replace (S j) with (length (take j (_fields self)) + 1)%nat by lia.
        rewrite take_app_add' by reflexivity. rewrite drop_app_add' by reflexivity.
        simpl. rewrite <- app_assoc. reflexivity. }
      split.
      { rewrite Hl. rewrite imap_cons. rewrite <- app_assoc. simpl. f_equal.
        f_equal; [f_equal; lia|].
        apply imap_ext. intros n p _. simpl. f_equal. lia. }
      split.
      { simpl. constructor; [|exact Hsame]. unfold same_content, field1. eauto. }
      split.
      { simpl. split; [reflexivity|]. exists fsize. split; [exact Hfs|].
        change (_size field1) with (_size field). rewrite Hfs. simpl.
        replace (address + (fsize + extent placed))
          with (address + fsize + extent placed) by lia.
        exact Hchain. }
      destruct r as [u|e|]; [simpl; lia| |exact Hr].
      destruct Hr as (g & n & Hg & He & Hfinal & Hin).
      exists g, n. auto.
Qed.

End Replace.

Section Replace2.
Context {G : Type}.
Implicit Types (self field : Field G) (d : list (string * Field G))
  (log : list (Event G)) (fs : list (Field G)).

Lemma Dict_index_Some key d (i : nat) :
  Dict_index key d = Some i →
  ∃ value, d !! i = Some (key, value) ∧ Dict_index key (take i d) = None.
Proof.
  revert i. induction d as [|[k v] d IH]; intros i; simpl; [discriminate|].
  destruct (String.eqb_spec k key) as [->|Hne].
  - intros H. injection H as <-. exists v. split; reflexivity.
  - destruct (Dict_index key d) as [i'|] eqn:E; simpl; [|discriminate].
    intros H. injection H as <-. destruct (IH i' eq_refl) as (value & Hv & Hb).
    exists value. split; [exact Hv|]. simpl.
    destruct (String.eqb_spec k key); [contradiction|]. rewrite Hb. reflexivity.
Qed.

Lemma Dict_index_app_None key d1 d2 :
  Dict_index key d1 = None →
  Dict_index key (d1 ++ d2) = (λ i, length d1 + i)%nat <$> Dict_index key d2.
Proof.
  induction d1 as [|[k v] d1 IH]; simpl.
  - intros _. destruct (Dict_index key d2); reflexivity.
  - destruct (String.eqb k key); [discriminate|].
    destruct (Dict_index key d1) eqn:E; [discriminate|]. intros _.
    rewrite IH by reflexivity. destruct (Dict_index key d2); reflexivity.
Qed.

Lemma Dict_getitem_index key d (i : nat) value :
  Dict_index key d = Some i → d !! i = Some (key, value) → Dict_getitem key d = Ok value.
Proof. intros Hi Hv. unfold Dict_getitem. rewrite Hi, Hv. reflexivity. Qed.

Lemma sum_sizes_extent fs total :
  sum_sizes fs = Ok total → total = extent fs ∧ sized_all fs.
Proof.
  revert total. induction fs as [|f fs IH]; intros total; simpl.
  - intros H. injection H as <-. split; [reflexivity|constructor].
  - unfold sized. destruct (_size f) as [s|] eqn:Hs; simpl; [|discriminate].
    destruct (sum_sizes fs) as [t| |]; simpl; try discriminate.
    intros H. injection H as <-. destruct (IH t eq_refl) as (-> & Hall).
    split; [reflexivity|]. constructor; [eauto|exact Hall].
Qed.

Lemma sum_sizes_error fs e : sum_sizes fs = Raise e → e = TypeError.
Proof.
  induction fs as [|f fs IH]; simpl; [discriminate|].
  unfold sized. destruct (_size f); simpl; [|congruence].
  destruct (sum_sizes fs); simpl; [discriminate| |discriminate].
  intros H. injection H as <-. auto.
Qed.

Lemma sum_sizes_fuel fs : sum_sizes fs = Fuel → False.
Proof.
  induction fs as [|f fs IH]; simpl; [discriminate|].
  unfold sized. destruct (_size f); simpl; [|discriminate].
  destruct (sum_sizes fs); simpl; [discriminate|discriminate|auto].
Qed.

Lemma extent_same_content ps fs :
  Forall2 same_content ps fs → extent ps = extent fs.
Proof.
  induction 1 as [|p f ps fs (n & a & ->) _ IH]; [reflexivity|].
  simpl. rewrite IH. reflexivity.
Qed.

End Replace2.

Section Replace3.
Context {G : Type}.
Implicit Types (self field : Field G) (d : list (string * Field G))
  (log : list (Event G)) (fs : list (Field G)).


Lemma Dict_index_replaced key d (i : nat) value name :
  Dict_index name d = Some i →
  key = name ∨ Dict_contains key d = false →
  Dict_index key (<[i := (key, value)]> d) = Some i.
Proof.
  intros Hi Hkey.
  destruct (Dict_index_Some _ _ _ Hi) as (old & Hold & Hbefore).
  assert (Hlt : (i < length d)%nat) by (eapply lookup_lt_Some; exact Hold).
  rewrite insert_take_drop by exact Hlt.
  assert (Hnone : Dict_index key (take i d) = None).
  { destruct Hkey as [->|Hc]; [exact Hbefore|].
    apply Dict_index_take. unfold Dict_contains in Hc.
    destruct (Dict_index key d); [discriminate|reflexivity]. }
  rewrite Dict_index_app_None by exact Hnone. simpl.
  rewrite String.eqb_refl. simpl. rewrite length_take. f_equal. lia.
Qed.

Lemma replaceField_steps name new_fields self log r self' log' :
  replaceField name new_fields (self, log) = (r, (self', log')) →
  match r with
  | Ok _ => True
  | Raise (ParserError (ReplaceNameUsed _ _)) =>
    ∀ field rest, new_fields = field :: rest → first_ok self name field
  | _ => False
  end →
  ∃ (i : nat) old field rest total,
    Dict_index name (_fields self) = Some i
    ∧ _fields self !! i = Some (name, old)
    ∧ new_fields = field :: rest
    ∧ sum_sizes new_fields = Ok total
    ∧ _size old = Some total
    ∧ first_ok self name field
    ∧ ∃ fsize, _size field = Some fsize ∧
      let first := set_address (_address old) (set_name (unique_name self field) field) in
      insert_fields name rest (Z.of_nat (S i)) (_address old + fsize)
        (set_fields (<[i := (_name first, first)]> (_fields self))
           (set_field_array_count (unique_counts self field) self),
         log ++ [field_replaced old first])
      = (r, (self', log')).
Proof.
  unfold replaceField. intros H Hr.
  unfold bind at 1 in H. unfold on_self at 1, gets in H. cbn [fst snd] in H.
  unfold Dict_contains in H at 1.
  destruct (Dict_index name (_fields self)) as [i|] eqn:Hi; cbn [negb] in H; cycle 1.
  { unfold raise in H. injection H as <- <- <-. destruct Hr. }
  destruct (Dict_index_Some _ _ _ Hi) as (old & Hold & Hbefore).
  destruct new_fields as [|field rest].
  { simpl in H. unfold bind at 1, assert_, raise in H. simpl in H.
    injection H as <- <- <-. destruct Hr. }
  unfold bind at 1 in H. unfold assert_ in H.
  replace (1 <=? length (field :: rest))%nat with true in H by reflexivity.
  unfold ret at 1 in H.
  unfold bind at 1 in H. unfold on_self at 1, call in H. cbn [fst snd] in H.
  rewrite (Dict_getitem_index _ _ _ _ Hi Hold) in H.
  unfold bind at 1, lift in H.
  destruct (sum_sizes (field :: rest)) as [total| |] eqn:Hsum; cycle 1.
  { apply sum_sizes_error in Hsum as ->. injection H as <- <- <-. destruct Hr. }
  { apply sum_sizes_fuel in Hsum as []. }
  unfold bind at 1, lift, sized in H.
  destruct (_size old) as [old_size|] eqn:Hosize; cycle 1.
  { injection H as <- <- <-. destruct Hr. }
  destruct (Z.eqb_spec old_size total) as [->|Hne]; cbn [negb] in H; cycle 1.
  { unfold raise in H. injection H as <- <- <-. destruct Hr. }
  unfold bind at 1 in H. unfold on_self at 1 in H. cbn [fst snd] in H.
  rewrite rename_step in H.
  set (first := set_address (_address old) (set_name (unique_name self field) field)) in *.
  unfold bind at 1 in H. unfold on_self at 1, gets in H. cbn [fst snd] in H.
  change (_name first) with (unique_name self field) in H.
  cbn [_fields set_field_array_count] in H.
  assert (Hfirst : first_ok self name field
                   ∧ negb (String.eqb (unique_name self field) name)
                     && Dict_contains (unique_name self field) (_fields self) = false).
  { destruct (String.eqb_spec (unique_name self field) name) as [Heq|Hneq].
    - split; [left; exact Heq|reflexivity].
    - cbn [negb andb] in H |- *.
      destruct (Dict_contains (unique_name self field) (_fields self)) eqn:Hc.
      + unfold raise in H. injection H as <- <- <-.
        destruct (Hr field rest eq_refl) as [Heq|Hc']; [contradiction|congruence].
      + split; [right; exact Hc|reflexivity]. }
  destruct Hfirst as (Hok & Hcheck). rewrite Hcheck in H.
  unfold bind at 1 in H. unfold on_self at 1, update in H. cbn [fst snd] in H.
  unfold Dict_replace in H. cbn [_fields set_field_array_count] in H.
  rewrite Hi in H. cbn [res_bind] in H.
  unfold bind at 1 in H. unfold raiseEvent, modify in H. cbn [fst snd] in H.
  assert (Hfs : ∃ fsize, _size field = Some fsize).
  { apply sum_sizes_extent in Hsum as (_ & Hall). inversion Hall as [|? ? Hf _]. exact Hf. }
  destruct Hfs as (fsize & Hfs).
  exists i, old, field, rest, total.
  split; [reflexivity|]. split; [exact Hold|]. split; [reflexivity|].
  split; [first [reflexivity|exact Hsum]|]. split; [first [reflexivity|exact Hosize]|].
  split; [exact Hok|].
  exists fsize. split; [exact Hfs|]. cbv zeta. fold first.
  destruct rest as [|field2 rest].
  - simpl in H. simpl. exact H.
  - replace (1 <? length (field :: field2 :: rest))%nat with true in H by reflexivity.
    unfold bind at 1 in H. unfold on_self at 1, call in H. cbn [fst snd] in H.
    cbn [_fields set_fields] in H.
    change (_name first) with (unique_name self field) in H.
    rewrite (Dict_index_replaced (unique_name self field) (_fields self) i first name Hi Hok) in H.
    unfold bind at 1, lift, sized in H. change (_size first) with (_size field) in H.
    rewrite Hfs in H. change (_address first) with (_address old) in H.
    replace (Z.of_nat i + 1) with (Z.of_nat (S i)) in H by lia.
    exact H.
Qed.

End Replace3.

Section Replace4.
Context {G : Type}.
Implicit Types (self field : Field G) (d : list (string * Field G))
  (log : list (Event G)) (fs : list (Field G)).

Lemma replaceField_run name new_fields self log r self' log' :
  replaceField name new_fields (self, log) = (r, (self', log')) →
  match r with
  | Ok _ => True
  | Raise (ParserError (ReplaceNameUsed _ _)) =>
    ∀ field rest, new_fields = field :: rest → first_ok self name field
  | _ => False
  end →
  ∃ (i : nat) old first placed field rest,
    Dict_index name (_fields self) = Some i
    ∧ _fields self !! i = Some (name, old)
    ∧ new_fields = field :: rest
    ∧ same_content first field
    ∧ _address first = _address old
    ∧ Forall2 same_content placed (take (length placed) rest)
    ∧ (∃ old_size, _size old = Some old_size ∧ old_size = extent new_fields)
    ∧ contiguous (_address old) (first :: placed)
                 (_address old + extent (first :: placed))
    ∧ _fields self'
      = take i (_fields self) ++ entries (first :: placed) ++ drop (S i) (_fields self)
    ∧ log' = log ++ field_replaced old first
                 :: imap (λ n p, field_insered (Z.of_nat i + 1 + Z.of_nat n) p) placed
    ∧ match r with
      | Ok _ => length placed = length rest
      | Raise e =>
        ∃ g n, rest !! length placed = Some g
               ∧ e = ParserError (ReplaceNameUsed name n)
               ∧ final_name n g
               ∧ Dict_contains n (_fields self') = true
      | Fuel => False
      end.
Proof.
  intros H Hr.
  destruct (replaceField_steps _ _ _ _ _ _ _ H Hr)
    as (i & old & field & rest & total & Hi & Hold & -> & Hsum & Hosize & Hok
        & fsize & Hfs & Hins).
  cbv zeta in Hins.
  set (first := set_address (_address old) (set_name (unique_name self field) field)) in *.
  assert (Hlt : (i < length (_fields self))%nat) by (eapply lookup_lt_Some; exact Hold).
  destruct (sum_sizes_extent _ _ Hsum) as (Htotal & Hall).
  apply insert_fields_inv in Hins as (placed & Hf & Hl & Hsame & Hchain & Hres).
  - exists i, old, first, placed, field, rest.
    split; [exact Hi|]. split; [exact Hold|]. split; [reflexivity|].
    split; [unfold same_content, first; eauto|]. split; [reflexivity|].
    split; [exact Hsame|]. split; [exists total; split; [exact Hosize|exact Htotal]|].
    split.
    { simpl. split; [reflexivity|]. exists fsize. change (_size first) with (_size field).
      rewrite Hfs. split; [reflexivity|]. simpl.
      replace (_address old + (fsize + extent placed))
        with (_address old + fsize + extent placed) by lia. exact Hchain. }
    split.
    { rewrite Hf. cbn [_fields set_fields set_field_array_count].
      rewrite (take_S_r _ i (_name first, first))
        by (apply list_lookup_insert_eq; exact Hlt).
      rewrite take_insert_ge by lia. rewrite drop_insert_lt by lia.
      rewrite <- app_assoc. reflexivity. }
    split.
    { rewrite Hl. rewrite <- app_assoc. simpl. f_equal. f_equal.
      apply imap_ext. intros n p _. simpl. f_equal. lia. }
    exact Hres.
  - cbn [_fields set_fields set_field_array_count]. rewrite length_insert. lia.
  - inversion Hall; assumption.
Qed.

(** Claim C5.  [replaceField(name, new_fields)] raises [ParserError] when
    no child is named [name], and when the sizes of the new fields (at
    least one) do not add up to the size of the old one; the set and the
    trace of events are then as before.  When it returns, the first new
    field sits at the address of the old one, each other new field starts
    where the one before it ends, they take the place of the old field in
    the dictionary in their order, and the events are [field_replaced] for
    the first and [field_insered], with the index, for each other. *)
Theorem replaceField_spec name new_fields self log :
  (Dict_contains name (_fields self) = false →
   replaceField name new_fields (self, log)
   = (Raise (ParserError (ReplaceNoField name)), (self, log)))
  ∧ (∀ old total old_size,
       Dict_getitem name (_fields self) = Ok old →
       new_fields ≠ [] →
       sum_sizes new_fields = Ok total →
       _size old = Some old_size →
       old_size ≠ total →
       replaceField name new_fields (self, log)
       = (Raise (ParserError (ReplaceSizeMismatch name total old_size)), (self, log)))
  ∧ (∀ self' log',
       replaceField name new_fields (self, log) = (Ok tt, (self', log')) →
       ∃ (i : nat) old first placed,
         Dict_index name (_fields self) = Some i
         ∧ _fields self !! i = Some (name, old)
         ∧ Forall2 same_content (first :: placed) new_fields
         ∧ _address first = _address old
         ∧ (∃ old_size, _size old = Some old_size
                        ∧ contiguous (_address old) (first :: placed)
                                     (_address old + old_size))
         ∧ _fields self'
           = take i (_fields self) ++ entries (first :: placed)
             ++ drop (S i) (_fields self)
         ∧ log' = log ++ field_replaced old first
                      :: imap (λ n p, field_insered (Z.of_nat i + 1 + Z.of_nat n) p)
                              placed).
Proof.
  split; [|split].
  - intros Hc. unfold replaceField, bind, on_self, gets. cbn [fst snd]. rewrite Hc.
    reflexivity.
  - intros old total old_size Hget Hne Hsum Hosize Hdiff.
    unfold replaceField. unfold bind at 1. unfold on_self at 1, gets. cbn [fst snd].
    assert (Hc : Dict_contains name (_fields self) = true).
    { unfold Dict_getitem in Hget. unfold Dict_contains.
      destruct (Dict_index name (_fields self)); [reflexivity|discriminate]. }
    rewrite Hc. cbn [negb].
    destruct new_fields as [|field rest]; [contradiction|].
    unfold bind at 1, assert_.
    replace (1 <=? length (field :: rest))%nat with true by reflexivity. unfold ret at 1.
    unfold bind at 1. unfold on_self at 1, call. cbn [fst snd]. rewrite Hget.
    unfold bind at 1, lift. rewrite Hsum.
    unfold bind at 1, lift, sized. rewrite Hosize.
    destruct (Z.eqb_spec old_size total); [contradiction|]. reflexivity.
  - intros self' log' H.
    destruct (replaceField_run _ _ _ _ _ _ _ H I)
      as (i & old & first & placed & field & rest & Hi & Hold & -> & Hsame1 & Ha
          & Hsame & (old_size & Hosize & Hext) & Hchain & Hf & Hl & Hlen).
    exists i, old, first, placed.
    assert (Hsame' : Forall2 same_content (first :: placed) (field :: rest)).
    { constructor; [exact Hsame1|]. rewrite Hlen in Hsame.
      rewrite firstn_all in Hsame. exact Hsame. }
    split; [exact Hi|]. split; [exact Hold|]. split; [exact Hsame'|].
    split; [exact Ha|]. split; [|split; [exact Hf|exact Hl]].
    exists old_size. split; [exact Hosize|].
    rewrite Hext. rewrite <- (extent_same_content _ _ Hsame'). exact Hchain.
Qed.

(** Claim C9.  When [replaceField] raises because the final name [n] of a
    new field after the first is in use, the set is left changed: the old
    field is replaced by the first new field, the new fields before the
    offending one are inserted after it, and their events are logged. *)
Theorem replaceField_not_atomic name field rest self log (n : string) self' log' :
  replaceField name (field :: rest) (self, log)
  = (Raise (ParserError (ReplaceNameUsed name n)), (self', log')) →
  first_ok self name field →
  ∃ (i : nat) old first placed g,
    Dict_index name (_fields self) = Some i
    ∧ _fields self !! i = Some (name, old)
    ∧ same_content first field
    ∧ Forall2 same_content placed (take (length placed) rest)
    ∧ rest !! length placed = Some g
    ∧ final_name n g
    ∧ Dict_contains n (_fields self') = true
    ∧ _fields self'
      = take i (_fields self) ++ entries (first :: placed) ++ drop (S i) (_fields self)
    ∧ _fields self' !! i = Some (_name first, first)
    ∧ log' = log ++ field_replaced old first
                 :: imap (λ n p, field_insered (Z.of_nat i + 1 + Z.of_nat n) p) placed.
Proof.
  intros H Hok.
  destruct (replaceField_run _ _ _ _ _ _ _ H) as
      (i & old & first & placed & field0 & rest0 & Hi & Hold & Heq & Hsame1 & Ha
       & Hsame & _ & _ & Hf & Hl & g & n' & Hg & He & Hfinal & Hin).
  { intros f r Hfr. injection Hfr as <- <-. exact Hok. }
  injection Heq as <- <-. injection He as <-.
  exists i, old, first, placed, g.
  assert (Hlt : (i < length (_fields self))%nat) by (eapply lookup_lt_Some; exact Hold).
  repeat (split; [assumption|]). split; [|exact Hl].
  rewrite Hf. rewrite lookup_app_r by (rewrite length_take; lia).
  rewrite length_take. replace (i - i `min` length (_fields self))%nat with O by lia.
  reflexivity.
Qed.

End Replace4.

(** * What the methods leave unchanged *)

Section Preserves.
Context {G : Type}.
Variable stream : InputStream.
Variable autofix : bool.
Variable next : list (Field G) → Field G → G → GenStep G.
Implicit Types (self field : Field G) (d : list (string * Field G)) (parents : list (Field G)).

(** A relation between the state before and after a method *)
Variable P : Field G → Field G → Prop.
Hypothesis P_refl : ∀ s, P s s.
Hypothesis P_trans : ∀ s1 s2 s3, P s1 s2 → P s2 s3 → P s1 s3.
Hypothesis P_fields : ∀ s v, P s (set_fields v s).
Hypothesis P_current_size : ∀ s v, P s (set_current_size v s).
Hypothesis P_counts : ∀ s v, P s (set_field_array_count v s).
Hypothesis P_generator : ∀ s v, P s (set_field_generator v s).
Hypothesis P_cache : ∀ s v, P s (set_array_cache v s).
Hypothesis P_size : ∀ s v, _size s = None → P s (set_size v s).


Lemma preserves_ret {A} (a : A) : preserves P (ret a).
Proof. intros s r s' H. injection H as _ <-. apply P_refl. Qed.

Lemma preserves_raise {A} e : preserves P (@raise _ A e).
Proof. intros s r s' H. injection H as _ <-. apply P_refl. Qed.

Lemma preserves_lift {A} (x : Res A) : preserves P (lift x).
Proof. intros s r s' H. injection H as _ <-. apply P_refl. Qed.

Lemma preserves_get : preserves P get.
Proof. intros s r s' H. injection H as _ <-. apply P_refl. Qed.

Lemma preserves_gets {A} (f : Field G → A) : preserves P (gets f).
Proof. intros s r s' H. injection H as _ <-. apply P_refl. Qed.

Lemma preserves_call {A} (f : Field G → Res A) : preserves P (call f).
Proof. intros s r s' H. injection H as _ <-. apply P_refl. Qed.

Lemma preserves_assert b : preserves P (assert_ b).
Proof. destruct b; [apply preserves_ret|apply preserves_raise]. Qed.

Lemma preserves_modify (f : Field G → Field G) :
  (∀ s, P s (f s)) → preserves P (modify f).
Proof. intros Hf s r s' H. injection H as _ <-. apply Hf. Qed.

Lemma preserves_update (f : Field G → Res (Field G)) :
  (∀ s s', f s = Ok s' → P s s') → preserves P (update f).
Proof.
  intros Hf s r s' H. unfold update in H.
  destruct (f s) as [s1| |] eqn:E; injection H as _ <-; auto.
Qed.

Lemma preserves_bind {A B} (m : M (Field G) A) (f : A → M (Field G) B) :
  preserves P m → (∀ a, preserves P (f a)) → preserves P (bind m f).
Proof.
  intros Hm Hf s r s' H. unfold bind in H.
  destruct (m s) as [[a|e|] s1] eqn:E.
  - eapply P_trans; [eapply Hm; exact E|eapply Hf; exact H].
  - injection H as _ <-. eapply Hm; exact E.
  - injection H as _ <-. eapply Hm; exact E.
Qed.

Lemma preserves_fields_append field : preserves P (fields_append field).
Proof.
  apply preserves_update. intros s s'.
  destruct (Dict_append _ _ _); simpl; intros H; try discriminate.
  injection H as <-. apply P_fields.
Qed.

Lemma preserves_fields_delitem index : preserves P (fields_delitem index).
Proof.
  apply preserves_update. intros s s'.
  destruct (Dict_delitem _ _); simpl; intros H; try discriminate.
  injection H as <-. apply P_fields.
Qed.

Lemma preserves_setUniqueFieldName field : preserves P (setUniqueFieldName field).
Proof. intros s r s' H. injection H as _ <-. apply P_counts. Qed.

Create HintDb pres.
Local Hint Resolve preserves_ret preserves_raise preserves_lift preserves_get
  preserves_gets preserves_call preserves_assert preserves_fields_append
  preserves_fields_delitem preserves_setUniqueFieldName : pres.

Ltac pres :=
  repeat first
    [ solve [auto with pres]
    | apply preserves_bind; [|intros]
    | apply preserves_modify; intros
    | match goal with
      | |- preserves P (if ?b then _ else _) => destruct b
      | |- preserves P (match ?x with _ => _ end) => destruct x
      | |- preserves P (let '(_, _) := ?x in _) => destruct x
      end ].

Lemma preserves_deleteField index : preserves P (_deleteField index).
Proof. unfold _deleteField. pres. Qed.

Lemma preserves_delete_too_large size n : preserves P (delete_too_large size n).
Proof.
  induction n as [|n IH]; simpl; pres; auto.
Qed.
Local Hint Resolve preserves_delete_too_large : pres.

Lemma preserves_fixLastField : preserves P _fixLastField.
Proof. unfold _fixLastField. pres. Qed.


Lemma from_preserves {A} (m : M (Field G) A) s : preserves P m → preserves_from P s m.
Proof. intros H r s'. apply H. Qed.

Lemma from_bind {A B} (m : M (Field G) A) (f : A → M (Field G) B) s :
  preserves_from P s m → (∀ a, preserves P (f a)) → preserves_from P s (bind m f).
Proof.
  intros Hm Hf r s' H. unfold bind in H.
  destruct (m s) as [[a|e|] s1] eqn:E.
  - eapply P_trans; [eapply Hm; exact E|eapply Hf; exact H].
  - injection H as _ <-. eapply Hm; exact E.
  - injection H as _ <-. eapply Hm; exact E.
Qed.
Local Hint Resolve preserves_fixLastField : pres.

Lemma preserves_bind_get {A} (f : Field G → M (Field G) A) :
  (∀ self, preserves_from P self (f self)) → preserves P (bind get f).
Proof. intros Hf s r s' H. apply (Hf s r s'). exact H. Qed.

Lemma preserves_stopFeeding parents : preserves P (_stopFeeding autofix parents).
Proof.
  unfold _stopFeeding. apply preserves_bind_get. intros self.
  apply from_bind; [|intros; pres].
  destruct (_size self) eqn:Hs.
  - apply from_preserves. pres.
  - apply from_bind; [|intros; pres]. destruct (has_parent parents).
    + intros r s' H. injection H as _ <-. apply P_size. exact Hs.
    + apply from_preserves. pres.
Qed.
Local Hint Resolve preserves_stopFeeding : pres.

Lemma preserves_fixFeedError : preserves P (_fixFeedError autofix).
Proof. unfold _fixFeedError. pres. Qed.

Lemma preserves_feed_except parents err : preserves P (feed_except autofix parents err).
Proof.
  unfold feed_except. pres.
Qed.
Local Hint Resolve preserves_feed_except : pres.

Lemma preserves_gen_next parents : preserves P (gen_next next parents).
Proof.
  intros s r s' H. unfold gen_next in H.
  destruct (_field_generator s) as [[g|]|]; try (injection H as _ <-; apply P_refl).
  destruct (next parents s g); injection H as _ <-; auto.
Qed.
Local Hint Resolve preserves_gen_next : pres.

Lemma preserves_prepare_field field : preserves P (prepare_field field).
Proof. unfold prepare_field. pres. Qed.

Lemma preserves_append_field field : preserves P (append_field field).
Proof. unfold append_field. pres. Qed.

Lemma preserves_fixFieldSize fuel field new_size :
  preserves P (_fixFieldSize fuel field new_size).
Proof.
  unfold _fixFieldSize. destruct (0 <? new_size); [|pres].
  apply preserves_bind; [pres|]. intros [|].
  - intros s r s' H. destruct (_truncate fuel new_size field) as [[?|?|] ?];
      injection H as _ <-; apply P_refl.
  - apply preserves_bind_get. intros self.
    apply from_bind; [|intros; pres].
    destruct (_size self) eqn:Hs; [apply from_preserves; pres|].
    intros r s' H. injection H as _ <-. apply P_size. exact Hs.
Qed.
Local Hint Resolve preserves_fixFieldSize : pres.

Lemma preserves_check_place fuel parents field :
  preserves P (check_place stream autofix fuel parents field).
Proof. unfold check_place. pres. Qed.

Lemma preserves_addField fuel feed parents field :
  preserves P (_addField stream autofix fuel feed parents field).
Proof.
  unfold _addField. pres.
Qed.
Local Hint Resolve preserves_addField : pres.

Lemma _feedAll_S fuel parents self :
  _feedAll stream autofix next (S fuel) parents self
  = match _field_generator self with
    | None => (Ok tt, self)
    | Some _ =>
      match feed_forever stream autofix next fuel parents self with
      | (Raise err, self) => (feed_except autofix parents err ;;; ret tt) self
      | r => r
      end
    end.
Proof. reflexivity. Qed.

Lemma feed_forever_S fuel parents :
  feed_forever stream autofix next (S fuel) parents
  = (field <- gen_next next parents ;;
     _addField stream autofix fuel (_feedAll stream autofix next fuel) parents field ;;;
     feed_forever stream autofix next fuel parents).
Proof. reflexivity. Qed.

Lemma preserves_feed fuel :
  (∀ parents, preserves P (_feedAll stream autofix next fuel parents))
  ∧ (∀ parents, preserves P (feed_forever stream autofix next fuel parents)).
Proof.
  induction fuel as [|fuel [IH1 IH2]]; (split; intros parents); [simpl; pres..| |].
  - intros s r s' H. rewrite _feedAll_S in H.
    destruct (_field_generator s); [|injection H as _ <-; apply P_refl].
    destruct (feed_forever stream autofix next fuel parents s) as [[u|e|] s1] eqn:E.
    + injection H as _ <-. eapply IH2; exact E.
    + eapply P_trans; [eapply IH2; exact E|].
      revert H. apply (preserves_bind (feed_except autofix parents e) (λ _, ret tt)).
      * apply preserves_feed_except.
      * intros; pres.
    + injection H as _ <-. eapply IH2; exact E.
  - rewrite feed_forever_S. pres.
Qed.

Lemma preserves_read_fields fuel parents number added s r added' s' :
  read_fields stream autofix next fuel parents number added s = (r, (added', s')) →
  P s s'.
Proof.
  revert added s. induction number as [|number IH]; intros added s; simpl.
  - intros H. injection H as _ _ <-. apply P_refl.
  - destruct (bind _ _ s) as [[f|e|] s1] eqn:E.
    + intros H. apply IH in H. eapply P_trans; [|exact H].
      revert E. apply preserves_bind; [apply preserves_gen_next|].
      intros; apply preserves_addField.
    + intros H. injection H as _ _ <-.
      revert E. apply preserves_bind; [apply preserves_gen_next|].
      intros; apply preserves_addField.
    + intros H. injection H as _ _ <-.
      revert E. apply preserves_bind; [apply preserves_gen_next|].
      intros; apply preserves_addField.
Qed.

Lemma preserves_readMoreFields fuel parents number :
  preserves P (readMoreFields stream autofix next fuel parents number).
Proof.
  intros s r s' H. unfold readMoreFields in H.
  destruct (_field_generator s); [|injection H as _ <-; apply P_refl].
  destruct (read_fields _ _ _ _ _ _ _ s) as [[u|e|] [added s1]] eqn:E;
    apply preserves_read_fields in E.
  - injection H as _ <-. exact E.
  - eapply P_trans; [exact E|]. revert H.
    apply preserves_bind; [apply preserves_feed_except|intros; pres].
  - injection H as _ <-. exact E.
Qed.
Local Hint Resolve preserves_readMoreFields : pres.

End Preserves.

Section Statics.
Context {G : Type}.
Variable stream : InputStream.
Variable autofix : bool.
Variable next : list (Field G) → Field G → G → GenStep G.
Implicit Types (self field : Field G) (parents : list (Field G)).




Lemma readMoreFields_static fuel parents number self r self' :
  readMoreFields stream autofix next fuel parents number self = (r, self') →
  same_static self self'.
Proof.
  apply (preserves_readMoreFields stream autofix next same_static);
    unfold same_static; try reflexivity; intros; congruence.
Qed.

Lemma readMoreFields_size_kept fuel parents number self r self' :
  readMoreFields stream autofix next fuel parents number self = (r, self') →
  size_kept self self'.
Proof.
  apply (preserves_readMoreFields stream autofix next size_kept);
    unfold size_kept; try (intros; simpl; auto; fail).
  intros s v Hs z Hz. congruence.
Qed.

Lemma reset_cleared self r self' :
  reset self = (r, self') →
  same_static self self' ∧ _size self' = _size self ∧ _fields self' = []
  ∧ (r = Ok tt → _field_array_count self' = ∅ ∧ _current_size self' = 0
                 ∧ _array_cache self' = []
                 ∧ ∃ g, createFields self = Some g
                        ∧ _field_generator self' = Some (Suspended g)).
Proof.
  unfold reset. mrun. destruct (createFields self) as [g|] eqn:Hg;
    intros H; injection H as <- <-.
  - split; [reflexivity|]. split; [reflexivity|]. split; [reflexivity|].
    intros _. split; [reflexivity|]. split; [reflexivity|]. split; [reflexivity|].
    exists g. split; reflexivity.
  - split; [reflexivity|]. split; [reflexivity|]. split; [reflexivity|]. discriminate.
Qed.

Lemma reset_determined self1 self2 :
  static self1 = static self2 → _size self1 = _size self2 →
  ∀ u s, reset self1 = (Ok u, s) → reset self2 = (Ok u, s).
Proof.
  unfold static, reset. intros Hst Hsz u s.
  destruct self1 as [c1 b1 e1 n1 a1 z1 d1 f1 cs1 cnt1 ac1 g1 cf1].
  destruct self2 as [c2 b2 e2 n2 a2 z2 d2 f2 cs2 cnt2 ac2 g2 cf2].
  simpl in *. simplify_eq. mrun.
  destruct cf2; intros H; [exact H|discriminate].
Qed.

End Statics.

(** * The float fields *)

(** Claim C7.  The bytes c0 00 00 00 00 00 00 00 read as a big-endian
    [Float64]: the field has 64 bits and the value -2.0; fed to its end it
    has the children "negative", "exponent" and "mantissa", of 1, 11 and 52
    bits, whose values are 1 (true), the biased exponent 1024 and the
    mantissa 0. *)
Theorem Float64_minus_two (autofix : bool) :
  let stream := float64_stream in
  let root := root_set BIG_ENDIAN stream in
  let next := createFields_next stream autofix 1 in
  ∃ x x', Float64 root "value" None = Ok x ∧ _size x = Some 64
   ∧ (Float_createValue stream autofix next 1 [root] x).1 = Ok (VFloat (-2)%float)
   ∧ _feedAll stream autofix next 5 [root] x = (Ok tt, x')
   ∧ layout x' = [("negative", 0, Some 1); ("exponent", 1, Some 11); ("mantissa", 12, Some 52)]
   ∧ _field_generator x' = None
   ∧ res_bind (child_value stream [root] x' "negative") py_int = Ok 1
   ∧ res_bind (Dict_getitem "exponent" (_fields x')) (FloatExponent_raw stream [x'; root])
     = Ok 1024
   ∧ res_bind (Dict_getitem "mantissa" (_fields x')) (FloatMantissa_raw stream [x'; root])
     = Ok 0.
Proof.
  intros stream root next.
  eexists. exists (state_after (_feedAll stream autofix next 5 [root])
                               (mkField (Float (Some ">d")) true BIG_ENDIAN "value" 0 (Some 64)
                                        None [] 0 ∅ [] (Some (Suspended (FloatFields 52 11 0)))
                                        (Some (FloatFields 52 11 0)))).
  split; [reflexivity|].
  destruct autofix; vm_compute; repeat split; reflexivity.
Qed.

Section Float80.

Variable stream : InputStream.
Variable autofix : bool.
Variable n : nat.
Variables (parent : Field Producer) (parents : list (Field Producer)) (name : string).

Lemma Float80_init : Float80 parent name None = Ok (Float80_new parent name).
Proof. reflexivity. Qed.

Lemma Float80_getitem_mantissa fuel :
  getitem stream autofix (createFields_next stream autofix (S n)) (4 + fuel)
          (parent :: parents) "mantissa" (Float80_new parent name)
  = (Ok (Float80_leaf (endian parent) FloatMantissa "mantissa" 17 63),
     Float80_fed parent name (Some (Suspended (FloatFields 64 15 4)))).
Proof. destruct autofix; reflexivity. Qed.

Lemma Float80_feedAll fuel :
  _feedAll stream autofix (createFields_next stream autofix (S n)) (6 + fuel)
           (parent :: parents) (Float80_new parent name)
  = (Ok tt, Float80_fed parent name None).
Proof. destruct autofix; reflexivity. Qed.

End Float80.

Section Addresses.

Context {G : Type}.
Implicit Types (ps : list (Field G)) (x c : Field G).

Lemma fold_left_addresses ps (a b : Z) :
  fold_left (λ acc p, acc + _address p) ps (a + b)
  = a + fold_left (λ acc p, acc + _address p) ps b.
Proof.
  revert b. induction ps as [|p ps IH]; intros b; simpl; [reflexivity|].
  rewrite <- Z.add_assoc. apply IH.
Qed.

Lemma absolute_address_child ps x c :
  absolute_address (x :: ps) c = _address c + absolute_address ps x.
Proof. unfold absolute_address. simpl. apply fold_left_addresses. Qed.

Lemma bits_value_ext (s s' : InputStream) (e : Endian) (a : Z) (k : nat) :
  (∀ i, a ≤ i < a + Z.of_nat k → stream_bit s e i = stream_bit s' e i) →
  bits_value s e a k = bits_value s' e a k.
Proof.
  revert a. induction k as [|k IH]; intros a H; [reflexivity|].
  cbn [bits_value]. rewrite (H a) by lia. rewrite (IH (a + 1)); [reflexivity|].
  intros i Hi. apply H. lia.
Qed.

Lemma readBits_in_range (s : InputStream) (a nbits : Z) (e : Endian) :
  0 ≤ a → 0 ≤ nbits → a + nbits ≤ stream_bits s →
  readBits s a nbits e = Ok (bits_value s e a (Z.to_nat nbits)).
Proof.
  intros Ha Hn Hs. unfold readBits.
  destruct (Z.ltb_spec a 0); [lia|]. destruct (Z.ltb_spec nbits 0); [lia|].
  destruct (Z.ltb_spec (stream_bits s) (a + nbits)); [lia|]. reflexivity.
Qed.

End Addresses.

Section Float80Value.

Variable stream : InputStream.
Variable autofix : bool.
Variable n : nat.
Variables (parent : Field Producer) (parents : list (Field Producer)) (name : string).

Lemma Float80_createValue fuel :
  let x := Float80_new parent name in
  let a := absolute_address (parent :: parents) x in
  let s := bits_value stream (endian parent) a 1 in
  let e := bits_value stream (endian parent) (a + 1) 15 in
  let m := bits_value stream (endian parent) (a + 17) 63 in
  0 ≤ a → a + 80 ≤ stream_bits stream →
  Float_createValue stream autofix (createFields_next stream autofix (S n)) (4 + fuel)
                    (parent :: parents) x
  = (res_bind (float_times_pow2 (1 + py_float m / py_float (2 ^ 63)) (e - 16383))
              (λ value, Ok (VFloat (if s =? 1 then (- value)%float else value))),
     Float80_fed parent name (Some (Suspended (FloatFields 64 15 4)))).
Proof.
  intros x a s e m Ha Hb.
  set (fed := Float80_fed parent name (Some (Suspended (FloatFields 64 15 4)))).
  assert (Hm : FloatMantissa_createValue stream (fed :: parent :: parents)
                 (Float80_leaf (endian parent) FloatMantissa "mantissa" 17 63)
               = Ok (1 + py_float m / py_float (2 ^ 63))%float).
  { unfold FloatMantissa_createValue, Bits_createValue, sized. cbn [_size Float80_leaf res_bind].
    rewrite absolute_address_child. cbn [_address Float80_leaf].
    change (absolute_address (parent :: parents) fed) with a.
    rewrite readBits_in_range by lia. rewrite (Z.add_comm 17 a). reflexivity. }
  assert (He : FloatExponent_createValue stream (fed :: parent :: parents)
                 (Float80_leaf (endian parent) FloatExponent "exponent" 1 15)
               = Ok (e - 16383)).
  { unfold FloatExponent_createValue, Bits_createValue, sized. cbn [_size Float80_leaf res_bind].
    rewrite absolute_address_child. cbn [_address Float80_leaf].
    change (absolute_address (parent :: parents) fed) with a.
    rewrite readBits_in_range by lia. rewrite (Z.add_comm 1 a). reflexivity. }
  assert (Hs : createValue stream (fed :: parent :: parents)
                 (Float80_leaf (endian parent) Bit "negative" 0 1)
               = Ok (VBool (s =? 1))).
  { unfold createValue, Bits_createValue, sized. cbn [cls _size Float80_leaf res_bind].
    rewrite absolute_address_child. cbn [_address Float80_leaf].
    change (absolute_address (parent :: parents) fed) with a.
    rewrite readBits_in_range by lia. rewrite Z.add_0_l. reflexivity. }
  unfold Float_createValue. unfold bind at 1. unfold get at 1.
  cbn [cls x Float80_new].
  rewrite (bind_ok _ _ _ _ _ (Float80_getitem_mantissa stream autofix n parent parents name fuel)).
  fold fed. cbn [call bind]. rewrite Hm. cbn [bind].
  assert (Hge : getitem stream autofix (createFields_next stream autofix (S n)) (4 + fuel)
                  (parent :: parents) "exponent" fed
                = (Ok (Float80_leaf (endian parent) FloatExponent "exponent" 1 15), fed))
    by reflexivity.
  assert (Hgn : getitem stream autofix (createFields_next stream autofix (S n)) (4 + fuel)
                  (parent :: parents) "negative" fed
                = (Ok (Float80_leaf (endian parent) Bit "negative" 0 1), fed))
    by reflexivity.
  rewrite (bind_ok _ _ _ _ _ Hge). unfold call at 1. unfold bind at 1. rewrite He.
  unfold lift at 1. unfold bind at 1.
  destruct (float_times_pow2 _ _) as [value| |]; cbn [res_bind]; try reflexivity.
  rewrite (bind_ok _ _ _ _ _ Hgn). unfold call at 1. unfold bind at 1. rewrite Hs.
  destruct (s =? 1); reflexivity.
Qed.

End Float80Value.

(** Claim C10.  A [Float80] whose 80 bits are in the stream: fed to its
    end it has exactly the children "negative" (1 bit), "exponent" (15),
    "one" (1) and "mantissa" (63), at the bits 0, 1, 16 and 17.  Its value
    is [(1 + m / 2^63) * 2^(e - 16383)] in Python's float arithmetic, [m]
    and [e] the raw mantissa and exponent, negated when the sign bit is 1
    ([OverflowError] when the power is too large for a float); the bit of
    "one" has no part in it: a stream that differs in that bit only gives
    the same value. *)
Theorem Float80_fields_and_value (stream : InputStream) (autofix : bool) (n fuel : nat)
    (parent : Field Producer) (parents : list (Field Producer)) (name : string) :
  let x := Float80_new parent name in
  let a := absolute_address (parent :: parents) x in
  let s := bits_value stream (endian parent) a 1 in
  let e := bits_value stream (endian parent) (a + 1) 15 in
  let m := bits_value stream (endian parent) (a + 17) 63 in
  0 ≤ a → a + 80 ≤ stream_bits stream →
  Float80 parent name None = Ok x
  ∧ (∃ x', _feedAll stream autofix (createFields_next stream autofix (S n)) (6 + fuel)
                    (parent :: parents) x = (Ok tt, x')
           ∧ field_summary (_fields x')
             = [("negative", Bit, 0, Some 1); ("exponent", FloatExponent, 1, Some 15);
                ("one", Bit, 16, Some 1); ("mantissa", FloatMantissa, 17, Some 63)]
           ∧ _field_generator x' = None ∧ _current_size x' = 80)
  ∧ (Float_createValue stream autofix (createFields_next stream autofix (S n)) (4 + fuel)
                       (parent :: parents) x).1
    = res_bind (float_times_pow2 (1 + py_float m / py_float (2 ^ 63)) (e - 16383))
               (λ value, Ok (VFloat (if s =? 1 then (- value)%float else value)))
  ∧ (∀ stream' : InputStream,
       stream_bits stream' = stream_bits stream →
       (∀ k, k ≠ a + 16 →
             stream_bit stream' (endian parent) k = stream_bit stream (endian parent) k) →
       (Float_createValue stream' autofix (createFields_next stream' autofix (S n)) (4 + fuel)
                          (parent :: parents) x).1
       = (Float_createValue stream autofix (createFields_next stream autofix (S n)) (4 + fuel)
                            (parent :: parents) x).1).
Proof.
  intros x a s e m Ha Hb. subst s e m. split; [reflexivity|]. split; [|split].
  - exists (Float80_fed parent name None). split; [apply Float80_feedAll|].
    repeat split; reflexivity.
  - unfold x. rewrite Float80_createValue by assumption. reflexivity.
  - intros stream' Hbits Hsame.
    assert (Hb' : a + 80 ≤ stream_bits stream') by (rewrite Hbits; exact Hb).
    unfold x.
    rewrite (Float80_createValue stream' autofix n parent parents name fuel Ha Hb').
    rewrite (Float80_createValue stream autofix n parent parents name fuel Ha Hb).
    cbn [fst]. fold x. fold a.
    rewrite (bits_value_ext stream' stream (endian parent) a 1)
      by (intros i Hi; change (Z.of_nat 1) with 1 in Hi; apply Hsame; lia).
    rewrite (bits_value_ext stream' stream (endian parent) (a + 1) 15)
      by (intros i Hi; change (Z.of_nat 15) with 15 in Hi; apply Hsame; lia).
    rewrite (bits_value_ext stream' stream (endian parent) (a + 17) 63)
      by (intros i Hi; change (Z.of_nat 63) with 63 in Hi; apply Hsame; lia).
    reflexivity.
Qed.

Lemma Float80_fields_and_value_witness :
  (Float_createValue float80_stream true (createFields_next float80_stream true 1) 4
                     [root_set BIG_ENDIAN float80_stream]
                     (Float80_new (root_set BIG_ENDIAN float80_stream) "x")).1
  = Ok (VFloat (-2)%float).
Proof.
  assert (H1 : 0 ≤ absolute_address [root_set BIG_ENDIAN float80_stream]
                     (Float80_new (root_set BIG_ENDIAN float80_stream) "x"))
    by (vm_compute; discriminate).
  assert (H2 : absolute_address [root_set BIG_ENDIAN float80_stream]
                     (Float80_new (root_set BIG_ENDIAN float80_stream) "x") + 80
               ≤ stream_bits float80_stream) by (vm_compute; discriminate).
  destruct (Float80_fields_and_value float80_stream true 0 0
              (root_set BIG_ENDIAN float80_stream) [] "x" H1 H2) as (_ & _ & Hv & _).
  refine (eq_trans Hv _). vm_compute. reflexivity.
Defined.

(** * The JPEG walk *)

(** Claim C8, as amended.  On a stream that begins FF D8 FF E0 00 10 "JFIF\0"
    01 01 00 00 01 00 01 00 00 FF DB, the first three children of the
    parser are chunks named "soi", "app0" and "dqt[0]" (the constructor of
    a chunk names it after its tag); their "type" fields are 0xD8, 0xE0 and
    0xDB, and the content of the second one has a field "jfif" whose value
    is "JFIF\0". *)
Theorem jpeg_first_chunks (autofix : bool) :
  ∃ root root' soi app0 dqt content jfif content',
    JpegFile jpeg_stream = Ok root
    ∧ readFirstFields jpeg_stream autofix (createFields_next jpeg_stream autofix 8) 8 [] 3 root
      = (Ok (Some 3), root')
    ∧ _fields root' = [("soi", soi); ("app0", app0); ("dqt[0]", dqt)]
    ∧ int_value jpeg_stream [root'] soi "type" = Ok 0xD8
    ∧ int_value jpeg_stream [root'] app0 "type" = Ok 0xE0
    ∧ int_value jpeg_stream [root'] dqt "type" = Ok 0xDB
    ∧ Dict_getitem "content" (_fields app0) = Ok content
    ∧ getitem jpeg_stream autofix (createFields_next jpeg_stream autofix 8) 8 [app0; root']
              "jfif" content = (Ok jfif, content')
    ∧ createValue jpeg_stream [content'; app0; root'] jfif = Ok (VStr JFIF0).
Proof.
  destruct autofix.
  all: do 8 eexists.
  all: split; [reflexivity|].
  all: split; [vm_compute; reflexivity|].
  all: split; [reflexivity|].
  all: split; [vm_compute; reflexivity|].
  all: split; [vm_compute; reflexivity|].
  all: split; [vm_compute; reflexivity|].
  all: split; [vm_compute; reflexivity|].
  all: split; [vm_compute; reflexivity|].
  all: vm_compute; reflexivity.
Qed.

(** No child of the parser is named "chunk[0]", "chunk[1]" or "chunk[2]"
    once the three chunks are read. *)
Lemma jpeg_no_chunk_names :
  ∃ root root',
    JpegFile jpeg_stream = Ok root
    ∧ readFirstFields jpeg_stream true (createFields_next jpeg_stream true 8) 8 [] 3 root
      = (Ok (Some 3), root')
    ∧ names root' = ["soi"; "app0"; "dqt[0]"]
    ∧ Dict_contains "chunk[0]" (_fields root') = false
    ∧ Dict_contains "chunk[1]" (_fields root') = false
    ∧ Dict_contains "chunk[2]" (_fields root') = false
    ∧ (_getField jpeg_stream true (createFields_next jpeg_stream true 8) 8 [] "chunk[0]"
                 false root').1 = Ok None.
Proof.
  do 2 eexists.
  split; [reflexivity|].
  split; [vm_compute; reflexivity|].
  vm_compute; repeat split; reflexivity.
Qed.

(** * The concrete cases of the driver *)

(** Claim C1.  The contiguity of the children does not survive a name that
    is taken twice: on a set of 32 bits whose producer yields leaves of 8
    bits named "a[0]", "a" and "a", the third leaf is counted in the
    current size and then fails to be appended, and the repair adds
    "raw[]" at bit 24: the children end at bit 16 and resume at bit 24. *)
Theorem addField_hole :
  readMoreFields script_stream true script_next 4 [] 3 hole_set
  = (Ok 3, script_read true [] 3 hole_set)
  ∧ layout (script_read true [] 3 hole_set)
    = [("a[0]", 0, Some 8); ("a", 8, Some 8); ("raw[]", 24, Some 8)]
  ∧ _current_size (script_read true [] 3 hole_set) = 32
  ∧ ¬ Contiguous (script_read true [] 3 hole_set).
Proof.
  split; [vm_compute; reflexivity|]. split; [vm_compute; reflexivity|].
  split; [vm_compute; reflexivity|].
  unfold Contiguous, children.
  replace ((_fields (script_read true [] 3 hole_set)).*2)
    with [new_leaf Bits (script_set "root" (Some 32) []) "a[0]" 8;
          set_address 8 (new_leaf Bits (script_set "root" (Some 32) []) "a" 8);
          set_address 24 (new_leaf RawBytes (script_set "root" (Some 32) []) "raw[]" 8)]
    by (vm_compute; reflexivity).
  cbn [contiguous]. intros (_ & s1 & H1 & _ & s2 & H2 & H3 & _).
  cbn in H1, H2, H3. injection H1 as <-. injection H2 as <-. discriminate H3.
Qed.

Lemma stopFeeding_seals_witness :
  _current_size (state_after (_stopFeeding true []) slack_set) = 32
  ∧ _field_generator (state_after (_stopFeeding true []) slack_set) = None.
Proof.
  assert (Hc : Contiguous slack_set).
  { unfold Contiguous, children. vm_compute. split; [reflexivity|].
    exists 8. split; reflexivity. }
  assert (Hraw : Dict_contains "raw[]" (_fields slack_set) = false) by (vm_compute; reflexivity).
  assert (Hpos : ∀ size, _size slack_set = Some size → 0 ≤ size).
  { intros size H. vm_compute in H. injection H as <-. lia. }
  eapply (proj2 (stopFeeding_seals true [] slack_set Hc Hraw Hpos) _
                (state_after (_stopFeeding true []) slack_set) 32).
  - vm_compute. reflexivity.
  - vm_compute. reflexivity.
Defined.

(** A composite of 8 bits offered to a set that is full is dropped, not
    truncated. *)
Lemma positive_composite_dropped :
  is_field_set (composite_child full_set "b" 8) = true
  ∧ _size (composite_child full_set "b" 8) = Some 8
  ∧ layout full_set = [("a", 0, Some 8)]
  ∧ _checkSize script_stream [] full_set (_current_size full_set + 8) false = Ok (Some (-8))
  ∧ _addField script_stream true 4 (_feedAll script_stream true script_next 4) []
              (composite_child full_set "b" 8) full_set
    = (Raise StopIteration, full_set).
Proof. repeat split; vm_compute; reflexivity. Qed.

(** A composite that turns out to have no bit, offered with auto-fix to a
    set in a tree where no size is known: [field.size + dsize] raises
    [TypeError]; without auto-fix the field is too large. *)
Lemma zero_composite_no_bound :
  _checkSize pipe_stream [] unbounded_set (_current_size unbounded_set + 0) false = Ok None
  ∧ (_addField pipe_stream true 4 (_feedAll pipe_stream true script_next 4) []
               empty_composite unbounded_set).1 = Raise TypeError
  ∧ (_addField pipe_stream false 4 (_feedAll pipe_stream false script_next 4) []
               empty_composite unbounded_set).1
    = Raise (ParserError (FieldTooLarge "b")).
Proof. repeat split; vm_compute; reflexivity. Qed.

Lemma check_place_no_place_witness :
  check_place script_stream true 1 [] (composite_child half_set "b" 16) half_set
  = (Ok (set_size (Some 8) (composite_child half_set "b" 16)), half_set)
  ∧ _truncate 1 8 (composite_child half_set "b" 16)
    = (Ok tt, set_size (Some 8) (composite_child half_set "b" 16)).
Proof.
  assert (H1 : _size (composite_child half_set "b" 16) = Some 16) by reflexivity.
  assert (H2 : _checkSize script_stream [] half_set
                 (_address (composite_child half_set "b" 16) + 16) false = Ok (Some (-8)))
    by (vm_compute; reflexivity).
  assert (H3 : (∃ d : Z, Some (-8) = Some d ∧ d < 0)
               ∨ (is_field_set (composite_child half_set "b" 16) = true ∧ 16 ≤ 0))
    by (left; exists (-8); split; [reflexivity|lia]).
  destruct (check_place_no_place script_stream true 1 [] (composite_child half_set "b" 16)
              half_set 16 (Some (-8)) H1 H2 H3) as (Heq & _ & Hrun).
  split.
  - rewrite Heq. vm_compute. reflexivity.
  - refine (eq_trans (Hrun (-8) 0%nat eq_refl eq_refl _ _ _) _); try lia.
    + vm_compute. discriminate.
    + vm_compute. reflexivity.
Defined.

Lemma addField_unique_names_witness :
  ∃ self',
    _addField script_stream true 1 (_feedAll script_stream true script_next 1) []
              (new_leaf Bits taken_set "a" 8) taken_set
    = (Raise (UniqKeyError "a[0]"), self')
    ∧ _fields self' = _fields taken_set.
Proof.
  assert (Hfit : fits script_stream [] taken_set (new_leaf Bits taken_set "a" 8)).
  { exists 8, (Some 8). split; [reflexivity|]. split; [vm_compute; reflexivity|].
    split; [lia|]. discriminate. }
  exact (proj2 (addField_unique_names script_stream true 1
                  (_feedAll script_stream true script_next 1) []
                  (new_leaf Bits taken_set "a" 8) taken_set Hfit)).
Defined.

Lemma replaceField_spec_witness :
  replaceField "z" [bits_leaf "p" 8; bits_leaf "q" 8] (pair_set, [])
  = (Raise (ParserError (ReplaceNoField "z")), (pair_set, []))
  ∧ replaceField "x" [bits_leaf "p" 8] (pair_set, [])
    = (Raise (ParserError (ReplaceSizeMismatch "x" 8 16)), (pair_set, []))
  ∧ ∃ old first second,
      Dict_getitem "x" (_fields pair_set) = Ok old
      ∧ replaceField "x" [bits_leaf "p" 8; bits_leaf "q" 8] (pair_set, [])
        = (Ok tt, (set_fields (("p", first) :: ("q", second) :: drop 1 (_fields pair_set)) pair_set,
                   [field_replaced old first; field_insered 1 second]))
      ∧ layout (set_fields (("p", first) :: ("q", second) :: drop 1 (_fields pair_set)) pair_set)
        = [("p", 0, Some 8); ("q", 8, Some 8); ("y", 16, Some 8)].
Proof.
  split; [|split].
  - apply (proj1 (replaceField_spec "z" [bits_leaf "p" 8; bits_leaf "q" 8] pair_set [])).
    vm_compute. reflexivity.
  - eapply (proj1 (proj2 (replaceField_spec "x" [bits_leaf "p" 8] pair_set []))).
    + vm_compute. reflexivity.
    + discriminate.
    + reflexivity.
    + reflexivity.
    + discriminate.
  - destruct (proj2 (proj2 (replaceField_spec "x" [bits_leaf "p" 8; bits_leaf "q" 8] pair_set []))
                (replaceField "x" [bits_leaf "p" 8; bits_leaf "q" 8] (pair_set, [])).2.1
                (replaceField "x" [bits_leaf "p" 8; bits_leaf "q" 8] (pair_set, [])).2.2)
      as (i & old & first & placed & Hi & Hold & Hsame & Ha & Hc & Hf & Hlog).
    { vm_compute. reflexivity. }
    do 3 eexists. split; [vm_compute; reflexivity|].
    split; vm_compute; reflexivity.
Defined.

Lemma replaceField_not_atomic_witness :
  ∃ self' log' first,
    replaceField "x" [bits_leaf "p" 8; bits_leaf "y" 8] (pair_set, [])
    = (Raise (ParserError (ReplaceNameUsed "x" "y")), (self', log'))
    ∧ _fields self' !! 0%nat = Some ("p", first)
    ∧ Dict_contains "x" (_fields self') = false
    ∧ length log' = 1%nat.
Proof.
  destruct (replaceField_not_atomic "x" (bits_leaf "p" 8) [bits_leaf "y" 8] pair_set [] "y"
              (replaceField "x" [bits_leaf "p" 8; bits_leaf "y" 8] (pair_set, [])).2.1
              (replaceField "x" [bits_leaf "p" 8; bits_leaf "y" 8] (pair_set, [])).2.2)
    as (i & old & first & placed & g & Hi & Hold & Hsame & Hplaced & Hg & Hfinal & Hused
        & Hfields & Hfirst & Hlog).
  { vm_compute. reflexivity. }
  { right. vm_compute. reflexivity. }
  assert (i = 0%nat) as -> by (vm_compute in Hi; congruence).
  exists (replaceField "x" [bits_leaf "p" 8; bits_leaf "y" 8] (pair_set, [])).2.1,
         (replaceField "x" [bits_leaf "p" 8; bits_leaf "y" 8] (pair_set, [])).2.2, first.
  split; [vm_compute; reflexivity|].
  split.
  - rewrite Hfirst. f_equal. f_equal.
    destruct Hsame as (name & address & ->). vm_compute in Hfirst.
    injection Hfirst as Hn _. simpl. simpl in Hn. congruence.
  - split; vm_compute; reflexivity.
Defined.

(** A producer that reads [self._size] yields "a" on the first run, which
    ends by setting the size, and "b" on the second. *)
Lemma reset_read_differs :
  names (state_after (reset_read [outer_set] 2) inner_set) = ["a"]
  ∧ names (state_after (reset_read [outer_set] 2)
                       (state_after (reset_read [outer_set] 2) inner_set)) = ["b"]
  ∧ _size inner_set = None
  ∧ _size (state_after (reset_read [outer_set] 2) inner_set) = Some 8.
Proof. repeat split; vm_compute; reflexivity. Qed.

(** * More properties of the driver *)

(** ** Deleting and repairing *)

Section Invariants.
Context {G : Type}.
Implicit Types (self field : Field G) (l : list (Field G)) (d : list (string * Field G)).

Lemma py_index_out (len : nat) (i : Z) :
  Z.of_nat len ≤ i ∨ i < - Z.of_nat len → py_index len i = None.
Proof.
  intros H. unfold py_index. cbv zeta.
  destruct (Z.ltb_spec i 0);
    [destruct (Z.leb_spec 0 (i + Z.of_nat len))|destruct (Z.leb_spec 0 i)];
    [destruct (Z.ltb_spec (i + Z.of_nat len) (Z.of_nat len))| |
     destruct (Z.ltb_spec i (Z.of_nat len))|]; simpl; try reflexivity; lia.
Qed.

Lemma Dict_values_at_minus1 d kf : Dict_values_at (-1) (d ++ [kf]) = Ok kf.2.
Proof.
  unfold Dict_values_at. rewrite length_app. simpl length.
  replace (length d + 1)%nat with (S (length d)) by lia.
  rewrite py_index_minus1. rewrite lookup_app_r by lia.
  rewrite Nat.sub_diag. reflexivity.
Qed.

Lemma Dict_delitem_minus1 d kf : Dict_delitem (-1) (d ++ [kf]) = Ok d.
Proof.
  unfold Dict_delitem. rewrite length_app. simpl length.
  replace (length d + 1)%nat with (S (length d)) by lia.
  rewrite py_index_minus1. f_equal.
  rewrite delete_take_drop. rewrite take_app_length.
  rewrite drop_ge; [apply app_nil_r | rewrite length_app; simpl; lia].
Qed.

(** X2.  [_deleteField] on a set whose children are contiguous: with the
    index of the last child, [len - 1] or [-1], it returns that child,
    the current size goes back to the address of the child, and the
    children that remain are contiguous; with an index out of range it
    raises [IndexError] and leaves the set as it was. *)
Theorem deleteField_last_child d k field self :
  _fields self = d ++ [(k, field)] → Contiguous self →
  ∃ size,
    _size field = Some size
    ∧ let self' := set_fields d (set_current_size (_current_size self - size) self) in
      _deleteField (Z.of_nat (length (_fields self)) - 1) self = (Ok field, self')
      ∧ _deleteField (-1) self = (Ok field, self')
      ∧ Contiguous self'
      ∧ _current_size self' = _address field
      ∧ (∀ i, Z.of_nat (length (_fields self)) ≤ i ∨ i < - Z.of_nat (length (_fields self)) →
              _deleteField i self = (Raise IndexError, self)).
Proof.
  intros Hd Hc. destruct (Contiguous_last d k field self Hd Hc) as (size & Hs & Hpre & Hend).
  exists size. split; [exact Hs|]. cbv zeta.
  split; [apply (_deleteField_last d k field size self Hd Hs)|].
  split.
  { unfold _deleteField, bind, call, lift, modify, fields_delitem, update, ret, sized.
    rewrite Hd. rewrite Dict_values_at_minus1. simpl. rewrite Hs. simpl.
    rewrite Hd. rewrite Dict_delitem_minus1. reflexivity. }
  split.
  { unfold Contiguous, children. simpl.
    replace (_current_size self - size) with (_address field) by lia. exact Hpre. }
  split; [simpl; lia|].
  intros i Hi. unfold _deleteField, bind, call, Dict_values_at.
  rewrite (py_index_out _ _ Hi). reflexivity.
Qed.

Lemma contiguous_take a l b (k : nat) :
  contiguous a l b → contiguous a (take k l) (a + extent (take k l)).
Proof.
  revert a k. induction l as [|f l IH]; intros a k H.
  - rewrite take_nil. simpl. lia.
  - destruct k as [|k]; [simpl; lia|]. simpl in H |- *.
    destruct H as (Ha & s & Hs & H). split; [exact Ha|]. exists s. split; [exact Hs|].
    rewrite Hs. simpl. replace (a + (s + extent (take k l))) with (a + s + extent (take k l)) by lia.
    apply IH. exact H.
Qed.

(** X3.  [_fixLastField] on a set of known size whose children are
    contiguous and none of which is named "raw[]": it returns, the
    children are a prefix of the old ones followed by the new field when
    there is one, they are contiguous again, the current size is the size,
    and the generator is cleared; there is no new field exactly when the
    prefix fills the size. *)
Theorem fixLastField_contiguous self size :
  _size self = Some size → Contiguous self → 0 ≤ size →
  Dict_contains "raw[]" (_fields self) = false →
  ∃ new_field self' (k : nat),
    _fixLastField self = (Ok new_field, self')
    ∧ Contiguous self'
    ∧ _current_size self' = size ∧ _size self' = Some size
    ∧ _field_generator self' = None
    ∧ children self' = take k (children self) ++ option_list new_field
    ∧ (new_field = None ↔ extent (take k (children self)) = size).
Proof.
  intros Hsize Hc Hpos Hraw.
  destruct (_fixLastField_spec self size Hsize Hc Hpos Hraw)
    as (k & nf & self' & Hk & Hle & Hbig & Hrun & Hnew).
  destruct (_fixLastField_sealed _ _ _ Hrun) as (sz & H1 & H2 & H3 & H4 & _).
  assert (sz = size) as -> by congruence.
  exists nf, self', k. split; [exact Hrun|].
  pose proof (contiguous_take 0 (children self) _ k Hc) as Htake. simpl in Htake.
  destruct (Z.eqb_spec (extent (take k (children self))) size) as [Heq|Hne].
  - destruct Hnew as (-> & Hf).
    assert (Hch : children self' = take k (children self)).
    { unfold children. rewrite Hf. rewrite fmap_take. reflexivity. }
    split.
    { unfold Contiguous. rewrite Hch, H3, <- Heq. exact Htake. }
    split; [exact H3|]. split; [exact H2|]. split; [exact H4|].
    split; [rewrite Hch; simpl; rewrite app_nil_r; reflexivity|].
    split; [intros _; exact Heq|reflexivity].
  - destruct Hnew as (raw & -> & Hn & Hleaf & Ha & Hs & Hf).
    assert (Hch : children self' = take k (children self) ++ [raw]).
    { unfold children. rewrite Hf. rewrite fmap_app, fmap_take. reflexivity. }
    split.
    { unfold Contiguous. rewrite Hch, H3. apply contiguous_app.
      exists (extent (take k (children self))). split; [exact Htake|].
      simpl. split; [exact Ha|]. eexists. split; [exact Hs|]. lia. }
    split; [exact H3|]. split; [exact H2|]. split; [exact H4|].
    split; [exact Hch|].
    split; [discriminate|intros Heq; contradiction].
Qed.

End Invariants.

(** ** The end of a set *)

Section CheckSize.
Context {G : Type}.
Variable stream : InputStream.
Implicit Types (self field anc : Field G) (below above parents : list (Field G)).


Lemma offset_in_cons p below self :
  offset_in (p :: below) self = _address self + offset_in below p.
Proof. unfold offset_in. simpl. apply fold_left_addresses. Qed.

Lemma _checkSize_sized parents self size strict fsize :
  _size self = Some fsize →
  _checkSize stream parents self size strict = Ok (Some (fsize - size)).
Proof. intros H. destruct parents; simpl; rewrite H; reflexivity. Qed.

Lemma _checkSize_ancestor below anc above self size strict fsize :
  _size self = None → Forall (λ p, _size p = None) below → _size anc = Some fsize →
  _checkSize stream (below ++ anc :: above) self size strict
  = Ok (Some (fsize - (size + offset_in below self))).
Proof.
  revert self size. induction below as [|p below IH]; intros self size Hs Hb Ha.
  - simpl. rewrite Hs. rewrite (_checkSize_sized above anc _ strict fsize Ha).
    unfold offset_in. simpl. reflexivity.
  - simpl. rewrite Hs. apply Forall_cons in Hb as [Hp Hb].
    rewrite (IH p _ Hp Hb Ha). rewrite offset_in_cons. do 2 f_equal. lia.
Qed.

Lemma _checkSize_unsized parents self size :
  _size self = None → Forall (λ p, _size p = None) parents → stream_size stream = None →
  _checkSize stream parents self size false = Ok None.
Proof.
  revert self size. induction parents as [|p parents IH]; intros self size Hs Hp Hn.
  - simpl. rewrite Hs, Hn. reflexivity.
  - simpl. rewrite Hs. apply Forall_cons in Hp as [Hp Hps]. apply IH; assumption.
Qed.

(** X1.  For a set of unknown size under ancestors of unknown size up to
    an ancestor [anc] of known size, [_checkSize] measures against [anc],
    at the offset of the set in it, and [eof] says whether the end of the
    children has reached the size of [anc]; for [anc] itself [eof]
    compares its own current size with its size.  Without any known size
    and with a stream of unknown size, the non-strict check gives [None]:
    no limit. *)
Theorem eof_nearest_sized below anc above self fsize :
  _size self = None → Forall (λ p, _size p = None) below → _size anc = Some fsize →
  (∀ size strict,
     _checkSize stream (below ++ anc :: above) self size strict
     = Ok (Some (fsize - (size + offset_in below self))))
  ∧ eof stream (below ++ anc :: above) self
    = Ok (fsize <=? offset_in below self + _current_size self)
  ∧ eof stream above anc = Ok (fsize <=? _current_size anc)
  ∧ (stream_size stream = None →
     ∀ size, _checkSize stream below self size false = Ok None).
Proof.
  intros Hs Hb Ha. split; [|split; [|split]].
  - intros size strict. apply _checkSize_ancestor; assumption.
  - unfold eof. rewrite (_checkSize_ancestor below anc above self _ true fsize Hs Hb Ha).
    simpl. f_equal.
    destruct (Z.ltb_spec (fsize - (_current_size self + 1 + offset_in below self)) 0),
             (Z.leb_spec fsize (offset_in below self + _current_size self)); try reflexivity; lia.
  - unfold eof. rewrite (_checkSize_sized above anc _ true fsize Ha). simpl. f_equal.
    destruct (Z.ltb_spec (fsize - (_current_size anc + 1)) 0),
             (Z.leb_spec fsize (_current_size anc)); try reflexivity; lia.
  - intros Hn size. apply _checkSize_unsized; assumption.
Qed.

End CheckSize.

Lemma eof_nearest_sized_witness :
  eof script_stream [outer_set] inner_set = Ok false
  ∧ eof script_stream [outer_set] fed_inner = Ok true.
Proof.
  split.
  - refine (eq_trans (proj1 (proj2 (eof_nearest_sized script_stream [] outer_set [] inner_set 16
                                      eq_refl (Forall_nil_2 _) eq_refl))) _).
    vm_compute. reflexivity.
  - assert (H : _size fed_inner = None) by (vm_compute; reflexivity).
    refine (eq_trans (proj1 (proj2 (eof_nearest_sized script_stream [] outer_set [] fed_inner 16
                                      H (Forall_nil_2 _) eq_refl))) _).
    vm_compute. reflexivity.
Defined.

(** ** Adding a field *)

Section AddFieldInvariant.
Context {G : Type}.
Variable stream : InputStream.
Variable autofix : bool.
Implicit Types (self field : Field G) (parents : list (Field G)).

Lemma _addField_fits_result fuel feed parents field self field' self' :
  fits stream parents self field →
  _addField stream autofix fuel feed parents field self = (Ok field', self') →
  children self' = children self ++ [field']
  ∧ _address field' = _current_size self
  ∧ _size field' = _size field
  ∧ (∀ fsize, _size field = Some fsize → _current_size self' = _current_size self + fsize)
  ∧ same_frame self self'.
Proof.
  intros Hfit H.
  rewrite (_addField_fits stream autofix fuel feed parents field self Hfit) in H.
  destruct (prepare_field_spec field self) as (field1 & Hprep & Hn & Ha & Hs & Hfs).
  rewrite (bind_ok _ _ _ _ _ Hprep) in H.
  destruct Hfit as (fsize & dsize & Hsz & _).
  rewrite (append_field_spec field1 _ fsize) in H by congruence.
  cbv zeta in H. cbn [_fields _current_size _field_array_count set_field_array_count] in H.
  assert (Hgoal : ∀ f name counts,
            _address f = _current_size self → _size f = Some fsize →
            let s := set_fields (_fields self ++ [(name, f)])
                       (set_field_array_count counts
                          (set_current_size (_current_size self + fsize)
                             (set_field_array_count (unique_counts self field) self))) in
            children s = children self ++ [f]
            ∧ _address f = _current_size self ∧ _size f = _size field
            ∧ (∀ z, _size field = Some z → _current_size s = _current_size self + z)
            ∧ same_frame self s).
  { intros f name counts Haf Hsf s.
    split; [unfold children, s; simpl; rewrite fmap_app; reflexivity|].
    split; [exact Haf|]. split; [congruence|].
    split; [intros z Hz; simpl; congruence|].
    unfold same_frame, s. simpl. auto. }
  destruct (Dict_contains (_name field1) (_fields self)).
  - destruct (Dict_contains _ (_fields self)); [discriminate|].
    injection H as <- <-.
    apply (Hgoal _ _ (<[_name field1 := _]> (unique_counts self field)));
      [exact Ha|simpl; congruence].
  - injection H as <- <-.
    replace (set_current_size (_current_size self + fsize)
               (set_field_array_count (unique_counts self field) self))
      with (set_field_array_count (unique_counts self field)
              (set_current_size (_current_size self + fsize)
                 (set_field_array_count (unique_counts self field) self)))
      by reflexivity.
    apply Hgoal; [exact Ha|congruence].
Qed.

(** X4.  When [_addField] returns for a field that has its size and fits,
    the field is the new last child, it starts at the old current size,
    the current size has grown by its size, the children are still
    contiguous, and the size, the generator and the name of the set are
    untouched. *)
Theorem addField_keeps_contiguous fuel feed parents field self field' self' :
  fits stream parents self field → Contiguous self →
  _addField stream autofix fuel feed parents field self = (Ok field', self') →
  Contiguous self'
  ∧ children self' = children self ++ [field']
  ∧ _address field' = _current_size self
  ∧ _size field' = _size field
  ∧ (∀ fsize, _size field = Some fsize → _current_size self' = _current_size self + fsize)
  ∧ same_frame self self'.
Proof.
  intros Hfit Hc H.
  destruct (_addField_fits_result fuel feed parents field self field' self' Hfit H)
    as (Hch & Ha & Hs & Hcs & Hframe).
  split; [|auto].
  destruct Hfit as (fsize & dsize & Hsz & _).
  unfold Contiguous. rewrite Hch, (Hcs fsize Hsz). apply contiguous_app.
  exists (_current_size self). split; [exact Hc|]. simpl.
  split; [exact Ha|]. exists fsize. split; [congruence|reflexivity].
Qed.

End AddFieldInvariant.

Lemma addField_keeps_contiguous_witness :
  ∃ field' self',
    _addField script_stream true 1 (_feedAll script_stream true script_next 1) []
              (new_leaf Bits slack_set "b" 8) slack_set = (Ok field', self')
    ∧ Contiguous self' ∧ _current_size self' = 16.
Proof.
  assert (Hfit : fits script_stream [] slack_set (new_leaf Bits slack_set "b" 8)).
  { exists 8, (Some 16). split; [reflexivity|]. split; [vm_compute; reflexivity|].
    split; [lia|]. discriminate. }
  assert (Hc : Contiguous slack_set).
  { unfold Contiguous, children. vm_compute. split; [reflexivity|].
    exists 8. split; reflexivity. }
  do 2 eexists. split; [vm_compute; reflexivity|].
  match goal with
  | |- Contiguous ?s ∧ _ =>
    destruct (addField_keeps_contiguous script_stream true 1
                (_feedAll script_stream true script_next 1) []
                (new_leaf Bits slack_set "b" 8) slack_set
                (new_leaf Bits slack_set "b" 8) s Hfit Hc) as (H1 & _ & _ & _ & H5 & _)
  end.
  { vm_compute. reflexivity. }
  split; [exact H1|]. rewrite (H5 8 eq_refl). vm_compute. reflexivity.
Defined.

(** ** Feeding to the end *)

Section FeedAll.
Context {G : Type}.
Variable stream : InputStream.
Variable autofix : bool.
Variable next : list (Field G) → Field G → G → GenStep G.
Implicit Types (self field : Field G) (parents : list (Field G)).

Lemma feed_forever_never_returns fuel parents self u self' :
  feed_forever stream autofix next fuel parents self = (Ok u, self') → False.
Proof.
  revert self. induction fuel as [|fuel IH]; intros self H; [discriminate|].
  rewrite feed_forever_S in H.
  mbind H as field s1 Hnext. mbind H as f2 s2 Hadd. eapply IH. exact H.
Qed.

Lemma _stopFeeding_done parents self r self' :
  _stopFeeding autofix parents self = (Ok r, self') → _field_generator self' = None.
Proof.
  unfold _stopFeeding. intros H. mred H.
  mbind H as nf s1 Hnew. injection H as _ <-. reflexivity.
Qed.

Lemma feed_except_sealed parents err self r self' :
  feed_except autofix parents err self = (Ok r, self') →
  _field_generator self' = None
  ∧ (∀ size, _size self' = Some size → _current_size self' = size).
Proof.
  unfold feed_except. intros H.
  destruct (HACHOIR_ERRORS err); cbv beta iota in H.
  - mbind H as fixed s1 Hfix. destruct fixed as [nf|]; mred H; [|discriminate].
    injection H as _ <-. unfold _fixFeedError in Hfix. mred Hfix.
    destruct (_size self); mred Hfix; [|discriminate].
    destruct autofix; cbn [negb] in Hfix; mred Hfix; [|discriminate].
    mbind Hfix as nf' s2 Hlast. injection Hfix as _ <-.
    apply _fixLastField_sealed in Hlast as (sz & _ & H2 & H3 & H4 & _).
    split; [exact H4|]. intros size Hs. congruence.
  - destruct err; try discriminate H.
    split; [eapply _stopFeeding_done; exact H|].
    intros size Hs. eapply _stopFeeding_sealed; eassumption.
Qed.

(** X5.  When [_feedAll] returns on a set that was not done, the set is
    done: the generator is cleared and, when the size is known, the
    current size is the size.  The class, the name, the address and the
    description are as before, and a size that was known is unchanged. *)
Theorem feedAll_seals fuel parents self self' :
  _field_generator self ≠ None →
  _feedAll stream autofix next fuel parents self = (Ok tt, self') →
  _field_generator self' = None
  ∧ (∀ size, _size self' = Some size → _current_size self' = size)
  ∧ same_static self self'
  ∧ size_kept self self'.
Proof.
  intros Hgen H. split; [|split; [|split]].
  - destruct fuel as [|fuel]; [discriminate|]. rewrite _feedAll_S in H.
    destruct (_field_generator self); [|contradiction].
    destruct (feed_forever stream autofix next fuel parents self) as [[u|e|] s1] eqn:E;
      [exfalso; eapply feed_forever_never_returns; exact E| |discriminate].
    mbind H as nf s2 Hex. injection H as <-.
    apply (feed_except_sealed _ _ _ _ _ Hex).
  - destruct fuel as [|fuel]; [discriminate|]. rewrite _feedAll_S in H.
    destruct (_field_generator self); [|contradiction].
    destruct (feed_forever stream autofix next fuel parents self) as [[u|e|] s1] eqn:E;
      [exfalso; eapply feed_forever_never_returns; exact E| |discriminate].
    mbind H as nf s2 Hex. injection H as <-.
    apply (feed_except_sealed _ _ _ _ _ Hex).
  - assert (Hst : preserves same_static (_feedAll stream autofix next fuel parents)).
    { apply preserves_feed; unfold same_static; try reflexivity; intros; congruence. }
    exact (Hst _ _ _ H).
  - assert (Hsz : preserves size_kept (_feedAll stream autofix next fuel parents)).
    { apply preserves_feed; unfold size_kept; try (intros; simpl; auto; fail).
      intros s v Hs z Hz. congruence. }
    exact (Hsz _ _ _ H).
Qed.

End FeedAll.

(** ** Reading a number of fields *)

Section ReadMore.
Context {G : Type}.
Variable stream : InputStream.
Variable autofix : bool.
Variable next : list (Field G) → Field G → G → GenStep G.
Implicit Types (self field : Field G) (parents : list (Field G)).

Lemma prepare_field_fields field self r self' :
  prepare_field field self = (r, self') → _fields self' = _fields self.
Proof.
  destruct (prepare_field_spec field self) as (field1 & Hprep & _).
  rewrite Hprep. intros H. injection H as _ <-. reflexivity.
Qed.

Lemma _fixFieldSize_fields fuel field new_size self r self' :
  _fixFieldSize fuel field new_size self = (r, self') → _fields self' = _fields self.
Proof.
  unfold _fixFieldSize. destruct (0 <? new_size); [|intros H; injection H as _ <-; reflexivity].
  intros H. mbind H as composite s1 Hc.
  - assert (s1 = self) as ->.
    { destruct (is_field_set field); mred Hc; [|injection Hc as _ <-; reflexivity].
      destruct (sized field); mred Hc; try discriminate Hc. injection Hc as _ <-. reflexivity. }
    destruct composite.
    + destruct (_truncate fuel new_size field) as [[?|?|] ?]; injection H as _ <-; reflexivity.
    + mred H. destruct (_size self); mred H; injection H as _ <-; reflexivity.
  - destruct (is_field_set field); mred Hc; [|discriminate Hc].
    destruct (sized field); mred Hc; try discriminate Hc.
    injection Hc as _ <-. injection H as _ <-. reflexivity.
  - destruct (is_field_set field); mred Hc; [|discriminate Hc].
    destruct (sized field); mred Hc; try discriminate Hc.
    injection Hc as <-. injection H as _ <-. reflexivity.
Qed.

Lemma check_place_fields fuel parents field self r self' :
  check_place stream autofix fuel parents field self = (r, self') →
  _fields self' = _fields self.
Proof.
  unfold check_place. intros H.
  destruct (sized field) as [fsize| |]; mred H; try (injection H as _ <-; reflexivity).
  destruct (_checkSize stream parents self (_address field + fsize) false) as [dsize| |];
    mred H; try (injection H as _ <-; reflexivity).
  destruct (_ || _).
  - destruct autofix; [|injection H as _ <-; reflexivity].
    destruct dsize as [d|]; [|injection H as _ <-; reflexivity].
    eapply _fixFieldSize_fields. exact H.
  - injection H as _ <-. reflexivity.
Qed.

Lemma append_field_length field self field' self' :
  append_field field self = (Ok field', self') →
  length (_fields self') = S (length (_fields self)).
Proof.
  unfold append_field. intros H.
  destruct (sized field) as [fsize| |] eqn:Hs; mred H; try discriminate H.
  unfold sized in Hs. destruct (_size field) as [z|] eqn:Hz; [|discriminate Hs].
  injection Hs as ->.
  pose proof (append_field_spec field self fsize Hz) as Hspec.
  unfold append_field, sized in Hspec. rewrite Hz in Hspec. mred Hspec.
  rewrite Hspec in H. cbv zeta in H.
  destruct (Dict_contains (_name field) (_fields self)).
  - destruct (Dict_contains _ (_fields self)); [discriminate|].
    injection H as _ <-. simpl. rewrite length_app. simpl. lia.
  - injection H as _ <-. simpl. rewrite length_app. simpl. lia.
Qed.

Lemma _addField_length fuel feed parents field self field' self' :
  _addField stream autofix fuel feed parents field self = (Ok field', self') →
  length (_fields self') = S (length (_fields self)).
Proof.
  unfold _addField. intros H.
  mbind H as f1 s1 Hprep. apply prepare_field_fields in Hprep.
  destruct (try_field_size stream autofix feed parents s1 f1) as [r| |]; try discriminate H.
  mbind H as f2 s3 Hplace. apply check_place_fields in Hplace.
  mbind H as f3 s4 Happ. apply append_field_length in Happ.
  destruct (r.1); mred H; [discriminate|]. injection H as _ <-. congruence.
Qed.

Lemma gen_next_fields parents self r self' :
  gen_next next parents self = (r, self') → _fields self' = _fields self.
Proof.
  unfold gen_next. destruct (_field_generator self) as [[g|]|];
    [destruct (next parents self g)|..]; intros H; injection H as _ <-; reflexivity.
Qed.

Lemma read_fields_ok fuel parents (number : nat) added self added' self' :
  read_fields stream autofix next fuel parents number added self = (Ok tt, (added', self')) →
  added' = added + Z.of_nat number
  ∧ length (_fields self') = (length (_fields self) + number)%nat.
Proof.
  revert added self. induction number as [|number IH]; intros added self; cbn [read_fields].
  - intros H. injection H as <- <-. split; lia.
  - destruct (bind _ _ self) as [[f|e|] s1] eqn:E; [|discriminate..].
    intros H. apply IH in H as (-> & Hl).
    mbind E as f0 s0 Hnext. apply gen_next_fields in Hnext.
    apply _addField_length in E. split; [lia|]. rewrite Hl, E, Hnext. lia.
Qed.

Lemma read_fields_count fuel parents (number : nat) added self r added' self' :
  read_fields stream autofix next fuel parents number added self = (r, (added', self')) →
  added ≤ added' ≤ added + Z.of_nat number.
Proof.
  revert added self. induction number as [|number IH]; intros added self; cbn [read_fields].
  - intros H. injection H as _ <- _. lia.
  - destruct (bind _ _ self) as [[f|e|] s1] eqn:E.
    + intros H. apply IH in H. lia.
    + intros H. injection H as _ <- _. lia.
    + intros H. injection H as _ <- _. lia.
Qed.

Lemma readMoreFields_alive fuel parents number self added self' :
  readMoreFields stream autofix next fuel parents number self = (Ok added, self') →
  0 ≤ added ≤ Z.max 0 number + 1
  ∧ (_field_generator self = None → added = 0 ∧ self' = self)
  ∧ (_field_generator self' ≠ None →
     added = Z.max 0 number
     ∧ Z.of_nat (length (_fields self')) = Z.of_nat (length (_fields self)) + Z.max 0 number).
Proof.
  unfold readMoreFields. intros H.
  destruct (_field_generator self) as [g|] eqn:Hg.
  - destruct (read_fields _ _ _ _ _ _ _ self) as [[u|e|] [a s1]] eqn:E; [| |discriminate].
    + injection H as <- <-. destruct u.
      pose proof (read_fields_ok _ _ _ _ _ _ _ E) as (-> & Hl).
      split; [lia|]. split; [discriminate|]. intros _. split; [lia|]. rewrite Hl. lia.
    + pose proof (read_fields_count _ _ _ _ _ _ _ _ E) as Hc.
      mbind H as nf s2 Hex. injection H as <- <-.
      apply feed_except_sealed in Hex as (Hdone & _).
      split; [destruct (HACHOIR_ERRORS e); [|destruct nf]; lia|].
      split; [discriminate|]. intros Hn. contradiction.
  - injection H as <- <-. split; [lia|]. split; [auto|]. intros Hn. contradiction.
Qed.

(** X6.  The count that [readMoreFields(number)] returns lies between 0
    and [number + 1]; on a set that is done it is 0 and nothing changes;
    and when the set is not done afterwards, the count is [number] and
    exactly that many children were appended. *)
Theorem readMoreFields_count fuel parents number self added self' :
  readMoreFields stream autofix next fuel parents number self = (Ok added, self') →
  0 ≤ added ≤ Z.max 0 number + 1
  ∧ (_field_generator self = None → added = 0 ∧ self' = self)
  ∧ (_field_generator self' ≠ None →
     added = Z.max 0 number
     ∧ Z.of_nat (length (_fields self')) = Z.of_nat (length (_fields self)) + Z.max 0 number).
Proof. apply readMoreFields_alive. Qed.

(** X7.  [readFirstFields(number)] returns [None] exactly on a set that
    is done.  When the set is not done afterwards it has at least
    [number] children, as many as the larger of [number] and what it had,
    and a second call adds nothing and returns 0. *)
Theorem readFirstFields_enough fuel parents number self r self' :
  readFirstFields stream autofix next fuel parents number self = (Ok r, self') →
  (r = None ↔ _field_generator self = None)
  ∧ (_field_generator self' ≠ None →
     number ≤ Z.of_nat (length (_fields self'))
     ∧ Z.of_nat (length (_fields self'))
       = Z.max number (Z.of_nat (length (_fields self)))
     ∧ readFirstFields stream autofix next fuel parents number self' = (Ok (Some 0), self')).
Proof.
  unfold readFirstFields. intros H. mred H.
  destruct (_field_generator self) as [g|] eqn:Hg.
  - destruct (Z.ltb_spec 0 (number - Z.of_nat (length (_fields self)))) as [Hlt|Hge].
    + mbind H as added s1 Hmore. injection H as <- <-.
      split; [split; discriminate|]. intros Halive.
      destruct (readMoreFields_alive _ _ _ _ _ _ Hmore) as (_ & _ & Hexact).
      destruct (Hexact Halive) as (-> & Hl).
      split; [lia|]. split; [lia|]. mgoal.
      destruct (_field_generator s1); [|contradiction].
      destruct (Z.ltb_spec 0 (number - Z.of_nat (length (_fields s1)))); [lia|reflexivity].
    + mred H. injection H as <- <-. split; [split; discriminate|]. intros _.
      split; [lia|]. split; [lia|]. mgoal. rewrite Hg.
      destruct (Z.ltb_spec 0 (number - Z.of_nat (length (_fields self)))); [lia|reflexivity].
  - mred H. injection H as <- <-. split; [split; reflexivity|]. intros Hn. contradiction.
Qed.

End ReadMore.

(** ** Seeking *)

Section SeekFacts.
Context {G : Type}.
Variable stream : InputStream.
Variable autofix : bool.
Variables createPaddingField createNullField :
  Field G → Z → string → option string → Res (Field G).
Implicit Types (self field : Field G) (parents : list (Field G)).

(** X8.  A relative [seekBit] raises [ParserError] "Seek error" exactly
    when the address is behind the current size, returns [None] when it
    is the current size, and otherwise asks for a padding (or null) field
    of exactly the bits in between; an absolute seek is the relative one
    from the absolute address of the set, and [seekByte] is [seekBit] at
    eight times the address. *)
Theorem seekBit_cases parents address name description null self :
  (address < _current_size self →
   seekBit createPaddingField createNullField parents address name description true null self
   = Raise (ParserError SeekError))
  ∧ (address = _current_size self →
     seekBit createPaddingField createNullField parents address name description true null self
     = Ok None)
  ∧ (_current_size self < address →
     seekBit createPaddingField createNullField parents address name description true null self
     = res_bind ((if null then createNullField else createPaddingField)
                   self (address - _current_size self) name description)
                (λ field, Ok (Some field)))
  ∧ seekBit createPaddingField createNullField parents address name description false null self
    = seekBit createPaddingField createNullField parents
              (address - absolute_address parents self) name description true null self
  ∧ seekByte createPaddingField createNullField parents address name description true null self
    = seekBit createPaddingField createNullField parents (8 * address) name description
              true null self.
Proof.
  unfold seekByte, seekBit. cbv zeta. repeat split.
  - intros H. destruct (Z.ltb_spec (address - _current_size self) 0); [reflexivity|lia].
  - intros ->. rewrite Z.sub_diag. reflexivity.
  - intros H. destruct (Z.ltb_spec (address - _current_size self) 0); [lia|].
    destruct (Z.ltb_spec 0 (address - _current_size self)); [|lia].
    destruct null; reflexivity.
  - replace (address - absolute_address parents self - _current_size self)
      with (address - (absolute_address parents self + _current_size self)) by lia.
    reflexivity.
  - rewrite Z.mul_comm. reflexivity.
Qed.

(** X9.  When the padding fields have the size asked for, adding the field
    that a relative [seekBit(address)] returns brings the current size of
    the set to [address]: the field starts at the old current size and
    has the size of the gap. *)
Theorem seekBit_reaches fuel feed parents address name description (null : bool) self
    field field' self' :
  (∀ (parent : Field G) (nbits : Z) (n : string) (d : option string) (f : Field G),
     (if null then createNullField else createPaddingField) parent nbits n d = Ok f →
     _size f = Some nbits) →
  seekBit createPaddingField createNullField parents address name description true null self
  = Ok (Some field) →
  fits stream parents self field →
  _addField stream autofix fuel feed parents field self = (Ok field', self') →
  _current_size self < address
  ∧ _size field = Some (address - _current_size self)
  ∧ _address field' = _current_size self
  ∧ _current_size self' = address.
Proof.
  intros Hpad Hseek Hfit Hadd. unfold seekBit in Hseek. cbv zeta in Hseek.
  destruct (Z.ltb_spec (address - _current_size self) 0); [discriminate|].
  destruct (Z.ltb_spec 0 (address - _current_size self)); [|discriminate].
  assert (Hs : _size field = Some (address - _current_size self)).
  { destruct null;
      [destruct (createNullField self _ name description) as [f| |] eqn:E
      |destruct (createPaddingField self _ name description) as [f| |] eqn:E];
      try discriminate Hseek; injection Hseek as <-; exact (Hpad _ _ _ _ _ E). }
  destruct (_addField_fits_result stream autofix fuel feed parents field self field' self'
              Hfit Hadd) as (_ & Ha & _ & Hcs & _).
  split; [lia|]. split; [exact Hs|]. split; [exact Ha|].
  rewrite (Hcs _ Hs). lia.
Qed.

End SeekFacts.

(** ** Writing in place *)

Section WriteFieldsIn.
Context {G : Type}.
Variable createPaddingField : Field G → Z → string → option string → Res (Field G).
Implicit Types (self field old_field : Field G) (fs : list (Field G))
  (st : Field G * list (Event G)).

Lemma sum_sizes_app fs1 fs2 t1 t2 :
  sum_sizes fs1 = Ok t1 → sum_sizes fs2 = Ok t2 → sum_sizes (fs1 ++ fs2) = Ok (t1 + t2).
Proof.
  revert t1. induction fs1 as [|f fs1 IH]; intros t1; simpl.
  - intros H1 H2. injection H1 as <-. rewrite H2. reflexivity.
  - destruct (sized f) as [size| |]; simpl; try discriminate.
    destruct (sum_sizes fs1) as [t| |]; simpl; try discriminate.
    intros H1 H2. injection H1 as <-. rewrite (IH t eq_refl H2). simpl. f_equal. lia.
Qed.

Lemma place_fields_spec address fs total :
  sum_sizes fs = Ok total →
  ∃ placed,
    place_fields address fs = Ok (placed, address + total)
    ∧ length placed = length fs
    ∧ sum_sizes placed = Ok total
    ∧ contiguous address placed (address + total).
Proof.
  revert address total. induction fs as [|f fs IH]; intros address total; simpl.
  - intros H. injection H as <-. exists []. rewrite Z.add_0_r. repeat split.
  - destruct (sized f) as [size| |] eqn:Hs; simpl; try discriminate.
    destruct (sum_sizes fs) as [t| |] eqn:Ht; simpl; try discriminate.
    intros H. injection H as <-.
    destruct (IH (address + size) t eq_refl) as (placed & Hp & Hl & Hsum & Hc).
    exists (set_address address f :: placed). rewrite Hp. simpl.
    split; [do 2 f_equal; lia|]. split; [f_equal; exact Hl|].
    unfold sized in Hs |- *. simpl. destruct (_size f) as [z|] eqn:Hz; [|discriminate].
    injection Hs as ->. simpl. rewrite Hsum. simpl.
    split; [reflexivity|]. split; [reflexivity|]. exists size. split; [reflexivity|].
    replace (address + (size + t)) with (address + size + t) by lia. exact Hc.
Qed.

Lemma padding_at_spec address size self :
  (∀ parent nbits name d, 0 < nbits →
     ∃ f, createPaddingField parent nbits name d = Ok f ∧ _size f = Some nbits) →
  0 ≤ size →
  ∃ pad, padding_at createPaddingField address size self = Ok pad
         ∧ sum_sizes pad = Ok size
         ∧ contiguous address pad (address + size)
         ∧ (pad = [] ↔ size = 0).
Proof.
  intros Hpad Hsize. unfold padding_at.
  destruct (Z.ltb_spec 0 size) as [Hpos|Hz].
  - destruct (Hpad self size "padding[]" None Hpos) as (f & -> & Hf). simpl.
    eexists. split; [reflexivity|]. simpl. unfold sized. simpl. rewrite Hf. simpl.
    split; [f_equal; lia|]. split.
    + split; [reflexivity|]. exists size. split; [reflexivity|reflexivity].
    + split; [discriminate|lia].
  - assert (size = 0) as -> by lia. exists []. rewrite Z.add_0_r. repeat split.
Qed.

Lemma writeFieldsIn_run old_field address new_fields st old_size total before placed finish :
  _size old_field = Some old_size →
  sum_sizes new_fields = Ok total →
  total ≤ old_size → _address old_field ≤ address →
  padding_at createPaddingField (_address old_field) (address - _address old_field) st.1
  = Ok before →
  place_fields address new_fields = Ok (placed, finish) →
  writeFieldsIn createPaddingField old_field address new_fields st
  = if 0 <=? _address old_field + old_size - finish then
      match padding_at createPaddingField finish (_address old_field + old_size - finish) st.1
      with
      | Ok after => replaceField (_name old_field) (before ++ placed ++ after) st
      | Raise e => (Raise e, st)
      | Fuel => (Fuel, st)
      end
    else (Raise AssertionError, st).
Proof.
  intros Hold Hsum Hle Hge Hb Hp.
  assert (H1 : (old_size <? total) = false) by (apply Z.ltb_ge; lia).
  assert (H2 : (0 <=? address - _address old_field) = true) by (apply Z.leb_le; lia).
  unfold writeFieldsIn, sized. rewrite Hsum, Hold. mgoal. rewrite H1.
  unfold assert_. rewrite H2. mgoal. unfold on_self at 1. mgoal. rewrite Hb. mgoal.
  rewrite Hp. mgoal.
  destruct (0 <=? _address old_field + old_size - finish); mgoal.
  - unfold on_self. mgoal.
    destruct (padding_at createPaddingField finish _ st.1); destruct st; reflexivity.
  - destruct st; reflexivity.
Qed.

(** X10.  [writeFieldsIn], when the padding fields have the size asked
    for: it raises [ParserError] when the new fields are larger than the
    old one, [AssertionError] when they start before it or end after it,
    and otherwise it is [replaceField] on the new fields at consecutive
    addresses from [address], with a padding before and after where there
    is a gap; that list has the size of the old field and tiles it, so the
    size check of [replaceField] passes. *)
Theorem writeFieldsIn_tiles old_field address new_fields st old_size total :
  (∀ parent nbits name d, 0 < nbits →
     ∃ f, createPaddingField parent nbits name d = Ok f ∧ _size f = Some nbits) →
  _size old_field = Some old_size →
  sum_sizes new_fields = Ok total →
  (old_size < total →
   writeFieldsIn createPaddingField old_field address new_fields st
   = (Raise (ParserError (FormatError
        ("Unable to write fields at address " +:+ pretty address +:+ " (too big)!"))), st))
  ∧ (total ≤ old_size →
     address < _address old_field ∨ _address old_field + old_size < address + total →
     writeFieldsIn createPaddingField old_field address new_fields st
     = (Raise AssertionError, st))
  ∧ (_address old_field ≤ address → address + total ≤ _address old_field + old_size →
     ∃ before placed after,
       writeFieldsIn createPaddingField old_field address new_fields st
       = replaceField (_name old_field) (before ++ placed ++ after) st
       ∧ length placed = length new_fields
       ∧ sum_sizes (before ++ placed ++ after) = Ok old_size
       ∧ contiguous (_address old_field) (before ++ placed ++ after)
                    (_address old_field + old_size)
       ∧ contiguous address placed (address + total)
       ∧ (before = [] ↔ address = _address old_field)
       ∧ (after = [] ↔ address + total = _address old_field + old_size)).
Proof.
  intros Hpad Hold Hsum.
  destruct (place_fields_spec address new_fields total Hsum) as (placed & Hp & Hl & Hps & Hpc).
  split; [|split].
  - intros Hbig. unfold writeFieldsIn, sized. rewrite Hsum, Hold. mgoal.
    destruct (Z.ltb_spec old_size total); [reflexivity|lia].
  - intros Hle [Hlt|Hout].
    + unfold writeFieldsIn, sized. rewrite Hsum, Hold. mgoal.
      destruct (Z.ltb_spec old_size total); [lia|].
      unfold assert_.
      destruct (Z.leb_spec 0 (address - _address old_field)); [lia|reflexivity].
    + destruct (Z.le_gt_cases (_address old_field) address) as [Hge|Hlt].
      * assert (H1 : 0 ≤ address - _address old_field) by lia.
        destruct (padding_at_spec (_address old_field) _ st.1 Hpad H1) as (before & Hb & _).
        rewrite (writeFieldsIn_run _ _ _ _ _ _ _ _ _ Hold Hsum Hle Hge Hb Hp).
        destruct (Z.leb_spec 0 (_address old_field + old_size - (address + total)));
          [lia|reflexivity].
      * unfold writeFieldsIn, sized. rewrite Hsum, Hold. mgoal.
        destruct (Z.ltb_spec old_size total); [lia|].
        unfold assert_.
        destruct (Z.leb_spec 0 (address - _address old_field)); [lia|reflexivity].
  - intros Hge Hend.
    assert (H1 : 0 ≤ address - _address old_field) by lia.
    assert (H2 : 0 ≤ _address old_field + old_size - (address + total)) by lia.
    destruct (padding_at_spec (_address old_field) _ st.1 Hpad H1)
      as (before & Hb & Hbs & Hbc & Hbe).
    destruct (padding_at_spec (address + total) _ st.1 Hpad H2)
      as (after & Ha & Has & Hac & Hae).
    assert (Hle : total ≤ old_size) by lia.
    exists before, placed, after. split; [|split; [exact Hl|split; [|split; [|split]]]].
    + rewrite (writeFieldsIn_run _ _ _ _ _ _ _ _ _ Hold Hsum Hle Hge Hb Hp).
      destruct (Z.leb_spec 0 (_address old_field + old_size - (address + total))); [|lia].
      rewrite Ha. reflexivity.
    + rewrite (sum_sizes_app _ _ _ _ Hbs (sum_sizes_app _ _ _ _ Hps Has)). f_equal. lia.
    + apply contiguous_app. exists address. split.
      * replace (_address old_field + (address - _address old_field)) with address in Hbc
          by lia.
        exact Hbc.
      * apply contiguous_app. exists (address + total). split; [exact Hpc|].
        replace (address + total + (_address old_field + old_size - (address + total)))
          with (_address old_field + old_size) in Hac by lia.
        exact Hac.
    + exact Hpc.
    + split; [rewrite Hbe; lia|rewrite Hae; lia].
Qed.

End WriteFieldsIn.

(** ** Names with an index *)

Section UniqueNames.
Context {G : Type}.
Implicit Types (self field : Field G) (fields : list (Field G)).

Lemma append_inj_r (s1 s2 suffix : string) : s1 +:+ suffix = s2 +:+ suffix → s1 = s2.
Proof.
  revert s2. induction s1 as [|c s1 IH]; intros [|c2 s2] H.
  - reflexivity.
  - apply (f_equal String.length) in H. rewrite !length_append in H. simpl in H. lia.
  - apply (f_equal String.length) in H. rewrite !length_append in H. simpl in H. lia.
  - rewrite !append_cons in H. injection H as -> H. f_equal. apply IH. exact H.
Qed.

Lemma index_name_inj (prefix : string) (k1 k2 : nat) :
  prefix +:+ index_suffix k1 = prefix +:+ index_suffix k2 → k1 = k2.
Proof.
  intros H. apply (inj (String.append prefix)) in H. unfold index_suffix in H.
  apply (inj (String.append "[")) in H. apply append_inj_r in H.
  apply (inj pretty) in H. exact H.
Qed.

(** X11.  [setUniqueFieldName] called for fields all named [prefix[]], one
    after the other, returns, numbers them consecutively from the counter
    of the prefix, so the names are pairwise distinct; the counters of the
    other prefixes and the children are untouched. *)
Theorem rename_each_indices (prefix : string) fields self :
  Forall (λ field, _name field = prefix +:+ "[]") fields →
  ∃ renamed self',
    rename_each fields self = (Ok renamed, self')
    ∧ map _name renamed
      = map (λ k, prefix +:+ index_suffix k)
            (seq (next_index (_field_array_count self) prefix) (length fields))
    ∧ NoDup (map _name renamed)
    ∧ next_index (_field_array_count self') prefix
      = (next_index (_field_array_count self) prefix + length fields)%nat
    ∧ (∀ other, other ≠ prefix →
                _field_array_count self' !! other = _field_array_count self !! other)
    ∧ _fields self' = _fields self.
Proof.
  intros Hall.
  assert (Hrun : ∃ renamed self',
    rename_each fields self = (Ok renamed, self')
    ∧ map _name renamed
      = map (λ k, prefix +:+ index_suffix k)
            (seq (next_index (_field_array_count self) prefix) (length fields))
    ∧ next_index (_field_array_count self') prefix
      = (next_index (_field_array_count self) prefix + length fields)%nat
    ∧ (∀ other, other ≠ prefix →
                _field_array_count self' !! other = _field_array_count self !! other)
    ∧ _fields self' = _fields self).
  { revert self. induction Hall as [|field fields Hn Hall IH]; intros self.
    - exists [], self. simpl. rewrite Nat.add_0_r. repeat split.
    - cbn [rename_each]. rewrite bind_unfold.
      rewrite (setUniqueFieldName_spec field self prefix Hn).
      set (self1 := set_field_array_count _ self).
      destruct (IH self1) as (renamed & self' & Hrec & Hnames & Hnext & Hother & Hf).
      rewrite bind_unfold, Hrec. unfold ret.
      assert (Hn1 : next_index (_field_array_count self1) prefix
                    = S (next_index (_field_array_count self) prefix)).
      { unfold self1, next_index at 1. simpl. rewrite lookup_insert_eq. reflexivity. }
      eexists _, self'. split; [reflexivity|]. split; [|split; [|split]].
      + simpl. rewrite Hnames, Hn1. reflexivity.
      + rewrite Hnext, Hn1. simpl. lia.
      + intros other Ho. rewrite (Hother other Ho). unfold self1. simpl.
        apply lookup_insert_ne. congruence.
      + rewrite Hf. reflexivity. }
  destruct Hrun as (renamed & self' & Hrec & Hnames & Hnext & Hother & Hf).
  exists renamed, self'. split; [exact Hrec|]. split; [exact Hnames|].
  split; [|auto]. rewrite Hnames.
  assert (Hinj : Inj (=) (=) (λ k : nat, prefix +:+ index_suffix k))
    by (intros k1 k2; apply index_name_inj).
  apply (NoDup_fmap_2 _). apply NoDup_seq.
Qed.

End UniqueNames.

(** ** The exponent of a float *)

Section Exponent.
Context {G : Type}.
Variable stream : InputStream.
Implicit Types (field : Field G) (parents : list (Field G)).

Lemma bits_value_range (e : Endian) (a : Z) (k : nat) :
  0 ≤ bits_value stream e a k < 2 ^ Z.of_nat k.
Proof.
  revert a. induction k as [|k IH]; intros a; [simpl; lia|].
  cbn [bits_value]. specialize (IH (a + 1)).
  rewrite Nat2Z.inj_succ, Z.pow_succ_r by lia.
  destruct e, (stream_bit stream _ a); simpl Z.b2z; lia.
Qed.

(** X12.  The value of a [FloatExponent] of [size] bits lies between
    [-(2^(size-1) - 1)] and [2^(size-1)], and what [createRawDisplay]
    shows, the value plus the bias, is the raw bits of the field, a number
    below [2^size]. *)
Theorem FloatExponent_range parents field (size value : Z) :
  _size field = Some size → 1 ≤ size →
  FloatExponent_createValue stream parents field = Ok value →
  - (2 ^ (size - 1) - 1) ≤ value ≤ 2 ^ (size - 1)
  ∧ FloatExponent_raw stream parents field = Ok (value + (2 ^ (size - 1) - 1))
  ∧ FloatExponent_raw stream parents field = Bits_createValue stream parents field
  ∧ 0 ≤ value + (2 ^ (size - 1) - 1) < 2 ^ size.
Proof.
  intros Hs Hpos Hv. unfold FloatExponent_raw. rewrite Hv.
  unfold FloatExponent_createValue, Bits_createValue, sized in *. rewrite Hs in *.
  cbn [res_bind] in *. unfold readBits in *.
  destruct (_ || _); [discriminate|]. cbn [res_bind] in Hv. injection Hv as <-.
  unfold FloatExponent_bias.
  pose proof (bits_value_range (parent_endian parents) (absolute_address parents field)
                (Z.to_nat size)) as Hr.
  rewrite Z2Nat.id in Hr by lia.
  assert (Hp : 2 ^ size = 2 * 2 ^ (size - 1)).
  { rewrite <- Z.pow_succ_r by lia. f_equal. lia. }
  split; [lia|]. split; [reflexivity|]. split; [f_equal; lia|]. lia.
Qed.

End Exponent.

Lemma FloatExponent_range_witness :
  FloatExponent_raw float80_stream [Float80_fed (root_set BIG_ENDIAN float80_stream) "x" None;
                                    root_set BIG_ENDIAN float80_stream]
                    (Float80_leaf BIG_ENDIAN FloatExponent "exponent" 1 15)
  = Ok 16384.
Proof.
  refine (eq_trans (proj1 (proj2 (FloatExponent_range float80_stream
            [Float80_fed (root_set BIG_ENDIAN float80_stream) "x" None;
             root_set BIG_ENDIAN float80_stream]
            (Float80_leaf BIG_ENDIAN FloatExponent "exponent" 1 15) 15 1 eq_refl _ _))) _).
  - lia.
  - vm_compute. reflexivity.
  - vm_compute. reflexivity.
Defined.

(** ** Looking a field up *)

Section GetField.
Context {G : Type}.
Variable stream : InputStream.
Variable autofix : bool.
Variable next : list (Field G) → Field G → G → GenStep G.
Implicit Types (self field : Field G) (parents : list (Field G)) (d : list (string * Field G)).

Lemma append_field_last field self field' self' :
  append_field field self = (Ok field', self') →
  _fields self' = _fields self ++ [(_name field', field')].
Proof.
  unfold append_field. intros H.
  destruct (sized field) as [fsize| |] eqn:Hs; mred H; try discriminate H.
  unfold sized in Hs. destruct (_size field) as [z|] eqn:Hz; [|discriminate Hs].
  injection Hs as ->.
  pose proof (append_field_spec field self fsize Hz) as Hspec.
  unfold append_field, sized in Hspec. rewrite Hz in Hspec. mred Hspec.
  rewrite Hspec in H. cbv zeta in H.
  destruct (Dict_contains (_name field) (_fields self)).
  - destruct (Dict_contains _ (_fields self)); [discriminate|].
    injection H as <- <-. reflexivity.
  - injection H as <- <-. reflexivity.
Qed.

Lemma _addField_last fuel feed parents field self field' self' :
  _addField stream autofix fuel feed parents field self = (Ok field', self') →
  _fields self' = _fields self ++ [(_name field', field')].
Proof.
  unfold _addField. intros H.
  mbind H as f1 s1 Hprep. apply prepare_field_fields in Hprep.
  destruct (try_field_size stream autofix feed parents s1 f1) as [r| |]; try discriminate H.
  mbind H as f2 s3 Hplace. apply (check_place_fields stream autofix) in Hplace.
  mbind H as f3 s4 Happ. apply append_field_last in Happ.
  destruct (r.1); mred H; [discriminate|]. injection H as <- <-. congruence.
Qed.

Lemma Dict_contains_snoc key d k v :
  Dict_contains key d = false →
  Dict_contains key (d ++ [(k, v)]) = String.eqb k key.
Proof.
  unfold Dict_contains. destruct (Dict_index key d) eqn:E; [discriminate|]. intros _.
  rewrite (Dict_index_app_None _ _ _ E). simpl. destruct (String.eqb k key); reflexivity.
Qed.

Lemma Dict_getitem_snoc key d v :
  Dict_contains key d = false → Dict_getitem key (d ++ [(key, v)]) = Ok v.
Proof.
  unfold Dict_contains, Dict_getitem. destruct (Dict_index key d) eqn:E; [discriminate|].
  intros _. rewrite (Dict_index_app_None _ _ _ E). simpl. rewrite String.eqb_refl. simpl.
  rewrite Nat.add_0_r. rewrite lookup_app_r by lia. rewrite Nat.sub_diag. reflexivity.
Qed.

Lemma feed_until_found fuel parents name self field self' :
  Dict_contains name (_fields self) = false →
  feed_until stream autofix next fuel parents name self = (Ok field, self') →
  _name field = name
  ∧ ∃ more, _fields self' = _fields self ++ more ++ [(name, field)]
            ∧ Dict_contains name (_fields self ++ more) = false.
Proof.
  revert self. induction fuel as [|fuel IH]; intros self Hno H; [discriminate|].
  cbn [feed_until] in H. mbind H as f0 s0 Hnext. apply gen_next_fields in Hnext.
  mbind H as f1 s1 Hadd. apply _addField_last in Hadd. rewrite Hnext in Hadd.
  destruct (String.eqb_spec (_name f1) name) as [Heq|Hne].
  - injection H as <- <-. split; [exact Heq|]. exists [].
    rewrite app_nil_r. simpl. rewrite Hadd, Heq. split; [reflexivity|exact Hno].
  - assert (Hno1 : Dict_contains name (_fields s1) = false).
    { rewrite Hadd, (Dict_contains_snoc _ _ _ _ Hno). apply String.eqb_neq. exact Hne. }
    destruct (IH s1 Hno1 H) as (Hn & more & Hf & Hno2). split; [exact Hn|].
    exists ((_name f1, f1) :: more). rewrite Hf, Hadd, <- !app_assoc. simpl.
    split; [reflexivity|]. rewrite Hadd, <- app_assoc in Hno2. exact Hno2.
Qed.

(** X13.  [_getField(name, const)]: a child that is in the dictionary is
    returned as it is, without feeding; with [const] set the set is never
    changed; a field found by feeding has the name asked for, is the new
    last child, and is the one that the dictionary then holds under that
    name; and when feeding returns [None] the set is done. *)
Theorem getField_lookup fuel parents name self :
  (Dict_contains name (_fields self) = true →
   ∀ const, ∃ field,
     Dict_getitem name (_fields self) = Ok field
     ∧ _getField stream autofix next fuel parents name const self = (Ok (Some field), self))
  ∧ (∀ r self', _getField stream autofix next fuel parents name true self = (r, self') →
                self' = self)
  ∧ (∀ field self',
       Dict_contains name (_fields self) = false →
       _getField stream autofix next fuel parents name false self = (Ok (Some field), self') →
       _name field = name
       ∧ Dict_getitem name (_fields self') = Ok field
       ∧ ∃ more, _fields self' = _fields self ++ more ++ [(name, field)])
  ∧ (∀ self',
       _getField stream autofix next fuel parents name false self = (Ok None, self') →
       _field_generator self' = None).
Proof.
  split; [|split; [|split]].
  - intros Hin const.
    assert (Hg : ∃ value, Dict_getitem name (_fields self) = Ok value).
    { unfold Dict_contains in Hin. unfold Dict_getitem.
      destruct (Dict_index name (_fields self)) as [i|] eqn:Hi; [|discriminate].
      destruct (Dict_index_Some _ _ _ Hi) as (value & Hv & _). rewrite Hv.
      exists value. reflexivity. }
    destruct Hg as (value & Hg). exists value. split; [exact Hg|].
    unfold _getField. mgoal. rewrite Hin. mgoal. rewrite Hg. reflexivity.
  - intros r self'. unfold _getField. mgoal.
    destruct (Dict_contains name (_fields self)); mgoal.
    + destruct (Dict_getitem name (_fields self)); intros H; injection H as _ <-; reflexivity.
    + destruct (_field_generator self); intros H; injection H as _ <-; reflexivity.
  - intros field self' Hno. unfold _getField. mgoal. rewrite Hno.
    destruct (_field_generator self); [|discriminate]. cbn [negb]. unfold _feedUntil.
    destruct (feed_until stream autofix next fuel parents name self) as [[f|e|] s1] eqn:E.
    + intros H. injection H as <- <-.
      destruct (feed_until_found _ _ _ _ _ _ Hno E) as (Hn & more & Hf & Hno2).
      split; [exact Hn|]. split; [|exists more; exact Hf].
      rewrite Hf, app_assoc. apply Dict_getitem_snoc; exact Hno2.
    + intros H. mbind H as nf s2 Hex.
    + discriminate.
  - intros self'. unfold _getField. mgoal.
    destruct (Dict_contains name (_fields self)); mgoal.
    + destruct (Dict_getitem name (_fields self)); discriminate.
    + destruct (_field_generator self) eqn:Hg; [|intros H; injection H as <-; exact Hg].
      cbn [negb]. unfold _feedUntil.
      destruct (feed_until stream autofix next fuel parents name self) as [[f|e|] s1] eqn:E;
        [discriminate| |discriminate].
      intros H. mbind H as nf s2 Hex. injection H as <-.
      apply (feed_except_sealed _ _ _ _ _ _ Hex).
Qed.

End GetField.

(** ** Truncating *)

Section MonadSteps.
Context {S A B C : Type}.

Lemma bind_assoc (m : M S A) (k : A → M S B) (f : B → M S C) s :
  bind (bind m k) f s = bind m (λ a, bind (k a) f) s.
Proof. unfold bind. destruct (m s) as [[a|e|] s1]; reflexivity. Qed.

Lemma bind_ret_l (a : A) (f : A → M S B) s : bind (ret a) f s = f a s.
Proof. reflexivity. Qed.

Lemma bind_get (f : S → M S B) s : bind get f s = f s s.
Proof. reflexivity. Qed.

Lemma bind_modify (g : S → S) (f : unit → M S B) s : bind (modify g) f s = f tt (g s).
Proof. reflexivity. Qed.

End MonadSteps.

Section TruncateFlat.
Context {G : Type}.
Implicit Types (self field : Field G) (l : list (Field G)) (d : list (string * Field G)).

Lemma drop_beyond_spec (size : Z) d :
  ∀ (a b : Z) (n : nat) self,
    _fields self = d → contiguous a d.*2 b → a < size → size ≤ b → (length d ≤ n)%nat →
    ∃ (k : nat) key c size_c,
      d !! k = Some (key, c) ∧ _size c = Some size_c
      ∧ contiguous a (take k d).*2 (_address c)
      ∧ _address c < size ≤ _address c + size_c
      ∧ drop_beyond size n self = (Ok c, set_fields (take (S k) d) self).
Proof.
  induction d as [|[key c] d0 IH] using rev_ind; intros a b n self Hf Hc Ha Hb Hn.
  - simpl in Hc. lia.
  - rewrite fmap_app in Hc. apply contiguous_app in Hc as (m & Hc0 & Hlast).
    simpl in Hlast. destruct Hlast as (Hac & size_c & Hsc & Hend).
    assert (Hrun : drop_beyond size n self
                   = if _address c <? size then (Ok c, self)
                     else match n with
                          | O => (Fuel, self)
                          | S n' => drop_beyond size n' (set_fields d0 self)
                          end).
    { destruct n as [|n']; cbn [drop_beyond]; rewrite bind_unfold; unfold call;
        rewrite Hf, Dict_values_at_minus1; cbn [snd];
        destruct (_address c <? size); try reflexivity.
      rewrite bind_unfold. unfold fields_delitem, update. rewrite Hf, Dict_delitem_minus1.
      reflexivity. }
    rewrite Hrun. destruct (Z.ltb_spec (_address c) size) as [Hlt|Hge].
    + exists (length d0), key, c, size_c.
      rewrite lookup_app_r by lia. rewrite Nat.sub_diag. split; [reflexivity|].
      split; [exact Hsc|]. rewrite take_app_length. subst m. split; [exact Hc0|].
      split; [lia|]. f_equal.
      replace (S (length d0)) with (length (d0 ++ [(key, c)])) by (rewrite length_app; simpl; lia).
      rewrite firstn_all. rewrite <- Hf. destruct self; reflexivity.
    + rewrite length_app in Hn. simpl in Hn. destruct n as [|n']; [lia|].
      destruct (IH a m n' (set_fields d0 self)) as (k & key' & c' & size_c' & Hk & Hs' & Hpre & Hcut & Hrec);
        [reflexivity|exact Hc0|exact Ha|lia|lia|].
      exists k, key', c', size_c'.
      assert (Hkl : (k < length d0)%nat) by (apply lookup_lt_Some in Hk; exact Hk).
      rewrite lookup_app_l by exact Hkl. split; [exact Hk|]. split; [exact Hs'|].
      rewrite take_app_le by lia. split; [exact Hpre|]. split; [exact Hcut|].
      rewrite Hrec. rewrite take_app_le by lia. reflexivity.
Qed.

(** X14.  [_truncate(size)] of a set with contiguous children that was fed
    past [size]: some child [c] holds the bit before the cut.  When the
    cut is at the end of [c], or [c] is a leaf and no child before it is
    named "raw[]", the call returns: the children before [c] are kept,
    followed by [c] itself or by a leaf "raw[]" of the bits of [c] before
    the cut; the children are contiguous, the size and the current size
    are [size], and the generator is cleared. *)
Theorem truncate_leaf_cut fuel self size :
  Contiguous self → 0 < size < _current_size self →
  ∃ (k : nat) key c size_c,
    _fields self !! k = Some (key, c) ∧ _size c = Some size_c
    ∧ _address c < size ≤ _address c + size_c
    ∧ ((size < _address c + size_c →
        is_field_set c = false ∧ Dict_contains "raw[]" (take k (_fields self)) = false) →
       ∃ self' last,
         _truncate (S fuel) size self = (Ok tt, self')
         ∧ children self' = take k (children self) ++ [last]
         ∧ (if size =? _address c + size_c then last = c
            else _name last = "raw[]" ∧ is_field_set last = false)
         ∧ _address last = _address c ∧ _size last = Some (size - _address c)
         ∧ Contiguous self' ∧ _size self' = Some size ∧ _current_size self' = size
         ∧ _field_generator self' = None).
Proof.
  intros Hc Hsize.
  destruct (drop_beyond_spec size (_fields self) 0 (_current_size self)
              (length (_fields self)) (set_size (Some size) self))
    as (k & key & c & size_c & Hk & Hs & Hpre & Hcut & Hdrop);
    [reflexivity|exact Hc|lia|lia|lia|].
  exists k, key, c, size_c. split; [exact Hk|]. split; [exact Hs|]. split; [exact Hcut|].
  intros Hleaf.
  assert (H1 : (0 <? size) = true) by (apply Z.ltb_lt; lia).
  assert (H2 : (size <? _current_size self) = true) by (apply Z.ltb_lt; lia).
  assert (Htake : take (S k) (_fields self) = take k (_fields self) ++ [(key, c)])
    by (apply take_S_r; exact Hk).
  set (s1 := set_current_size (_address c)
               (set_fields (take (S k) (_fields self)) (set_size (Some size) self))).
  assert (Hstart :
    _truncate (S fuel) size self
    = bind (if size - _address c <? size_c then
              if is_field_set c then
                (λ self, match _truncate fuel (size - _address c) c with
                         | (Ok _, field') => (Ok tt, set_last field' self)
                         | (Raise e, field') => (Raise e, set_last field' self)
                         | (Fuel, _) => (Fuel, self)
                         end)
              else
                fields_delitem (-1) ;;;
                field <- call (λ self, createRawField self (size - _address c) "raw[]") ;;
                fields_append field
            else ret tt)
           (λ _, modify (set_current_size size) ;;;
                 self <- get ;;
                 if match _size self with Some s => s =? _current_size self | None => false end
                 then modify (set_field_generator None)
                 else ret tt) s1).
  { cbn [_truncate]. unfold assert_. rewrite H1.
    rewrite bind_ret_l, bind_get, H2. rewrite !bind_assoc, bind_modify.
    rewrite !bind_assoc. rewrite (bind_ok _ _ _ _ _ Hdrop).
    rewrite !bind_assoc, bind_modify, Hs. rewrite !bind_assoc. reflexivity. }
  rewrite Hstart. clear Hstart.
  destruct (Z.eqb_spec size (_address c + size_c)) as [Heq|Hne].
  - assert (H3 : (size - _address c <? size_c) = false) by (apply Z.ltb_ge; lia).
    rewrite H3. rewrite bind_ret_l, bind_modify, bind_get.
    cbn [_size _current_size set_current_size set_fields set_size s1]. rewrite Z.eqb_refl.
    eexists _, c. split; [reflexivity|].
    split; [unfold children, s1; cbn [_fields set_field_generator set_current_size set_fields];
            rewrite Htake, fmap_app, fmap_take; reflexivity|].
    split; [reflexivity|]. split; [reflexivity|]. split; [rewrite Hs; f_equal; lia|].
    split.
    { unfold Contiguous, children, s1.
      cbn [_fields _current_size set_field_generator set_current_size set_fields].
      rewrite Htake, fmap_app. apply contiguous_app. exists (_address c).
      split; [exact Hpre|]. simpl. split; [reflexivity|]. exists size_c.
      split; [exact Hs|lia]. }
    repeat split.
  - destruct Hleaf as (Hl & Hraw); [lia|].
    assert (H3 : (size - _address c <? size_c) = true) by (apply Z.ltb_lt; lia).
    rewrite H3, Hl.
    set (s2 := set_fields (take k (_fields self)) s1).
    assert (Hdel : fields_delitem (-1) s1 = (Ok tt, s2)).
    { unfold fields_delitem, update, s1. cbn [_fields set_current_size set_fields].
      rewrite Htake, Dict_delitem_minus1. reflexivity. }
    assert (Hrawf : ∃ raw, createRawField s2 (size - _address c) "raw[]" = Ok raw
                   ∧ _name raw = "raw[]" ∧ is_field_set raw = false
                   ∧ _address raw = _address c ∧ _size raw = Some (size - _address c)).
    { unfold createRawField. destruct (Z.leb_spec (size - _address c) 0); [lia|].
      destruct (_ mod 8 =? 0); eexists; (split; [reflexivity|repeat split]). }
    destruct Hrawf as (raw & Hmk & Hn & Hfs & Har & Hsr).
    assert (Happ : fields_append raw s2
                   = (Ok tt, set_fields (take k (_fields self) ++ [("raw[]", raw)]) s2)).
    { unfold fields_append, update, Dict_append, s2. cbn [_fields set_fields].
      rewrite Hn, Hraw. reflexivity. }
    rewrite !bind_assoc. rewrite (bind_ok _ _ _ _ _ Hdel).
    rewrite bind_assoc. unfold call at 1. rewrite bind_unfold, Hmk.
    rewrite (bind_ok _ _ _ _ _ Happ). rewrite bind_modify, bind_get.
    cbn [_size _current_size set_current_size set_fields set_size s1 s2]. rewrite Z.eqb_refl.
    eexists _, raw. split; [reflexivity|].
    split; [unfold children, s2, s1;
            cbn [_fields set_field_generator set_current_size set_fields];
            rewrite fmap_app, fmap_take; reflexivity|].
    split; [split; assumption|]. split; [exact Har|]. split; [exact Hsr|].
    split.
    { unfold Contiguous, children, s2, s1.
      cbn [_fields _current_size set_field_generator set_current_size set_fields].
      rewrite fmap_app. apply contiguous_app. exists (_address c).
      split; [exact Hpre|]. simpl. split; [exact Har|].
      exists (size - _address c). split; [exact Hsr|lia]. }
    repeat split.
Qed.

End TruncateFlat.

Lemma truncate_leaf_cut_witness :
  ∃ self' last,
    _truncate 1 20 pair_set = (Ok tt, self')
    ∧ children self' = take 1 (children pair_set) ++ [last]
    ∧ _name last = "raw[]" ∧ _address last = 16 ∧ _size last = Some 4
    ∧ Contiguous self' ∧ _current_size self' = 20.
Proof.
  assert (Hc : Contiguous pair_set).
  { unfold Contiguous, children. vm_compute. split; [reflexivity|].
    exists 16. split; [reflexivity|]. split; [reflexivity|]. exists 8. split; reflexivity. }
  assert (Hsize : 0 < 20 < _current_size pair_set) by (vm_compute; split; reflexivity).
  destruct (truncate_leaf_cut 0 pair_set 20 Hc Hsize)
    as (k & key & c & size_c & Hk & Hs & Hcut & Hrun).
  assert (k = 1%nat) as ->.
  { destruct k as [|[|k]]; [|reflexivity|].
    - vm_compute in Hk. injection Hk as _ <-. vm_compute in Hs. injection Hs as <-.
      vm_compute in Hcut. destruct Hcut as [_ Hcut]. exfalso. apply Hcut. reflexivity.
    - vm_compute in Hk. discriminate Hk. }
  vm_compute in Hk. injection Hk as <- <-. vm_compute in Hs. injection Hs as <-.
  destruct Hrun as (self' & last & Hrun & Hch & Hlast & Ha & Hsz & Hcont & _ & Hcs & _).
  { intros _. split; vm_compute; reflexivity. }
  exists self', last. split; [exact Hrun|]. split; [exact Hch|].
  change (20 =? 16 + 8) with false in Hlast. destruct Hlast as (Hn & _).
  split; [exact Hn|]. split; [exact Ha|]. split; [exact Hsz|]. split; [exact Hcont|exact Hcs].
Defined.

(** ** Concrete cases *)



Lemma pair_set_contiguous : Contiguous pair_set.
Proof.
  unfold Contiguous, children. vm_compute. split; [reflexivity|].
  exists 16. split; [reflexivity|]. split; [reflexivity|]. exists 8. split; reflexivity.
Qed.

Lemma slack_set_contiguous : Contiguous slack_set.
Proof.
  unfold Contiguous, children. vm_compute. split; [reflexivity|].
  exists 8. split; reflexivity.
Qed.

Lemma deleteField_last_child_witness :
  ∃ size, _size (placed_leaf Bits "y" 16 8) = Some size
    ∧ _deleteField (-1) pair_set
      = (Ok (placed_leaf Bits "y" 16 8),
         set_fields [("x", placed_leaf Bits "x" 0 16)]
                    (set_current_size (_current_size pair_set - size) pair_set))
    ∧ _deleteField 2 pair_set = (Raise IndexError, pair_set).
Proof.
  assert (Hd : _fields pair_set
               = [("x", placed_leaf Bits "x" 0 16)] ++ [("y", placed_leaf Bits "y" 16 8)])
    by (vm_compute; reflexivity).
  destruct (deleteField_last_child [("x", placed_leaf Bits "x" 0 16)] "y"
              (placed_leaf Bits "y" 16 8) pair_set Hd pair_set_contiguous)
    as (size & Hs & _ & H2 & _ & _ & H5).
  exists size. split; [exact Hs|]. split; [exact H2|].
  apply H5. left. vm_compute. discriminate.
Defined.

Lemma fixLastField_contiguous_witness :
  ∃ new_field self',
    _fixLastField slack_set = (Ok new_field, self')
    ∧ Contiguous self' ∧ _current_size self' = 32 ∧ new_field ≠ None.
Proof.
  destruct (fixLastField_contiguous slack_set 32 eq_refl slack_set_contiguous)
    as (nf & self' & k & Hrun & Hc & Hcs & _ & _ & Hch & Hnone).
  { lia. } { vm_compute. reflexivity. }
  exists nf, self'. split; [exact Hrun|]. split; [exact Hc|]. split; [exact Hcs|].
  intros ->. vm_compute in Hrun. discriminate Hrun.
Defined.

Lemma feedAll_seals_witness :
  ∃ self', _feedAll script_stream true script_next 4 [] sized_set = (Ok tt, self')
           ∧ _field_generator self' = None ∧ _current_size self' = 16.
Proof.
  eexists. split; [vm_compute; reflexivity|].
  match goal with
  | |- _field_generator ?s = None ∧ _ =>
    destruct (feedAll_seals script_stream true script_next 4 [] sized_set s)
      as (H1 & H2 & _ & _)
  end.
  { discriminate. } { vm_compute. reflexivity. }
  split; [exact H1|]. apply H2. vm_compute. reflexivity.
Defined.

Lemma readMoreFields_count_witness :
  ∃ self', readMoreFields script_stream true script_next 4 [] 1 sized_set = (Ok 1, self')
           ∧ length (_fields self') = 1%nat.
Proof.
  eexists. split; [vm_compute; reflexivity|].
  match goal with
  | |- length (_fields ?s) = _ =>
    destruct (readMoreFields_count script_stream true script_next 4 [] 1 sized_set 1 s)
      as (_ & _ & H3)
  end.
  { vm_compute. reflexivity. }
  destruct H3 as (_ & Hl); [vm_compute; discriminate|].
  change (length (_fields sized_set)) with 0%nat in Hl. lia.
Defined.

Lemma readFirstFields_enough_witness :
  ∃ self', readFirstFields script_stream true script_next 4 [] 1 sized_set
           = (Ok (Some 1), self')
           ∧ readFirstFields script_stream true script_next 4 [] 1 self' = (Ok (Some 0), self').
Proof.
  eexists. split; [vm_compute; reflexivity|].
  match goal with
  | |- readFirstFields _ _ _ _ _ _ ?s = _ =>
    destruct (readFirstFields_enough script_stream true script_next 4 [] 1 sized_set
                (Some 1) s) as (_ & H2)
  end.
  { vm_compute. reflexivity. }
  apply H2. vm_compute. discriminate.
Defined.

Lemma seekBit_reaches_witness :
  ∃ field field' self',
    seekBit raw_padding raw_padding [] 24 "padding[]" None true false slack_set = Ok (Some field)
    ∧ _addField script_stream true 1 (_feedAll script_stream true script_next 1) []
                field slack_set = (Ok field', self')
    ∧ _current_size self' = 24 ∧ _name field' = "padding[0]".
Proof.
  do 3 eexists. split; [vm_compute; reflexivity|]. split; [vm_compute; reflexivity|].
  match goal with
  | |- _current_size ?s = _ ∧ _name ?f' = _ =>
    destruct (seekBit_reaches script_stream true raw_padding raw_padding 1
                (_feedAll script_stream true script_next 1) [] 24 "padding[]" None false
                slack_set (placed_leaf RawBits "padding[]" 8 16) f' s) as (_ & _ & _ & H4)
  end.
  - intros parent nbits n d f H. unfold raw_padding in H. injection H as <-. reflexivity.
  - vm_compute. reflexivity.
  - exists 16, (Some 8). split; [reflexivity|]. split; [vm_compute; reflexivity|].
    split; [lia|]. discriminate.
  - vm_compute. reflexivity.
  - split; [exact H4|]. vm_compute. reflexivity.
Defined.

Lemma writeFieldsIn_tiles_witness :
  ∃ replace,
    writeFieldsIn raw_padding (placed_leaf Bits "x" 0 16) 4 [bits_leaf "p" 8] (pair_set, [])
    = replaceField "x" replace (pair_set, [])
    ∧ sum_sizes replace = Ok 16
    ∧ contiguous 0 replace 16.
Proof.
  destruct (writeFieldsIn_tiles raw_padding (placed_leaf Bits "x" 0 16) 4 [bits_leaf "p" 8]
              (pair_set, []) 16 8) as (_ & _ & H3).
  - intros parent nbits name d Hpos. eexists. split; reflexivity.
  - reflexivity.
  - reflexivity.
  - destruct H3 as (before & placed & after & Heq & _ & Hsum & Hc & _).
    + vm_compute. discriminate.
    + vm_compute. discriminate.
    + exists (before ++ placed ++ after). split; [exact Heq|]. split; [exact Hsum|exact Hc].
Defined.

Lemma rename_each_indices_witness :
  ∃ renamed self',
    rename_each [bits_leaf "a[]" 8; bits_leaf "a[]" 8; bits_leaf "a[]" 8] pair_set
    = (Ok renamed, self')
    ∧ map _name renamed = ["a[0]"; "a[1]"; "a[2]"].
Proof.
  destruct (rename_each_indices "a" [bits_leaf "a[]" 8; bits_leaf "a[]" 8; bits_leaf "a[]" 8]
              pair_set) as (renamed & self' & Hrun & Hnames & _).
  - repeat constructor.
  - exists renamed, self'. split; [exact Hrun|]. rewrite Hnames. vm_compute. reflexivity.
Defined.

Lemma getField_lookup_witness :
  ∃ field self',
    _getField script_stream true script_next 4 [] "b" false sized_set = (Ok (Some field), self')
    ∧ _name field = "b" ∧ Dict_getitem "b" (_fields self') = Ok field.
Proof.
  do 2 eexists. split; [vm_compute; reflexivity|].
  match goal with
  | |- _name ?f = _ ∧ Dict_getitem _ (_fields ?s) = _ =>
    destruct (proj1 (proj2 (proj2 (getField_lookup script_stream true script_next 4 []
                                     "b" sized_set))) f s) as (H1 & H2 & _)
  end.
  - vm_compute. reflexivity.
  - vm_compute. reflexivity.
  - split; [exact H1|exact H2].
Defined.

(** * Reading again after a reset *)

Section NoStop.
Context {G : Type}.
Implicit Types (self field : Field G).

Lemma no_stop_bind {A B} (m : M (Field G) A) (f : A → M (Field G) B) :
  no_stop (G:=G) m → (∀ a, no_stop (G:=G) (f a)) → no_stop (G:=G) (bind m f).
Proof.
  intros Hm Hf s s' H. rewrite bind_unfold in H.
  destruct (m s) as [[a|e|] s1] eqn:E.
  - exact (Hf a s1 s' H).
  - injection H as -> ->. exact (Hm s s' E).
  - discriminate.
Qed.

Lemma no_stop_ret {A} (a : A) : no_stop (G:=G) (ret a : M (Field G) A).
Proof. intros s s' H. discriminate. Qed.

Lemma no_stop_get : no_stop (G:=G) (@get (Field G)).
Proof. intros s s' H. discriminate. Qed.

Lemma no_stop_modify (f : Field G → Field G) : no_stop (G:=G) (modify f).
Proof. intros s s' H. discriminate. Qed.

Lemma no_stop_assert b : no_stop (G:=G) (assert_ b : M (Field G) unit).
Proof. intros s s' H. destruct b; discriminate. Qed.

Lemma no_stop_fuel {A} : no_stop (G:=G) (lift (@Fuel A) : M (Field G) A).
Proof. intros s s' H. discriminate. Qed.

Lemma no_stop_fields_delitem index : no_stop (G:=G) (fields_delitem index).
Proof.
  intros s s' H. unfold fields_delitem, update, Dict_delitem in H.
  destruct (py_index _ _); discriminate.
Qed.

Lemma no_stop_fields_append field : no_stop (G:=G) (fields_append field).
Proof.
  intros s s' H. unfold fields_append, update, Dict_append in H.
  destruct (Dict_contains _ _); discriminate.
Qed.

Lemma no_stop_values_at (i : Z) :
  no_stop (G:=G) (call (λ self, Dict_values_at i (_fields self))).
Proof.
  intros s s' H. unfold call, Dict_values_at in H.
  destruct (py_index _ _); [destruct (_ !! _)|]; discriminate.
Qed.

Lemma no_stop_createRawField (size : Z) (name : string) :
  no_stop (G:=G) (call (λ self, createRawField self size name)).
Proof.
  intros s s' H. unfold call, createRawField in H.
  destruct (size <=? 0); [discriminate|]. destruct (_ =? 0); discriminate.
Qed.

Lemma no_stop_drop_beyond size n : no_stop (G:=G) (drop_beyond size n).
Proof.
  induction n as [|n IH]; cbn [drop_beyond].
  - apply no_stop_bind; [apply no_stop_values_at|]. intros f.
    destruct (_ <? _); [apply no_stop_ret|apply no_stop_fuel].
  - apply no_stop_bind; [apply no_stop_values_at|]. intros f.
    destruct (_ <? _); [apply no_stop_ret|].
    apply no_stop_bind; [apply no_stop_fields_delitem|]. intros _. exact IH.
Qed.

Lemma no_stop_truncate fuel : ∀ size, no_stop (G:=G) (_truncate fuel size).
Proof.
  induction fuel as [|fuel IH]; intros size; cbn [_truncate]; [apply no_stop_fuel|].
  apply no_stop_bind; [apply no_stop_assert|]. intros _.
  apply no_stop_bind; [apply no_stop_get|]. intros self.
  apply no_stop_bind.
  - destruct (size <? _current_size self).
    + apply no_stop_bind; [apply no_stop_modify|]. intros _.
      apply no_stop_bind; [apply no_stop_drop_beyond|]. intros field.
      apply no_stop_bind; [apply no_stop_modify|]. intros _.
      apply no_stop_bind; [|intros _; apply no_stop_modify].
      destruct (match _size field with Some fsize => _ | None => false end);
        [|apply no_stop_ret].
      destruct (is_field_set field).
      * intros s s' H.
        destruct (_truncate fuel (size - _address field) field) as [[u|e|] f'] eqn:E;
          try discriminate H.
        injection H as -> _. exact (IH _ _ _ E).
      * apply no_stop_bind; [apply no_stop_fields_delitem|]. intros _.
        apply no_stop_bind; [apply no_stop_createRawField|]. intros raw.
        apply no_stop_fields_append.
    + apply no_stop_bind; [apply no_stop_assert|]. intros _. apply no_stop_modify.
  - intros _. apply no_stop_bind; [apply no_stop_get|]. intros s1.
    destruct (match _size s1 with Some s => _ | None => false end);
      [apply no_stop_modify|apply no_stop_ret].
Qed.

End NoStop.

Section SizeBlind.
Context {G : Type}.
Variable stream : InputStream.
Variable autofix : bool.
Variable next : list (Field G) → Field G → G → GenStep G.
Implicit Types (self field : Field G) (parents : list (Field G)).

Lemma set_size_same self (z : Z) : _size self = Some z → set_size (Some z) self = self.
Proof. destruct self. simpl. intros ->. reflexivity. Qed.

Lemma _checkSize_shift parents : ∀ self (x : Z),
  _checkSize stream parents self x false
  = res_bind (_checkSize stream parents self 0 false)
             (λ o, Ok ((λ room, room - x) <$> o)).
Proof.
  induction parents as [|p ps IH]; intros self x; cbn [_checkSize].
  - destruct (_size self) as [fsize|]; simpl; [f_equal; f_equal; lia|].
    destruct (stream_size stream); reflexivity.
  - destruct (_size self) as [fsize|]; simpl; [f_equal; f_equal; lia|].
    rewrite (IH p (x + _address self)), (IH p (0 + _address self)).
    destruct (_checkSize stream ps p 0 false) as [[room|]| |]; simpl; try reflexivity.
    f_equal. f_equal. lia.
Qed.

Lemma _checkSize_known parents self (z x : Z) strict :
  _checkSize stream parents (set_size (Some z) self) x strict = Ok (Some (z - x)).
Proof. destruct parents; reflexivity. Qed.

Lemma _checkSize_no_stop parents : ∀ self (x : Z) strict,
  _checkSize stream parents self x strict ≠ Raise StopIteration.
Proof.
  induction parents as [|p ps IH]; intros self x strict; cbn [_checkSize].
  - destruct (_size self); [discriminate|]. destruct (stream_size stream); [discriminate|].
    destruct (negb strict); [discriminate|]. destruct (sizeGe _ _); discriminate.
  - destruct (_size self); [discriminate|]. apply IH.
Qed.

Lemma prepare_field_set_size v field self :
  prepare_field field (set_size v self)
  = ((prepare_field field self).1, set_size v (prepare_field field self).2).
Proof.
  unfold prepare_field, setUniqueFieldName.
  destruct (endswith (_name field) "[]"); reflexivity.
Qed.

Lemma append_field_set_size v field self :
  append_field field (set_size v self)
  = ((append_field field self).1, set_size v (append_field field self).2).
Proof.
  unfold append_field, sized. destruct (_size field) as [fsize|]; [|reflexivity].
  mrun. unfold Dict_append.
  destruct (Dict_contains (_name field) (_fields self)); [|reflexivity].
  unfold setUniqueFieldName, fields_append, update, Dict_append. mrun.
  destruct (Dict_contains _ (_fields self)); reflexivity.
Qed.

(** Lines 272-279 of [_addField] for a field that has its size. *)
Lemma check_place_run fuel parents field self (fsize : Z) :
  _size field = Some fsize →
  check_place stream autofix fuel parents field self =
    match _checkSize stream parents self (_address field + fsize) false with
    | Ok dsize =>
      if match dsize with Some d => d <? 0 | None => false end
         || (is_field_set field && (fsize <=? 0))
      then
        if autofix then
          match dsize with
          | Some d =>
            if (0 <? fsize + d) && is_field_set field && (0 <? fsize) then
              match _truncate fuel (fsize + d) field with
              | (Ok _, field') => (Ok field', self)
              | (Raise e, _) => (Raise e, self)
              | (Fuel, _) => (Fuel, self)
              end
            else
              (Raise StopIteration,
               if 0 <? fsize + d then
                 match _size self with
                 | None => set_size (Some (_current_size self + (fsize + d))) self
                 | Some _ => self
                 end
               else self)
          | None => (Raise TypeError, self)
          end
        else (Raise (ParserError (FieldTooLarge (_name field))), self)
      else (Ok field, self)
    | Raise e => (Raise e, self)
    | Fuel => (Fuel, self)
    end.
Proof.
  intros Hs. unfold check_place, sized. rewrite Hs. mrun.
  destruct (_checkSize stream parents self (_address field + fsize) false)
    as [dsize|e|]; try reflexivity.
  destruct (_ || _); [|reflexivity].
  destruct autofix; [|reflexivity].
  destruct dsize as [d|]; [|reflexivity].
  unfold _fixFieldSize, sized. rewrite Hs.
  destruct (0 <? fsize + d); [|reflexivity].
  destruct (is_field_set field); mrun.
  - destruct (0 <? fsize); simpl.
    + destruct (_truncate fuel (fsize + d) field) as [[?|?|] ?]; reflexivity.
    + destruct (_size self); reflexivity.
  - destruct (_size self); reflexivity.
Qed.

(** [_addField] of a field that has its size does not feed it. *)
Lemma _addField_sized fuel feed parents field self (fsize : Z) :
  _size field = Some fsize →
  _addField stream autofix fuel feed parents field self
  = (field1 <- prepare_field field ;;
     field2 <- check_place stream autofix fuel parents field1 ;;
     append_field field2) self.
Proof.
  intros Hs.
  destruct (prepare_field_spec field self) as (field1 & Hprep & Hn & Ha & Hs1 & Hfs).
  unfold _addField. rewrite !(bind_ok _ _ _ _ _ Hprep).
  mgoal. rewrite (try_field_size_sized stream autofix feed parents _ field1 fsize)
    by congruence.
  mgoal. unfold bind.
  destruct (check_place _ _ _ _ _ _) as [[f2|?|] s2]; try reflexivity.
  destruct (append_field f2 s2) as [[?|?|] ?]; reflexivity.
Qed.

End SizeBlind.

Section AddSized.
Context {G : Type}.
Variable stream : InputStream.
Variable autofix : bool.
Implicit Types (self field : Field G) (parents : list (Field G)).

Lemma _addField_unfold fuel feed parents field self :
  _addField stream autofix fuel feed parents field self
  = match prepare_field field self with
    | (Ok field1, self1) =>
      match try_field_size stream autofix feed parents self1 field1 with
      | Ok r => add_sized stream autofix fuel parents r.1 r.2 self1
      | Raise e => (Raise e, self1)
      | Fuel => (Fuel, self1)
      end
    | (Raise e, self1) => (Raise e, self1)
    | (Fuel, self1) => (Fuel, self1)
    end.
Proof.
  unfold _addField. rewrite bind_unfold.
  destruct (prepare_field field self) as [[field1|e|] self1]; reflexivity.
Qed.

Lemma append_field_outcome field self (fsize : Z) r self' :
  _size field = Some fsize →
  append_field field self = (r, self') →
  _address self' = _address self ∧ _field_generator self' = _field_generator self
  ∧ _size self' = _size self
  ∧ (((∃ f, r = Ok f) ∧ _current_size self' = _current_size self + fsize)
     ∨ ∃ key, r = Raise (UniqKeyError key)).
Proof.
  intros Hs. rewrite (append_field_spec field self fsize Hs). cbv zeta.
  destruct (Dict_contains (_name field) (_fields self)).
  - destruct (Dict_contains _ (_fields self)); intros H; injection H as <- <-;
      (split; [reflexivity|]); (split; [reflexivity|]); (split; [reflexivity|]).
    + right. eexists. reflexivity.
    + left. split; [eexists; reflexivity|reflexivity].
  - intros H; injection H as <- <-.
    split; [reflexivity|]. split; [reflexivity|]. split; [reflexivity|].
    left. split; [eexists; reflexivity|reflexivity].
Qed.

Lemma append_then_stop (ask : bool) field self (fsize : Z) r self' :
  _size field = Some fsize →
  (field <- append_field field ;; if ask then raise StopIteration else ret field) self
  = (r, self') →
  _address self' = _address self ∧ _field_generator self' = _field_generator self
  ∧ _size self' = _size self
  ∧ ((ends ask r ∧ _current_size self' = _current_size self + fsize)
     ∨ ∃ key, r = Raise (UniqKeyError key)).
Proof.
  intros Hs. rewrite bind_unfold.
  destruct (append_field field self) as [ra sa] eqn:Ha.
  destruct (append_field_outcome field self fsize ra sa Hs Ha)
    as (H1 & H2 & H3 & [((f & ->) & Hcs)|(key & ->)]).
  - destruct ask; intros H; injection H as <- <-;
      (split; [exact H1|]); (split; [exact H2|]); (split; [exact H3|]); left;
      (split; [|exact Hcs]).
    + reflexivity.
    + eexists. reflexivity.
  - intros H; injection H as <- <-.
    split; [exact H1|]. split; [exact H2|]. split; [exact H3|]. right. eexists. reflexivity.
Qed.

Ltac vac :=
  split; [reflexivity|]; split; [reflexivity|]; right; right;
  split; [intros ?; discriminate|]; split; [discriminate|assumption].

Ltac dropped Hn :=
  rewrite Hn;
  match goal with |- context [0 <? ?x] => destruct (Z.ltb_spec 0 x) end;
  (split; [reflexivity|]); (split; [reflexivity|]);
  right; left; eexists; (split; [reflexivity|]); right;
  [left; split; [lia|]; split; [reflexivity|]; cbn [_size set_size]; f_equal; lia
  |right; split; [lia|]; split; [reflexivity|]; split; [exact Hn|reflexivity]].

(** What [add_sized] does with a field that has its size, in a set whose
    size is not known: the field fits and is appended; or the bound of the
    ancestors is reached: the field is truncated to that bound, or it is
    dropped and the size of the set becomes that bound, or it is dropped
    from a set that ends at that bound or after it; or an error other than
    [StopIteration] leaves the size unknown. *)
Lemma add_sized_outcome fuel parents ask field self (fsize : Z) r self1 :
  _size field = Some fsize → _address field = _current_size self → _size self = None →
  add_sized stream autofix fuel parents ask field self = (r, self1) →
  _address self1 = _address self ∧ _field_generator self1 = _field_generator self
  ∧ ((fits stream parents self field ∧ _size self1 = None
      ∧ _current_size self1 = _current_size self + fsize ∧ ends ask r)
     ∨ (∃ room : Z, _checkSize stream parents self 0 false = Ok (Some room)
          ∧ ((_current_size self < room ∧ _size self1 = None
              ∧ _current_size self1 = room ∧ ends ask r)
             ∨ (_current_size self < room ∧ r = Raise StopIteration
                ∧ _size self1 = Some room)
             ∨ (room ≤ _current_size self ∧ r = Raise StopIteration
                ∧ _size self1 = None ∧ _current_size self1 = _current_size self)))
     ∨ ((∀ f, r ≠ Ok f) ∧ r ≠ Raise StopIteration ∧ _size self1 = None)).
Proof.
  intros Hs Ha Hn. unfold add_sized.
  rewrite bind_unfold, (check_place_run stream autofix fuel parents field _ fsize Hs), Ha.
  pose proof (_checkSize_shift stream parents self (_current_size self + fsize)) as Hshift.
  destruct (_checkSize stream parents self 0 false) as [[room|]|e|] eqn:Hroom;
    cbn [res_bind fmap option_fmap option_map] in Hshift; rewrite Hshift.
  - (* a bound *)
    destruct (Z.ltb_spec (room - (_current_size self + fsize)) 0) as [Hlt|Hge];
      cbn [orb].
    + destruct autofix; [|intros H; injection H as <- <-; vac].
      destruct (_ && _) eqn:Htest.
      * apply andb_true_iff in Htest as (Htest & _).
        apply andb_true_iff in Htest as (Hpos & _). apply Z.ltb_lt in Hpos.
        destruct (_truncate fuel _ field) as [[u|e|] field2] eqn:Ht.
        -- intros H.
           apply (append_then_stop ask field2 self _ r self1 (_truncate_size _ _ _ _ _ Ht))
             in H as (H1 & H2 & H3 & [(Hok & Hcs)|(key & ->)]).
           ++ split; [exact H1|]. split; [exact H2|]. right. left.
              exists room. split; [reflexivity|]. left.
              split; [lia|]. split; [congruence|]. split; [lia|exact Hok].
           ++ split; [exact H1|]. split; [exact H2|]. right. right.
              split; [intros f; discriminate|]. split; [discriminate|]. congruence.
        -- intros H; injection H as <- <-.
           split; [reflexivity|]. split; [reflexivity|]. right. right.
           split; [intros f; discriminate|]. split; [|exact Hn].
           intros He. injection He as ->. exact (no_stop_truncate _ _ _ _ Ht).
        -- intros H; injection H as <- <-. vac.
      * intros H; injection H as <- <-. dropped Hn.
    + destruct (is_field_set field && (fsize <=? 0)) eqn:Hzero.
      * destruct autofix; [|intros H; injection H as <- <-; vac].
        assert (Htest : (0 <? fsize + (room - (_current_size self + fsize)))
                        && is_field_set field && (0 <? fsize) = false).
        { apply andb_true_iff in Hzero as (_ & Hle). apply Z.leb_le in Hle.
          apply andb_false_iff. right. apply Z.ltb_ge. exact Hle. }
        rewrite Htest. intros H; injection H as <- <-. dropped Hn.
      * intros H.
        apply (append_then_stop ask field self _ r self1 Hs)
          in H as (H1 & H2 & H3 & [(Hok & Hcs)|(key & ->)]).
        -- split; [exact H1|]. split; [exact H2|]. left.
           split; [|split; [congruence|split; [exact Hcs|exact Hok]]].
           exists fsize, (Some (room - (_current_size self + fsize))).
           split; [exact Hs|]. split; [exact Hshift|].
           split; [lia|]. intros Hset. rewrite Hset in Hzero.
           apply Z.leb_gt in Hzero. exact Hzero.
        -- split; [exact H1|]. split; [exact H2|]. right. right.
           split; [intros f; discriminate|]. split; [discriminate|]. congruence.
  - (* no bound *)
    cbn [orb]. destruct (is_field_set field && (fsize <=? 0)) eqn:Hzero.
    + destruct autofix; intros H; injection H as <- <-; vac.
    + intros H.
      apply (append_then_stop ask field self _ r self1 Hs)
        in H as (H1 & H2 & H3 & [(Hok & Hcs)|(key & ->)]).
      * split; [exact H1|]. split; [exact H2|]. left.
        split; [|split; [congruence|split; [exact Hcs|exact Hok]]].
        exists fsize, None.
        split; [exact Hs|]. split; [exact Hshift|].
        split; [exact I|]. intros Hset. rewrite Hset in Hzero.
        apply Z.leb_gt in Hzero. exact Hzero.
      * split; [exact H1|]. split; [exact H2|]. right. right.
        split; [intros f; discriminate|]. split; [discriminate|]. congruence.
  - intros H; injection H as <- <-.
    split; [reflexivity|]. split; [reflexivity|]. right. right.
    split; [intros f; discriminate|]. split; [|exact Hn].
    intros He. injection He as ->. exact (_checkSize_no_stop _ _ _ _ _ Hroom).
  - intros H; injection H as <- <-. vac.
Qed.

End AddSized.

Section AddSized2.
Context {G : Type}.
Variable stream : InputStream.
Variable autofix : bool.
Implicit Types (self field : Field G) (parents : list (Field G)).

(** When the size that is given to the set is the bound that its ancestors
    give it, [add_sized] does the same with and without it. *)
Lemma add_sized_same_room fuel parents ask field self (fsize z : Z) :
  _size field = Some fsize → _size self = None →
  _checkSize stream parents self 0 false = Ok (Some z) →
  add_sized stream autofix fuel parents ask field (set_size (Some z) self)
  = ((add_sized stream autofix fuel parents ask field self).1,
     set_size (Some z) (add_sized stream autofix fuel parents ask field self).2).
Proof.
  intros Hs Hn Hroom. unfold add_sized.
  rewrite !bind_unfold, !(check_place_run stream autofix fuel parents field _ fsize Hs).
  rewrite _checkSize_known.
  rewrite _checkSize_shift, Hroom. cbn [res_bind fmap option_fmap option_map].
  assert (Happ : ∀ f2,
    (field0 <- append_field f2;; (if ask then raise StopIteration else ret field0))
      (set_size (Some z) self)
    = (((field0 <- append_field f2;; (if ask then raise StopIteration else ret field0))
         self).1,
       set_size (Some z)
         ((field0 <- append_field f2;; (if ask then raise StopIteration else ret field0))
            self).2)).
  { intros f2. rewrite !bind_unfold, append_field_set_size.
    destruct (append_field f2 self) as [[f3|e|] s3]; cbn [fst snd]; try reflexivity.
    destruct ask; reflexivity. }
  destruct (_ || _).
  - destruct autofix; [|reflexivity].
    destruct (_ && _).
    + destruct (_truncate fuel _ field) as [[u|e|] field2]; try reflexivity.
      apply Happ.
    + cbn [_size set_size]. rewrite Hn.
      destruct (0 <? _); reflexivity.
  - apply Happ.
Qed.

(** A field that fits the bound of the ancestors and ends within the size
    that is given to the set is added in the same way with and without
    that size. *)
Lemma add_sized_same_fit fuel parents ask field self (fsize z : Z) :
  fits stream parents self field → _size field = Some fsize →
  _address field = _current_size self →
  _current_size self + fsize ≤ z →
  add_sized stream autofix fuel parents ask field (set_size (Some z) self)
  = ((add_sized stream autofix fuel parents ask field self).1,
     set_size (Some z) (add_sized stream autofix fuel parents ask field self).2).
Proof.
  intros Hfit Hs Ha Hz.
  assert (Hfit2 : fits stream parents (set_size (Some z) self) field).
  { destruct Hfit as (fsize' & dsize & Hs' & _ & _ & Hc).
    exists fsize, (Some (z - (_current_size self + fsize))).
    split; [exact Hs|]. split; [apply _checkSize_known|]. split; [lia|].
    intros Hset. specialize (Hc Hset). congruence. }
  unfold add_sized. rewrite !bind_unfold.
  rewrite (check_place_fits stream autofix fuel parents field _ Ha Hfit).
  rewrite (check_place_fits stream autofix fuel parents field (set_size (Some z) self) Ha Hfit2).
  rewrite !bind_unfold, append_field_set_size.
  destruct (append_field field self) as [[f3|e|] s3]; cbn [fst snd]; try reflexivity.
  destruct ask; reflexivity.
Qed.

(** Under two chains of parents that give the same bounds, [add_sized] is
    the same. *)
Lemma add_sized_chain fuel parents1 parents2 ask field self :
  (∀ x : Z, _checkSize stream parents1 self x false
            = _checkSize stream parents2 self x false) →
  add_sized stream autofix fuel parents1 ask field self
  = add_sized stream autofix fuel parents2 ask field self.
Proof.
  intros H. unfold add_sized, check_place. rewrite !bind_unfold.
  unfold lift. destruct (sized field) as [fsize|e|]; try reflexivity.
  rewrite !bind_unfold. unfold call. rewrite H. reflexivity.
Qed.

(** Under two chains of parents both of which leave place for the field,
    [add_sized] is the same. *)
Lemma add_sized_chain_fit fuel parents1 parents2 ask field self :
  fits stream parents1 self field → fits stream parents2 self field →
  _address field = _current_size self →
  add_sized stream autofix fuel parents1 ask field self
  = add_sized stream autofix fuel parents2 ask field self.
Proof.
  intros H1 H2 Ha. unfold add_sized. rewrite !bind_unfold.
  rewrite (check_place_fits stream autofix fuel parents1 field _ Ha H1).
  rewrite (check_place_fits stream autofix fuel parents2 field _ Ha H2). reflexivity.
Qed.

End AddSized2.

Section Ext.
Context {G : Type}.
Variable stream : InputStream.
Variable autofix : bool.
Variable next : list (Field G) → Field G → G → GenStep G.
Variable good : G → Prop.
Variable parents : list (Field G).
Hypothesis Hblind : size_blind next good parents.
Hypothesis Hyield : yields_ok next good.
Implicit Types (self field head : Field G) (c : list (Field G)).

Lemma resized_cons c1 c2 head : resized parents c1 c2 → resized parents (head :: c1) (head :: c2).
Proof.
  intros (below & self & v & -> & ->). exists (head :: below), self, v. split; reflexivity.
Qed.

Lemma same_bounds_cons c1 c2 head :
  same_bounds stream c1 c2 → same_bounds stream (head :: c1) (head :: c2).
Proof.
  intros H self size strict. cbn [_checkSize]. destruct (_size self); [reflexivity|]. apply H.
Qed.

Lemma _addField_kept fuel feed c field self r self' :
  _addField stream autofix fuel feed c field self = (r, self') →
  _field_generator self' = _field_generator self ∧ _address self' = _address self.
Proof.
  apply (preserves_addField stream autofix
           (λ s s', _field_generator s' = _field_generator s ∧ _address s' = _address s));
    try (intros; split; reflexivity).
  intros s1 s2 s3 (H1 & H2) (H3 & H4). split; congruence.
Qed.

Lemma prepare_field_kept field self field1 self1 :
  prepare_field field self = (Ok field1, self1) →
  _size field1 = _size field ∧ is_field_set field1 = is_field_set field
  ∧ _field_generator field1 = _field_generator field
  ∧ _current_size field1 = _current_size field
  ∧ _address field1 = _current_size self
  ∧ _size self1 = _size self ∧ _current_size self1 = _current_size self
  ∧ _address self1 = _address self ∧ _field_generator self1 = _field_generator self.
Proof.
  unfold prepare_field, setUniqueFieldName.
  destruct (endswith (_name field) "[]"); mrun; intros H; injection H as <- <-;
    destruct (Z.eqb_spec (_address field) (_current_size self)) as [He|He]; cbn;
    repeat split; try reflexivity; try exact He.
Qed.

Lemma gen_next_outcome c self r self' :
  gen_good good self → gen_next next c self = (r, self') →
  gen_good good self' ∧ _size self' = _size self ∧ _address self' = _address self
  ∧ _current_size self' = _current_size self
  ∧ ∀ field, r = Ok field → field_ok good field.
Proof.
  unfold gen_next, gen_good. intros Hg.
  destruct (_field_generator self) as [[g|]|] eqn:Hgen.
  - destruct (next c self g) as [field g'| |e|] eqn:Hnext; intros H; injection H as <- <-;
      cbn [_field_generator set_field_generator _size _address _current_size].
    + destruct (Hyield c self g field g' Hg Hnext) as (Hg' & Hok).
      split; [exact Hg'|]. repeat split. intros f Hf. injection Hf as <-. exact Hok.
    + repeat split. discriminate.
    + repeat split. discriminate.
    + rewrite Hgen. repeat split; [exact Hg|discriminate].
  - intros H; injection H as <- <-. rewrite Hgen. repeat split. discriminate.
  - intros H; injection H as <- <-. rewrite Hgen. repeat split. discriminate.
Qed.

Lemma gen_next_resized c1 c2 self :
  resized parents c1 c2 → gen_good good self →
  gen_next next c1 self = gen_next next c2 self.
Proof.
  intros (below & s & v & -> & ->) Hg. unfold gen_next, gen_good in *.
  destruct (_field_generator self) as [[g|]|]; try reflexivity.
  rewrite (proj2 Hblind below s v self g Hg). reflexivity.
Qed.

Lemma gen_next_set_size (z : option Z) self :
  gen_good good self →
  gen_next next parents (set_size z self)
  = ((gen_next next parents self).1, set_size z (gen_next next parents self).2).
Proof.
  intros Hg. unfold gen_next, gen_good in *. cbn [_field_generator set_size].
  destruct (_field_generator self) as [[g|]|]; try reflexivity.
  rewrite (proj1 Hblind self z g Hg).
  destruct (next parents self g); reflexivity.
Qed.

Lemma feed_except_chain c1 c2 err self :
  has_parent c1 = has_parent c2 →
  feed_except autofix c1 err self = feed_except autofix c2 err self.
Proof.
  intros H. unfold feed_except, _stopFeeding. rewrite H. reflexivity.
Qed.

Lemma resized_has_parent c1 c2 : resized parents c1 c2 → has_parent c1 = true ∧ has_parent c2 = true.
Proof. intros (below & s & v & -> & ->). split; destruct below; reflexivity. Qed.

Lemma eof_chain c1 c2 self :
  same_bounds stream c1 c2 → eof stream c1 self = eof stream c2 self.
Proof. intros H. unfold eof. rewrite H. reflexivity. Qed.

Lemma _getSize_unfold (m : M (Field G) unit) field :
  _getSize m field
  = match _size field with
    | None => if is_field_set field
              then match m field with
                   | (Ok _, field') => (Ok (_size field'), field')
                   | (Raise e, field') => (Raise e, field')
                   | (Fuel, field') => (Fuel, field')
                   end
              else (Ok None, field)
    | Some z => (Ok (Some z), field)
    end.
Proof.
  unfold _getSize. mrun. destruct (_size field) eqn:Hs; [rewrite Hs; reflexivity|].
  destruct (is_field_set field); [|rewrite Hs; reflexivity].
  destruct (m field) as [[u|e|] f']; reflexivity.
Qed.

Lemma try_field_size_chain feed c1 c2 self field :
  same_bounds stream (self :: c1) (self :: c2) →
  (_size field = None → is_field_set field = true →
   feed (self :: c1) field = feed (self :: c2) field) →
  try_field_size stream autofix feed c1 self field
  = try_field_size stream autofix feed c2 self field.
Proof.
  intros Hb Hfeed. unfold try_field_size. rewrite !_getSize_unfold.
  destruct (_size field) eqn:Hs; [reflexivity|].
  destruct (is_field_set field) eqn:Hfs; [|reflexivity].
  rewrite (Hfeed eq_refl eq_refl).
  destruct (feed (self :: c2) field) as [[u|e|] f']; try reflexivity.
  rewrite (eof_chain _ _ f' Hb). reflexivity.
Qed.

(** Under two chains of parents that give the same bounds, a set is fed in
    the same way. *)
Lemma feed_ext fuel : ∀ c1 c2,
  resized parents c1 c2 → same_bounds stream c1 c2 →
  (∀ self, gen_good good self →
     _feedAll stream autofix next fuel c1 self = _feedAll stream autofix next fuel c2 self)
  ∧ (∀ self, gen_good good self →
       feed_forever stream autofix next fuel c1 self
       = feed_forever stream autofix next fuel c2 self).
Proof.
  induction fuel as [|fuel IH]; intros c1 c2 Hr Hb; [split; reflexivity|].
  destruct (IH c1 c2 Hr Hb) as (IHall & IHloop).
  assert (Hloop : ∀ self, gen_good good self →
            feed_forever stream autofix next (S fuel) c1 self
            = feed_forever stream autofix next (S fuel) c2 self).
  { intros self Hg. rewrite !feed_forever_S, !bind_unfold.
    rewrite (gen_next_resized c1 c2 self Hr Hg).
    destruct (gen_next next c2 self) as [[field|e|] self0] eqn:Hnext; try reflexivity.
    destruct (gen_next_outcome c2 self _ _ Hg Hnext) as (Hg0 & _ & _ & _ & Hok).
    specialize (Hok field eq_refl).
    assert (Hadd : _addField stream autofix fuel (_feedAll stream autofix next fuel) c1
                     field self0
                   = _addField stream autofix fuel (_feedAll stream autofix next fuel) c2
                       field self0).
    { rewrite !_addField_unfold.
      destruct (prepare_field field self0) as [[field1|e|] self1] eqn:Hprep; try reflexivity.
      apply prepare_field_kept in Hprep as (Hs1 & Hfs1 & Hg1 & Hcs1 & _).
      rewrite (try_field_size_chain _ c1 c2 self1 field1).
      - destruct (try_field_size _ _ _ c2 self1 field1) as [r|e|]; try reflexivity.
        apply add_sized_chain. intros x. apply Hb.
      - apply same_bounds_cons. exact Hb.
      - intros Hsize _.
        apply (IH (self1 :: c1) (self1 :: c2)).
        + apply resized_cons. exact Hr.
        + apply same_bounds_cons. exact Hb.
        + unfold field_ok in Hok. rewrite <- Hs1, Hsize in Hok.
          unfold gen_good. rewrite Hg1. apply Hok. }
    rewrite !bind_unfold, Hadd.
    destruct (_addField _ _ _ _ c2 field self0) as [[f2|e|] self2] eqn:Hres; try reflexivity.
    apply IHloop. apply _addField_kept in Hres as (Hgen & _).
    unfold gen_good in *. rewrite Hgen. exact Hg0. }
  split; [|exact Hloop].
  intros self Hg. rewrite !_feedAll_S.
  destruct (_field_generator self); [|reflexivity].
  rewrite (IHloop self Hg).
  destruct (feed_forever _ _ _ fuel c2 self) as [[u|e|] self1]; try reflexivity.
  rewrite !bind_unfold.
  destruct (resized_has_parent c1 c2 Hr) as (H1 & H2).
  rewrite (feed_except_chain c1 c2 e self1) by congruence. reflexivity.
Qed.

End Ext.

Section Shape.
Context {G : Type}.
Variable stream : InputStream.
Variable autofix : bool.
Variable next : list (Field G) → Field G → G → GenStep G.
Implicit Types (self field head : Field G) (c : list (Field G)).

Lemma chain_shape c : ∀ address : Z,
  (∃ bound, bounded_at stream c address bound) ∨ unbounded_at stream c address
  ∨ broken_at stream c address.
Proof.
  induction c as [|p ps IH]; intros address.
  - destruct (stream_size stream) eqn:Hss.
    + right. right. intros self size strict Hn _. cbn. rewrite Hn, Hss. reflexivity.
    + right. left. intros self size Hn _. cbn. rewrite Hn, Hss. split; [reflexivity|].
      cbn. destruct (sizeGe stream size); [left|right]; reflexivity.
  - destruct (_size p) as [fsize|] eqn:Hp.
    + left. exists (fsize - address). intros self size strict Hn Ha.
      cbn [_checkSize]. rewrite Hn, Ha, (_checkSize_sized stream ps p _ strict fsize Hp).
      f_equal. f_equal. lia.
    + destruct (IH (_address p)) as [(bound & Hb)|[Hu|Hbr]].
      * left. exists (bound - address). intros self size strict Hn Ha.
        cbn [_checkSize]. rewrite Hn, Ha, (Hb p _ strict Hp eq_refl).
        f_equal. f_equal. lia.
      * right. left. intros self size Hn Ha. cbn [_checkSize]. rewrite Hn, Ha.
        apply (Hu p _ Hp eq_refl).
      * right. right. intros self size strict Hn Ha. cbn [_checkSize]. rewrite Hn, Ha.
        apply (Hbr p _ strict Hp eq_refl).
Qed.

Lemma bounded_at_cons c head (address bound : Z) :
  _size head = None → bounded_at stream c (_address head) bound →
  bounded_at stream (head :: c) address (bound - address).
Proof.
  intros Hn Hb self size strict Hs Ha. cbn [_checkSize].
  rewrite Hs, Ha, (Hb head _ strict Hn eq_refl). f_equal. f_equal. lia.
Qed.

Lemma unbounded_at_cons c head (address : Z) :
  _size head = None → unbounded_at stream c (_address head) →
  unbounded_at stream (head :: c) address.
Proof.
  intros Hn Hu self size Hs Ha. cbn [_checkSize]. rewrite Hs, Ha.
  apply (Hu head _ Hn eq_refl).
Qed.

Lemma bounded_at_known c head (z address : Z) :
  _size head = Some z → bounded_at stream (head :: c) address (z - address).
Proof.
  intros Hz self size strict Hs Ha. cbn [_checkSize].
  rewrite Hs, Ha, (_checkSize_sized stream c head _ strict z Hz). f_equal. f_equal. lia.
Qed.

Lemma bounded_at_room c self (room : Z) :
  _size self = None →
  _checkSize stream c self 0 false = Ok (Some room) →
  bounded_at stream c (_address self) room.
Proof.
  intros Hn Hroom.
  destruct (chain_shape c (_address self)) as [(bound & Hb)|[Hu|Hbr]].
  - rewrite (Hb self 0 false Hn eq_refl) in Hroom. injection Hroom as <-.
    replace (bound - 0) with bound by lia. exact Hb.
  - rewrite (proj1 (Hu self 0 Hn eq_refl)) in Hroom. discriminate.
  - rewrite (Hbr self 0 false Hn eq_refl) in Hroom. discriminate.
Qed.

Lemma feed_address fuel c self r self' :
  _feedAll stream autofix next fuel c self = (r, self') → _address self' = _address self.
Proof.
  apply (proj1 (preserves_feed stream autofix next
                  (λ s s', _address s' = _address s)
                  ltac:(reflexivity) ltac:(intros; congruence)
                  ltac:(reflexivity) ltac:(reflexivity) ltac:(reflexivity)
                  ltac:(reflexivity) ltac:(reflexivity) fuel) c).
Qed.

Lemma feed_except_address c e self r self' :
  feed_except autofix c e self = (r, self') → _address self' = _address self.
Proof.
  apply (preserves_feed_except autofix (λ s s', _address s' = _address s));
    try reflexivity. intros; congruence.
Qed.

Lemma feed_except_size_kept c e self r self' :
  feed_except autofix c e self = (r, self') → size_kept self self'.
Proof.
  apply (preserves_feed_except autofix size_kept);
    unfold size_kept; try (intros; simpl; auto; fail).
  intros s v Hs z Hz. congruence.
Qed.

Lemma feed_except_unsized c e self :
  _size self = None → e ≠ StopIteration →
  feed_except autofix c e self = (Raise e, self).
Proof.
  intros Hn He. unfold feed_except, _fixFeedError.
  destruct e; try congruence; cbn [HACHOIR_ERRORS]; mrun; rewrite ?Hn; reflexivity.
Qed.

Lemma stop_unsized c self :
  _size self = None →
  feed_except autofix c StopIteration self
  = (Ok None,
     set_field_generator None
       (if has_parent c then set_size (Some (_current_size self)) self else self)).
Proof.
  intros Hn. unfold feed_except. cbn [HACHOIR_ERRORS]. unfold _stopFeeding. mrun.
  rewrite Hn. destruct (has_parent c); reflexivity.
Qed.

End Shape.

Section NoStop2.
Context {G : Type}.
Variable stream : InputStream.
Variable autofix : bool.
Variable next : list (Field G) → Field G → G → GenStep G.
Implicit Types (self field head : Field G) (c : list (Field G)).

Lemma no_stop_lift_sized field : no_stop (G:=G) (lift (sized field)).
Proof. intros s s' H. unfold lift, sized in H. destruct (_size field); discriminate. Qed.

Lemma no_stop_deleteField index : no_stop (G:=G) (_deleteField index).
Proof.
  unfold _deleteField.
  apply no_stop_bind; [apply no_stop_values_at|]. intros f.
  apply no_stop_bind; [apply no_stop_lift_sized|]. intros size.
  apply no_stop_bind; [apply no_stop_modify|]. intros _.
  apply no_stop_bind; [apply no_stop_fields_delitem|]. intros _. apply no_stop_ret.
Qed.

Lemma no_stop_delete_too_large size n : no_stop (G:=G) (delete_too_large size n).
Proof.
  induction n as [|n IH]; cbn [delete_too_large];
    (apply no_stop_bind; [apply no_stop_get|]); intros self;
    (destruct (_ <? _); [|apply no_stop_ret]).
  - apply no_stop_fuel.
  - apply no_stop_bind; [apply no_stop_deleteField|]. intros _. exact IH.
Qed.

Lemma no_stop_raise {A} e : e ≠ StopIteration → no_stop (G:=G) (raise e : M (Field G) A).
Proof. intros He s s' H. injection H as ->. congruence. Qed.

Lemma no_stop_fixLastField : no_stop (G:=G) _fixLastField.
Proof.
  unfold _fixLastField.
  apply no_stop_bind; [apply no_stop_get|]. intros self.
  destruct (_size self) as [size|]; [|apply no_stop_raise; discriminate].
  apply no_stop_bind; [apply no_stop_modify|]. intros _.
  apply no_stop_bind; [apply no_stop_delete_too_large|]. intros _.
  apply no_stop_bind; [apply no_stop_get|]. intros self1.
  apply no_stop_bind; [apply no_stop_assert|]. intros _.
  apply no_stop_bind.
  - destruct (_ =? 0); [apply no_stop_ret|].
    apply no_stop_bind; [apply no_stop_createRawField|]. intros raw.
    apply no_stop_bind; [apply no_stop_lift_sized|]. intros fsize.
    apply no_stop_bind; [apply no_stop_modify|]. intros _.
    apply no_stop_bind; [apply no_stop_fields_append|]. intros _. apply no_stop_ret.
  - intros nf. apply no_stop_bind; [apply no_stop_get|]. intros self2.
    apply no_stop_bind; [apply no_stop_assert|]. intros _. apply no_stop_ret.
Qed.

Lemma no_stop_stopFeeding c : no_stop (G:=G) (_stopFeeding autofix c).
Proof.
  unfold _stopFeeding.
  apply no_stop_bind; [apply no_stop_get|]. intros self.
  apply no_stop_bind; [|intros nf; apply no_stop_bind;
                         [apply no_stop_modify|intros _; apply no_stop_ret]].
  destruct (_size self) as [size|].
  - destruct (negb _); [|apply no_stop_ret].
    destruct autofix; [apply no_stop_fixLastField|apply no_stop_raise; discriminate].
  - apply no_stop_bind; [|intros _; apply no_stop_ret].
    destruct (has_parent c); [apply no_stop_modify|apply no_stop_ret].
Qed.

Lemma no_stop_feed_except c e : no_stop (G:=G) (feed_except autofix c e).
Proof.
  unfold feed_except. destruct (HACHOIR_ERRORS e) eqn:He.
  - apply no_stop_bind.
    + unfold _fixFeedError. apply no_stop_bind; [apply no_stop_get|]. intros self.
      destruct (_size self); [|apply no_stop_ret].
      destruct (negb autofix); [apply no_stop_ret|].
      apply no_stop_bind; [apply no_stop_fixLastField|]. intros nf. apply no_stop_ret.
    + intros [nf|]; [apply no_stop_ret|]. apply no_stop_raise. intros ->. discriminate.
  - destruct e; try (apply no_stop_raise; discriminate). apply no_stop_stopFeeding.
Qed.

Lemma no_stop_feedAll fuel c : no_stop (G:=G) (_feedAll stream autofix next fuel c).
Proof.
  destruct fuel as [|fuel]; [apply no_stop_fuel|].
  intros s s' H. rewrite _feedAll_S in H.
  destruct (_field_generator s); [|discriminate].
  destruct (feed_forever _ _ _ fuel c s) as [[u|e|] s1]; try discriminate.
  revert H. apply no_stop_bind; [apply no_stop_feed_except|]. intros _. apply no_stop_ret.
Qed.

Lemma try_field_size_no_stop fuel c self field :
  try_field_size stream autofix (_feedAll stream autofix next fuel) c self field
  ≠ Raise StopIteration.
Proof.
  unfold try_field_size. rewrite _getSize_unfold.
  destruct (_size field); [discriminate|].
  destruct (is_field_set field); [|discriminate].
  destruct (_feedAll _ _ _ fuel (self :: c) field) as [[u|e|] f'] eqn:Hfeed;
    try discriminate.
  destruct (HACHOIR_ERRORS e) eqn:He.
  - destruct (_ && _).
    + unfold eof.
      destruct (_checkSize stream (self :: c) f' _ true) as [[d|]| |] eqn:Hc;
        cbn [res_bind]; try discriminate.
      * destruct (d <? 0).
        -- destruct (_stopFeeding autofix (self :: c) f') as [[u|e'|] f2] eqn:Hstop;
             try discriminate.
           intros H. injection H as ->. exact (no_stop_stopFeeding _ _ _ Hstop).
        -- intros H. injection H as ->. discriminate.
      * destruct (_stopFeeding autofix (self :: c) f') as [[u|e'|] f2] eqn:Hstop;
          try discriminate.
        intros H. injection H as ->. exact (no_stop_stopFeeding _ _ _ Hstop).
      * intros H. injection H as H. exact (_checkSize_no_stop _ _ _ _ _ (eq_trans Hc (f_equal _ H))).
    + cbn [res_bind]. intros H. injection H as ->. discriminate.
  - intros H. injection H as ->. exact (no_stop_feedAll _ _ _ _ Hfeed).
Qed.

End NoStop2.

Section Sized.
Context {G : Type}.
Variable stream : InputStream.
Variable autofix : bool.
Variable next : list (Field G) → Field G → G → GenStep G.
Implicit Types (self field head : Field G) (c : list (Field G)).

Lemma try_field_size_cases feed c self field (ask : bool) field2 :
  try_field_size stream autofix feed c self field = Ok (ask, field2) →
  if ask then
    _size field = None ∧ is_field_set field = true
    ∧ ∃ err field_err u,
        feed (self :: c) field = (Raise err, field_err)
        ∧ eof stream (self :: c) field_err = Ok true
        ∧ _stopFeeding autofix (self :: c) field_err = (Ok u, field2)
  else
    (field2 = field ∧ _size field2 = _size field)
    ∨ (_size field = None ∧ is_field_set field = true
       ∧ ∃ u, feed (self :: c) field = (Ok u, field2)).
Proof.
  unfold try_field_size. rewrite _getSize_unfold.
  destruct (_size field) as [z|] eqn:Hs.
  { intros H; injection H as <- <-. left. split; [reflexivity|exact Hs]. }
  destruct (is_field_set field) eqn:Hfs.
  2:{ intros H; injection H as <- <-. left. split; [reflexivity|exact Hs]. }
  destruct (feed (self :: c) field) as [[u|e|] f'] eqn:Hfeed; try discriminate.
  - intros H; injection H as <- <-. right. split; [reflexivity|]. split; [reflexivity|].
    exists u. reflexivity.
  - destruct (HACHOIR_ERRORS e); [|discriminate].
    destruct (if _ && _ then eof stream (self :: c) f' else Ok false) as [[|]| |] eqn:Hend;
      cbn [res_bind]; try discriminate.
    destruct (_stopFeeding autofix (self :: c) f') as [[u|e'|] f2] eqn:Hstop;
      try discriminate.
    intros H; injection H as <- <-.
    split; [reflexivity|]. split; [reflexivity|].
    exists e, f', u. split; [reflexivity|]. split; [|exact Hstop].
    destruct (_ && _); [exact Hend|discriminate].
Qed.

Lemma gen_next_frame c self r self' :
  gen_next next c self = (r, self') →
  _size self' = _size self ∧ _address self' = _address self
  ∧ _current_size self' = _current_size self.
Proof.
  unfold gen_next. destruct (_field_generator self) as [[g|]|].
  - destruct (next c self g); intros H; injection H as <- <-; repeat split.
  - intros H; injection H as <- <-; repeat split.
  - intros H; injection H as <- <-; repeat split.
Qed.

Lemma stopFeeding_address c self r self' :
  _stopFeeding autofix c self = (r, self') → _address self' = _address self.
Proof.
  apply (preserves_stopFeeding autofix (λ s s', _address s' = _address s));
    try reflexivity. intros; congruence.
Qed.

Lemma stopFeeding_size_kept c self r self' :
  _stopFeeding autofix c self = (r, self') → size_kept self self'.
Proof.
  apply (preserves_stopFeeding autofix size_kept);
    unfold size_kept; try (intros; simpl; auto; fail).
  intros s v Hs z Hz. congruence.
Qed.

(** [_addField] in a set of unknown size: an error other than
    [StopIteration] that leaves the set as [prepare_field] left it, or the
    field has got its size and [add_sized] takes over. *)
Lemma _addField_cases fuel fuel' c field self r self1 :
  _size self = None →
  _addField stream autofix fuel (_feedAll stream autofix next fuel') c field self
  = (r, self1) →
  ∃ field1 self0,
    prepare_field field self = (Ok field1, self0)
    ∧ (((∀ f, r ≠ Ok f) ∧ r ≠ Raise StopIteration ∧ self1 = self0)
       ∨ ∃ (ask : bool) field2 (fsize : Z),
           try_field_size stream autofix (_feedAll stream autofix next fuel') c self0 field1
           = Ok (ask, field2)
           ∧ _size field2 = Some fsize ∧ _address field2 = _current_size self0
           ∧ add_sized stream autofix fuel c ask field2 self0 = (r, self1)).
Proof.
  intros Hn. rewrite _addField_unfold.
  destruct (prepare_field_spec field self) as (field1 & Hprep & _ & Ha & _).
  rewrite Hprep. set (self0 := set_field_array_count _ self).
  intros H. exists field1, self0. split; [reflexivity|].
  destruct (try_field_size _ _ _ c self0 field1) as [[ask field2]|e|] eqn:Htry.
  - cbn [fst snd] in H.
    assert (Haddr : _address field2 = _current_size self0).
    { pose proof (try_field_size_cases _ _ _ _ _ _ Htry) as Hc. destruct ask.
      - destruct Hc as (_ & _ & err & f_err & u & Hfeed & _ & Hstop).
        apply feed_address in Hfeed. apply stopFeeding_address in Hstop.
        rewrite Hstop, Hfeed. exact Ha.
      - destruct Hc as [(-> & _)|(_ & _ & u & Hfeed)]; [exact Ha|].
        apply feed_address in Hfeed. rewrite Hfeed. exact Ha. }
    destruct (_size field2) as [fsize|] eqn:Hs2.
    + right. exists ask, field2, fsize. repeat split; assumption.
    + left. unfold add_sized, check_place, sized in H. rewrite Hs2 in H.
      cbn in H. injection H as <- <-.
      split; [intros f; discriminate|]. split; [discriminate|reflexivity].
  - injection H as <- <-. left. split; [intros f; discriminate|].
    split; [|reflexivity]. intros He. injection He as ->.
    exact (try_field_size_no_stop _ _ _ _ _ _ _ Htry).
  - injection H as <- <-. left. split; [intros f; discriminate|].
    split; [discriminate|reflexivity].
Qed.

(** A set of unknown size that is fed gets no other size than the bound of
    its ancestors before the end of its producer. *)
Lemma feed_forever_size fuel : ∀ c self r self',
  _size self = None →
  feed_forever stream autofix next fuel c self = (r, self') →
  _size self' = None
  ∨ ∃ bound : Z, _checkSize stream c self 0 false = Ok (Some bound)
                 ∧ _size self' = Some bound.
Proof.
  induction fuel as [|fuel IH]; intros c self r self' Hn H.
  { injection H as _ <-. left. exact Hn. }
  rewrite feed_forever_S, bind_unfold in H.
  destruct (gen_next next c self) as [[field|e|] self0] eqn:Hnext;
    pose proof (gen_next_frame _ _ _ _ Hnext) as (Hs0 & Ha0 & Hcs0);
    try (injection H as _ <-; left; congruence).
  rewrite bind_unfold in H.
  destruct (_addField _ _ _ _ c field self0) as [ra self1] eqn:Hadd.
  assert (Hframe : ∀ s, _size s = None → _address s = _address self →
                        _checkSize stream c s 0 false = _checkSize stream c self 0 false).
  { intros s H1 H2. apply _checkSize_frame; congruence. }
  assert (Hn0 : _size self0 = None) by congruence.
  destruct (_addField_cases _ _ _ _ _ _ _ Hn0 Hadd)
    as (field1 & self2 & Hprep & [(Hnok & Hnstop & ->)|(ask & f2 & fsize & Htry & Hs2 & Ha2 & Hsz)]).
  - apply prepare_field_kept in Hprep as (_ & _ & _ & _ & _ & Hs & _).
    destruct ra as [f|e|]; [exfalso; exact (Hnok f eq_refl)| |];
      injection H as _ <-; left; congruence.
  - apply prepare_field_kept in Hprep as (_ & _ & _ & _ & _ & Hs & Hcs & Ha & _).
    assert (Hn2 : _size self2 = None) by congruence.
    destruct (add_sized_outcome stream autofix _ _ _ _ _ _ _ _ Hs2 Ha2 Hn2 Hsz)
      as (Ha1 & _ & Hcase).
    rewrite (Hframe self2) in Hcase by congruence.
    destruct ra as [f|e|].
    + apply (IH c self1 r self') in H.
      * rewrite (Hframe self1) in H; [exact H| |congruence].
        destruct Hcase as [(_ & Hs1 & _)|[(room & _ & [(_ & Hs1 & _)|[(_ & Hr & _)|(_ & Hr & _)]])
                                         |(_ & _ & Hs1)]]; try exact Hs1; discriminate.
      * destruct Hcase as [(_ & Hs1 & _)|[(room & _ & [(_ & Hs1 & _)|[(_ & Hr & _)|(_ & Hr & _)]])
                                         |(_ & _ & Hs1)]]; try exact Hs1; discriminate.
    + injection H as _ <-.
      destruct Hcase as [(_ & Hs1 & _)|[(room & Hroom & [(_ & Hs1 & _)|[(_ & _ & Hs1)|(_ & _ & Hs1 & _)]])
                                       |(_ & _ & Hs1)]]; try (left; exact Hs1).
      right. exists room. split; [exact Hroom|exact Hs1].
    + injection H as _ <-.
      destruct Hcase as [(_ & Hs1 & _)|[(room & Hroom & [(_ & Hs1 & _)|[(_ & _ & Hs1)|(_ & _ & Hs1 & _)]])
                                       |(_ & _ & Hs1)]]; try (left; exact Hs1).
      right. exists room. split; [exact Hroom|exact Hs1].
Qed.

Lemma _feedAll_size_err fuel c self e self' :
  _size self = None →
  _feedAll stream autofix next fuel c self = (Raise e, self') →
  _size self' = None
  ∨ ∃ bound : Z, _checkSize stream c self 0 false = Ok (Some bound)
                 ∧ _size self' = Some bound.
Proof.
  intros Hn H. destruct fuel as [|fuel]; [discriminate|].
  rewrite _feedAll_S in H. destruct (_field_generator self); [|discriminate].
  destruct (feed_forever _ _ _ fuel c self) as [[u|err|] self1] eqn:Hloop; try discriminate.
  rewrite bind_unfold in H.
  destruct (feed_except autofix c err self1) as [[nf|e'|] self2] eqn:Hexc; try discriminate.
  injection H as -> ->.
  destruct (feed_forever_size _ _ _ _ _ Hn Hloop) as [Hs1|(bound & Hroom & Hs1)].
  - left. destruct err; 
      try (rewrite (feed_except_unsized autofix c _ self1 Hs1) in Hexc by discriminate;
           injection Hexc as _ <-; exact Hs1).
    rewrite (stop_unsized autofix c self1 Hs1) in Hexc. discriminate.
  - right. exists bound. split; [exact Hroom|].
    exact (feed_except_size_kept autofix _ _ _ _ _ Hexc bound Hs1).
Qed.

(** When the size of a child that could not be fed to its end is taken
    from what it has ([ask_stop]), the child ends at the bound of the
    ancestors or after it. *)
Lemma ask_stop_at_bound fuel c self field field2 :
  _size self = None →
  try_field_size stream autofix (_feedAll stream autofix next fuel) c self field
  = Ok (true, field2) →
  ∃ room fsize : Z,
    _checkSize stream c self 0 false = Ok (Some room)
    ∧ _size field2 = Some fsize ∧ room ≤ _address field + fsize.
Proof.
  intros Hn Htry.
  destruct (try_field_size_cases _ _ _ _ _ _ Htry)
    as (Hs & _ & err & f_err & u & Hfeed & Heof & Hstop).
  pose proof (feed_address stream autofix next _ _ _ _ _ Hfeed) as Haddr.
  pose proof (_feedAll_size_err _ _ _ _ _ Hs Hfeed) as Hsize.
  unfold eof in Heof.
  assert (Hframe : _checkSize stream (self :: c) field 0 false
                   = _checkSize stream c self (0 + _address field) false).
  { cbn [_checkSize]. rewrite Hs. reflexivity. }
  rewrite (_checkSize_shift stream c self (0 + _address field)) in Hframe.
  destruct Hsize as [Hs'|(bound & Hroom & Hs')].
  - (* the child has no size yet *)
    assert (Hq : _checkSize stream (self :: c) f_err (_current_size f_err + 1) true
                 = _checkSize stream c self (_current_size f_err + 1 + _address field) true).
    { cbn [_checkSize]. rewrite Hs', Haddr. reflexivity. }
    rewrite Hq in Heof.
    destruct (chain_shape stream c (_address self)) as [(room & Hb)|[Hu|Hbr]].
    + rewrite (Hb self _ true Hn eq_refl) in Heof. cbn [res_bind] in Heof.
      injection Heof as Hlt. apply Z.ltb_lt in Hlt.
      exists (room), (_current_size f_err).
      split; [rewrite (Hb self 0 false Hn eq_refl); f_equal; f_equal; lia|].
      unfold _stopFeeding in Hstop. revert Hstop. mrun. rewrite Hs'. cbn.
      intros H; injection H as _ <-. split; [reflexivity|lia].
    + destruct (proj2 (Hu self (_current_size f_err + 1 + _address field) Hn eq_refl))
        as [H|H]; rewrite H in Heof; discriminate.
    + rewrite (Hbr self _ true Hn eq_refl) in Heof. discriminate.
  - (* the child got the bound as its size *)
    rewrite Hroom in Hframe.
    destruct (_checkSize stream c self 0 false) as [[room|]| |] eqn:Hr; try discriminate.
    cbn [res_bind fmap option_fmap option_map] in Hframe. injection Hframe as ->.
    exists room, (room - (0 + _address field)). split; [reflexivity|].
    split; [|lia].
    exact (stopFeeding_size_kept _ _ _ _ Hstop _ Hs').
Qed.

End Sized.

Section Fit.
Context {G : Type}.
Variable stream : InputStream.
Variable autofix : bool.
Variable next : list (Field G) → Field G → G → GenStep G.
Variable good : G → Prop.
Variable parents : list (Field G).
Hypothesis Hblind : size_blind next good parents.
Hypothesis Hyield : yields_ok next good.
Implicit Types (self field head : Field G) (c : list (Field G)).

Lemma fit_regime_cons c1 c2 head (address bound : Z) :
  _size head = None → fit_regime stream parents c1 c2 (_address head) bound →
  fit_regime stream parents (head :: c1) (head :: c2) address (bound - address).
Proof.
  intros Hn (Hr & Hb & Hcase). split; [apply resized_cons; exact Hr|].
  split; [apply bounded_at_cons; assumption|].
  destruct Hcase as [Hu|(bound1 & Hlt & Hb1)].
  - left. apply unbounded_at_cons; assumption.
  - right. exists (bound1 - address). split; [lia|]. apply bounded_at_cons; assumption.
Qed.

Lemma fit_regime_room c1 c2 self (bound room : Z) :
  fit_regime stream parents c1 c2 (_address self) bound → _size self = None →
  _checkSize stream c1 self 0 false = Ok (Some room) → bound < room.
Proof.
  intros (_ & _ & [Hu|(bound1 & Hlt & Hb1)]) Hn Hroom.
  - rewrite (proj1 (Hu self 0 Hn eq_refl)) in Hroom. discriminate.
  - rewrite (Hb1 self 0 false Hn eq_refl) in Hroom. injection Hroom as <-. lia.
Qed.

Lemma fit_regime_fits c1 c2 self field (bound fsize : Z) :
  fit_regime stream parents c1 c2 (_address self) bound → _size self = None →
  fits stream c1 self field → _size field = Some fsize →
  _current_size self + fsize ≤ bound →
  fits stream c2 self field.
Proof.
  intros (_ & Hb & _) Hn (fsize' & dsize & Hs & _ & _ & Hc) Hs' Hle.
  exists fsize, (Some (bound - (_current_size self + fsize))).
  split; [exact Hs'|]. split; [apply (Hb self _ false Hn eq_refl)|].
  split; [lia|]. intros Hset. specialize (Hc Hset). congruence.
Qed.

Lemma try_field_size_fed feed c self field u field2 :
  _size field = None → is_field_set field = true →
  feed (self :: c) field = (Ok u, field2) →
  try_field_size stream autofix feed c self field = Ok (false, field2).
Proof.
  intros Hs Hfs Hfeed. unfold try_field_size.
  rewrite _getSize_unfold, Hs, Hfs, Hfeed. reflexivity.
Qed.

Lemma _feedAll_sealed fuel c self u self' (fsize : Z) :
  _size self = None →
  _feedAll stream autofix next fuel c self = (Ok u, self') →
  _size self' = Some fsize → _current_size self' = fsize.
Proof.
  intros Hn H Hs. destruct fuel as [|fuel]; [discriminate|].
  rewrite _feedAll_S in H. destruct (_field_generator self).
  2:{ injection H as _ <-. congruence. }
  destruct (feed_forever _ _ _ fuel c self) as [[v|err|] self1] eqn:Hloop.
  - exfalso. exact (feed_forever_never_returns _ _ _ _ _ _ _ _ Hloop).
  - rewrite bind_unfold in H.
    destruct (feed_except autofix c err self1) as [[nf|e'|] self2] eqn:Hexc;
      try discriminate.
    injection H as _ <-. exact (proj2 (feed_except_sealed _ _ _ _ _ _ Hexc) _ Hs).
  - discriminate.
Qed.

(** What ends the loop of [_feedAll] well in a set whose size was not
    known when the loop ended: the end of the producer; the set then
    counts what it counted. *)
Lemma feed_except_ok_unsized c err self u self' :
  _size self = None →
  (feed_except autofix c err ;;; ret tt) self = (Ok u, self') →
  err = StopIteration ∧ _current_size self' = _current_size self.
Proof.
  intros Hn H. rewrite bind_unfold in H.
  destruct err;
    try (rewrite (feed_except_unsized autofix c _ self Hn) in H by discriminate;
         discriminate).
  rewrite (stop_unsized autofix c self Hn) in H. injection H as _ <-.
  split; [reflexivity|]. destruct (has_parent c); reflexivity.
Qed.

(** The same when the set had got a size. *)
Lemma feed_except_ok_sized c err self u self' (size : Z) :
  _size self = Some size →
  (feed_except autofix c err ;;; ret tt) self = (Ok u, self') →
  _current_size self' = size.
Proof.
  intros Hs H. rewrite bind_unfold in H.
  destruct (feed_except autofix c err self) as [[nf|e'|] self2] eqn:Hexc; try discriminate.
  injection H as _ <-.
  apply (proj2 (feed_except_sealed _ _ _ _ _ _ Hexc)).
  exact (feed_except_size_kept autofix _ _ _ _ _ Hexc _ Hs).
Qed.

(** A set of unknown size that is fed to its end, in a tree where a set
    above it has not got its size yet, is fed in the same way once that
    set has a size, when it ends within it. *)
Lemma feed_fit fuel : ∀ c1 c2,
  (∀ self self' u (bound : Z),
     fit_regime stream parents c1 c2 (_address self) bound → _size self = None → gen_good good self →
     _feedAll stream autofix next fuel c1 self = (Ok u, self') →
     _current_size self' ≤ bound →
     _current_size self ≤ _current_size self'
     ∧ _feedAll stream autofix next fuel c2 self = (Ok u, self'))
  ∧ (∀ self err self1 self' u (bound : Z),
       fit_regime stream parents c1 c2 (_address self) bound → _size self = None → gen_good good self →
       feed_forever stream autofix next fuel c1 self = (Raise err, self1) →
       (feed_except autofix c1 err ;;; ret tt) self1 = (Ok u, self') →
       _current_size self' ≤ bound →
       _current_size self ≤ _current_size self'
       ∧ feed_forever stream autofix next fuel c2 self = (Raise err, self1)).
Proof.
  induction fuel as [|fuel IH]; intros c1 c2.
  { split; intros; discriminate. }
  destruct (IH c1 c2) as (IHall & IHloop).
  split.
  - (* _feedAll *)
    intros self self' u bound Hreg Hn Hg H Hle. destruct u.
    rewrite _feedAll_S in H |- *.
    destruct (_field_generator self).
    2:{ injection H as <-. split; [lia|reflexivity]. }
    destruct (feed_forever _ _ _ fuel c1 self) as [[v|err|] self1] eqn:Hloop.
    + exfalso. exact (feed_forever_never_returns _ _ _ _ _ _ _ _ Hloop).
    + destruct (IHloop self err self1 self' tt bound Hreg Hn Hg Hloop H Hle) as (Hmono & Hloop2).
      split; [exact Hmono|]. rewrite Hloop2.
      destruct (resized_has_parent parents c1 c2 (proj1 Hreg)) as (H1 & H2).
      rewrite bind_unfold in H |- *.
      rewrite <- (feed_except_chain autofix c1 c2 err self1) by congruence. exact H.
    + discriminate.
  - (* feed_forever *)
    intros self err selfx self' u bound Hreg Hn Hg H Hexc Hle.
    rewrite feed_forever_S in H |- *. rewrite bind_unfold in H |- *.
    rewrite <- (gen_next_resized next good parents Hblind c1 c2 self (proj1 Hreg) Hg).
    destruct (gen_next next c1 self) as [[field|e|] self0] eqn:Hnext.
    2:{ injection H as <- <-.
        pose proof (gen_next_frame _ _ _ _ _ Hnext) as (Hs0 & _ & Hcs0).
        destruct (feed_except_ok_unsized c1 e self0 u self') as (_ & Hcs);
          [congruence|exact Hexc|].
        split; [lia|reflexivity]. }
    2:{ discriminate. }
    pose proof (gen_next_frame _ _ _ _ _ Hnext) as (Hs0 & Ha0 & Hcs0).
    destruct (gen_next_outcome next good Hyield c1 self _ _ Hg Hnext) as (Hg0 & _ & _ & _ & Hok).
    specialize (Hok field eq_refl).
    assert (Hn0 : _size self0 = None) by congruence.
    rewrite bind_unfold in H |- *.
    destruct (_addField _ _ _ _ c1 field self0) as [ra self2] eqn:Hadd.
    destruct (_addField_kept stream autofix _ _ _ _ _ _ _ Hadd) as (Hgen2 & Ha2).
    destruct (_addField_cases stream autofix next _ _ _ _ _ _ _ Hn0 Hadd)
      as (field1 & self3 & Hprep
          & [(Hnok & Hnstop & ->)|(ask & f2 & fsize & Htry & Hs2 & Haf2 & Hsz)]).
    { (* an error in the size of the child *)
      pose proof (prepare_field_kept _ _ _ _ Hprep) as (_ & _ & _ & _ & _ & Hs3 & _).
      exfalso. destruct ra as [f|e|]; [exact (Hnok f eq_refl)| |discriminate].
      injection H as <- <-.
      rewrite bind_unfold, (feed_except_unsized autofix c1 e self3) in Hexc;
        [discriminate|congruence|congruence]. }
    pose proof (prepare_field_kept _ _ _ _ Hprep)
      as (Hs1 & Hfs1 & Hg1 & Hcs1 & Haf1 & Hs3 & Hcs3 & Ha3 & Hg3).
    assert (Hn3 : _size self3 = None) by congruence.
    assert (Hreg3 : fit_regime stream parents c1 c2 (_address self3) bound) by (rewrite Ha3, Ha0; exact Hreg).
    destruct (add_sized_outcome stream autofix _ _ _ _ _ _ _ _ Hs2 Haf2 Hn3 Hsz)
      as (_ & _ & [(Hfit & Hsn & Hcs & Hends)
                  |[(room & Hroom & Hcase)|(Hnok & Hnstop & Hsn)]]).
    + (* the field fits *)
      destruct ask; cbn [ends] in Hends.
      * (* the child could not be fed to its end *)
        exfalso. subst ra. injection H as <- <-.
        destruct (ask_stop_at_bound stream autofix next _ _ _ _ _ Hn3 Htry)
          as (room & fsize' & Hroom & Hs2' & Hle').
        pose proof (fit_regime_room _ _ _ _ _ Hreg3 Hn3 Hroom) as Hlt.
        destruct (feed_except_ok_unsized c1 _ _ u self' Hsn Hexc) as (_ & Hcs').
        assert (fsize' = fsize) by congruence. lia.
      * destruct Hends as (f & ->).
        assert (Hg2 : gen_good good self2) by (unfold gen_good in *; rewrite Hgen2; exact Hg0).
        assert (Hreg2 : fit_regime stream parents c1 c2 (_address self2) bound)
          by (rewrite Ha2, Ha0; exact Hreg).
        destruct (IHloop self2 err selfx self' u bound Hreg2 Hsn Hg2 H Hexc Hle)
          as (Hmono & Hrest).
        (* the same step under the other chain *)
        assert (Htry2 : try_field_size stream autofix (_feedAll stream autofix next fuel)
                          c2 self3 field1 = Ok (false, f2)
                        ∧ 0 ≤ fsize).
        { destruct (try_field_size_cases _ _ _ _ _ _ _ _ Htry)
            as [(-> & _)|(Hs1n & Hfs & v & Hfeed)].
          - split; [apply (try_field_size_sized stream autofix _ c2 self3 field1 fsize Hs2)|].
            unfold field_ok in Hok. rewrite <- Hs1, Hs2 in Hok. exact Hok.
          - assert (Hok1 : gen_good good field1 ∧ 0 ≤ _current_size field1).
            { unfold field_ok in Hok. rewrite <- Hs1, Hs1n in Hok.
              unfold gen_good. rewrite Hg1, Hcs1. exact Hok. }
            pose proof (_feedAll_sealed _ _ _ _ _ _ Hs1n Hfeed Hs2) as Hsealed.
            destruct (proj1 (IH (self3 :: c1) (self3 :: c2)) field1 f2 v
                        (bound - _address field1)) as (Hm & Hfeed2).
            + apply fit_regime_cons; assumption.
            + exact Hs1n.
            + exact (proj1 Hok1).
            + exact Hfeed.
            + lia.
            + split; [|lia].
              apply (try_field_size_fed _ _ _ _ v); assumption. }
        destruct Htry2 as (Htry2 & Hpos).
        split; [lia|].
        rewrite (_addField_unfold stream autofix fuel _ c2 field self0), Hprep, Htry2.
        cbn [fst snd].
        rewrite <- (add_sized_chain_fit stream autofix fuel c1 c2 false f2 self3 Hfit);
          [rewrite Hsz; exact Hrest| |exact Haf2].
        apply (fit_regime_fits c1 c2 self3 f2 bound fsize Hreg3 Hn3 Hfit Hs2). lia.
    + (* the bound of the ancestors is reached *)
      exfalso.
      pose proof (fit_regime_room _ _ _ _ _ Hreg3 Hn3 Hroom) as Hlt.
      destruct Hcase as [(Hlt' & Hsn & Hcs & Hends)|[(Hlt' & -> & Hss)|(Hge & -> & Hsn & Hcs)]].
      * destruct ask; cbn [ends] in Hends.
        -- subst ra. injection H as <- <-.
           destruct (feed_except_ok_unsized c1 _ _ u self' Hsn Hexc) as (_ & Hcs').
           lia.
        -- destruct Hends as (f & ->).
           assert (Hg2 : gen_good good self2)
             by (unfold gen_good in *; rewrite Hgen2; exact Hg0).
           assert (Hreg2 : fit_regime stream parents c1 c2 (_address self2) bound)
             by (rewrite Ha2, Ha0; exact Hreg).
           destruct (IHloop self2 err selfx self' u bound Hreg2 Hsn Hg2 H Hexc Hle)
             as (Hmono & _).
           lia.
      * injection H as <- <-.
        pose proof (feed_except_ok_sized c1 _ _ u self' room Hss Hexc). lia.
      * injection H as <- <-.
        destruct (feed_except_ok_unsized c1 _ _ u self' Hsn Hexc) as (_ & Hcs').
        lia.
    + (* an error *)
      exfalso. destruct ra as [f|e|]; [exact (Hnok f eq_refl)| |discriminate].
      injection H as <- <-.
      rewrite bind_unfold, (feed_except_unsized autofix c1 e self2) in Hexc;
        [discriminate|exact Hsn|congruence].
Qed.

End Fit.

Section Top.
Context {G : Type}.
Variable stream : InputStream.
Variable autofix : bool.
Variable next : list (Field G) → Field G → G → GenStep G.
Variable good : G → Prop.
Variable parents : list (Field G).
Hypothesis Hblind : size_blind next good parents.
Hypothesis Hyield : yields_ok next good.
Implicit Types (self field head : Field G) (c : list (Field G)).

Lemma resized_head self (z : option Z) :
  resized parents (self :: parents) (set_size z self :: parents).
Proof. exists [], self, z. split; reflexivity. Qed.

Lemma same_bounds_room self (z : Z) :
  _size self = None → _checkSize stream parents self 0 false = Ok (Some z) →
  same_bounds stream (self :: parents) (set_size (Some z) self :: parents).
Proof.
  intros Hn Hroom child size strict. cbn [_checkSize].
  destruct (_size child); [reflexivity|].
  rewrite _checkSize_known.
  rewrite (bounded_at_room stream parents self z Hn Hroom self _ strict Hn eq_refl).
  reflexivity.
Qed.

Lemma add_sized_unsized fuel c (ask : bool) field self :
  _size field = None →
  add_sized stream autofix fuel c ask field self = (Raise TypeError, self).
Proof. intros Hs. unfold add_sized, check_place, sized. rewrite Hs. reflexivity. Qed.

(** When the size that is given to the set is the bound that its ancestors
    give it, [_addField] does the same with and without it. *)
Lemma _addField_same_room fuel fuel' field self (z : Z) :
  _size self = None → _checkSize stream parents self 0 false = Ok (Some z) →
  field_ok good field →
  _addField stream autofix fuel (_feedAll stream autofix next fuel') parents field
            (set_size (Some z) self)
  = ((_addField stream autofix fuel (_feedAll stream autofix next fuel') parents field
                self).1,
     set_size (Some z)
       (_addField stream autofix fuel (_feedAll stream autofix next fuel') parents field
                  self).2).
Proof.
  intros Hn Hroom Hok. rewrite !_addField_unfold, prepare_field_set_size.
  destruct (prepare_field field self) as [[field1|e|] self1] eqn:Hprep; try reflexivity.
  cbn [fst snd].
  pose proof (prepare_field_kept _ _ _ _ Hprep)
    as (Hs1 & Hfs1 & Hg1 & Hcs1 & Haf1 & Hs & Hcs & Ha & Hg).
  assert (Hn1 : _size self1 = None) by congruence.
  assert (Hroom1 : _checkSize stream parents self1 0 false = Ok (Some z)).
  { rewrite <- Hroom. apply _checkSize_frame; congruence. }
  assert (Htry : try_field_size stream autofix (_feedAll stream autofix next fuel')
                   parents (set_size (Some z) self1) field1
                 = try_field_size stream autofix (_feedAll stream autofix next fuel')
                     parents self1 field1).
  { unfold try_field_size. rewrite !_getSize_unfold.
    destruct (_size field1) eqn:Hsf; [reflexivity|].
    destruct (is_field_set field1); [|reflexivity].
    assert (Hgf : gen_good good field1).
    { unfold field_ok in Hok. rewrite <- Hs1 in Hok. destruct Hok as (Hgood & _).
      unfold gen_good in *. rewrite Hg1. exact Hgood. }
    rewrite <- (proj1 (feed_ext stream autofix next good parents Hblind Hyield fuel'
                         (self1 :: parents) (set_size (Some z) self1 :: parents)
                         (resized_head self1 (Some z))
                         (same_bounds_room self1 z Hn1 Hroom1)) field1 Hgf).
    destruct (_feedAll _ _ _ fuel' (self1 :: parents) field1) as [[u|e|] f']; try reflexivity.
    rewrite (eof_chain stream _ _ f' (same_bounds_room self1 z Hn1 Hroom1)).
    reflexivity. }
  rewrite Htry.
  destruct (try_field_size _ _ _ parents self1 field1) as [[ask f2]|e|]; try reflexivity.
  cbn [fst snd]. destruct (_size f2) as [fsize|] eqn:Hs2.
  - apply (add_sized_same_room stream autofix fuel parents ask f2 self1 fsize z Hs2 Hn1 Hroom1).
  - rewrite !add_sized_unsized by exact Hs2. reflexivity.
Qed.

(** The same for one round of the loop of [readMoreFields]. *)
Lemma read_step_same_room fuel self (z : Z) :
  _size self = None → gen_good good self →
  _checkSize stream parents self 0 false = Ok (Some z) →
  read_step stream autofix next fuel parents (set_size (Some z) self)
  = ((read_step stream autofix next fuel parents self).1,
     set_size (Some z) (read_step stream autofix next fuel parents self).2).
Proof.
  intros Hn Hg Hroom. unfold read_step. rewrite !bind_unfold.
  rewrite (gen_next_set_size next good parents Hblind (Some z) self Hg).
  destruct (gen_next next parents self) as [[field|e|] self0] eqn:Hnext; try reflexivity.
  cbn [fst snd].
  destruct (gen_next_outcome next good Hyield parents self _ _ Hg Hnext)
    as (_ & Hs0 & Ha0 & _ & Hok).
  apply _addField_same_room; [congruence| |exact (Hok field eq_refl)].
  rewrite <- Hroom. apply _checkSize_frame; congruence.
Qed.

Lemma fits_room c self field (fsize room : Z) :
  fits stream c self field → _size field = Some fsize →
  _checkSize stream c self 0 false = Ok (Some room) →
  _current_size self + fsize ≤ room.
Proof.
  intros (fsize' & dsize & Hs & Hd & Hpos & _) Hs' Hroom.
  assert (fsize' = fsize) as -> by congruence.
  rewrite _checkSize_shift, Hroom in Hd. cbn in Hd. injection Hd as <-. lia.
Qed.

Lemma fits_Ok c self field :
  fits stream c self field → ∃ room, _checkSize stream c self 0 false = Ok room.
Proof.
  intros (fsize' & dsize & Hs & Hd & _).
  rewrite _checkSize_shift in Hd.
  destruct (_checkSize stream c self 0 false) as [room| |]; try discriminate.
  exists room. reflexivity.
Qed.

(** The size of a child is asked for in the same way once the set has a
    size within which the child ends, when that size is less than the
    bound that the ancestors give. *)
Lemma try_field_size_fit fuel self field field2 (fsize z : Z) :
  _size self = None → field_ok good field →
  (unbounded_at stream parents (_address self)
   ∨ ∃ bound : Z, z < bound ∧ bounded_at stream parents (_address self) bound) →
  try_field_size stream autofix (_feedAll stream autofix next fuel) parents self field
  = Ok (false, field2) →
  _size field2 = Some fsize → _address field + fsize ≤ z →
  0 ≤ fsize
  ∧ try_field_size stream autofix (_feedAll stream autofix next fuel) parents
      (set_size (Some z) self) field
    = Ok (false, field2).
Proof.
  intros Hn Hok Hreg Htry Hs2 Hle.
  destruct (try_field_size_cases _ _ _ _ _ _ _ _ Htry)
    as [(-> & _)|(Hsn & Hfs & v & Hfeed)].
  - split; [unfold field_ok in Hok; rewrite Hs2 in Hok; exact Hok|].
    apply (try_field_size_sized stream autofix _ parents _ field fsize Hs2).
  - unfold field_ok in Hok. rewrite Hsn in Hok. destruct Hok as (Hg & Hcs).
    pose proof (_feedAll_sealed stream autofix next _ _ _ _ _ _ Hsn Hfeed Hs2) as Hsealed.
    destruct (proj1 (feed_fit stream autofix next good parents Hblind Hyield fuel
                       (self :: parents) (set_size (Some z) self :: parents))
                field field2 v (z - _address field)) as (Hm & Hfeed2).
    + split; [apply resized_head|]. split; [apply bounded_at_known; reflexivity|].
      destruct Hreg as [Hu|(bound & Hlt & Hb)].
      * left. apply unbounded_at_cons; assumption.
      * right. exists (bound - _address field). split; [lia|].
        apply bounded_at_cons; assumption.
    + exact Hsn.
    + exact Hg.
    + exact Hfeed.
    + lia.
    + split; [lia|]. apply (try_field_size_fed stream autofix _ _ _ _ v); assumption.
Qed.

End Top.

Section Top2.
Context {G : Type}.
Variable stream : InputStream.
Variable autofix : bool.
Variable next : list (Field G) → Field G → G → GenStep G.
Variable good : G → Prop.
Variable parents : list (Field G).
Hypothesis Hblind : size_blind next good parents.
Hypothesis Hyield : yields_ok next good.
Implicit Types (self field head : Field G) (c : list (Field G)).

(** One round of the loop of [readMoreFields] in a set whose size is not
    known, and the same round once the set has been given a size [z]. *)
Lemma read_step_outcome fuel self r self1 :
  _size self = None → gen_good good self →
  (∀ room : Z, _checkSize stream parents self 0 false = Ok (Some room) →
               _current_size self ≤ room) →
  read_step stream autofix next fuel parents self = (r, self1) →
  gen_good good self1 ∧ _address self1 = _address self
  ∧ (((∃ f, r = Ok f) ∧ _size self1 = None
      ∧ (∀ room : Z, _checkSize stream parents self 0 false = Ok (Some room) →
                     _current_size self1 ≤ room)
      ∧ (∀ z : Z, _current_size self1 ≤ z →
           (∀ room : Z, _checkSize stream parents self 0 false = Ok (Some room) →
                        z ≤ room) →
           _current_size self ≤ z
           ∧ read_step stream autofix next fuel parents (set_size (Some z) self)
             = (r, set_size (Some z) self1)))
     ∨ (r = Raise StopIteration ∧ _size self1 = None
        ∧ _current_size self ≤ _current_size self1
        ∧ (∀ room : Z, _checkSize stream parents self 0 false = Ok (Some room) →
                       _current_size self1 ≤ room)
        ∧ read_step stream autofix next fuel parents
            (set_size (Some (_current_size self1)) self)
          = (r, set_size (Some (_current_size self1)) self1))
     ∨ (r = Raise StopIteration
        ∧ ∃ room : Z, _size self1 = Some room
            ∧ _checkSize stream parents self 0 false = Ok (Some room)
            ∧ read_step stream autofix next fuel parents (set_size (Some room) self)
              = (r, self1))
     ∨ ((∀ f, r ≠ Ok f) ∧ r ≠ Raise StopIteration ∧ _size self1 = None)).
Proof.
  intros Hn Hg Hinv Hstep.
  assert (Heq : ∀ z : Z, _checkSize stream parents self 0 false = Ok (Some z) →
                  read_step stream autofix next fuel parents (set_size (Some z) self)
                  = (r, set_size (Some z) self1)).
  { intros z Hroom.
    rewrite (read_step_same_room stream autofix next good parents Hblind Hyield
               fuel self z Hn Hg Hroom), Hstep. reflexivity. }
  pose proof Hstep as H. unfold read_step in H. rewrite bind_unfold in H.
  destruct (gen_next next parents self) as [[field|e|] self0] eqn:Hnext;
    destruct (gen_next_outcome next good Hyield parents self _ _ Hg Hnext)
      as (Hg0 & Hs0 & Ha0 & Hcs0 & Hok).
  2:{ (* the producer has ended *)
      injection H as <- <-. split; [exact Hg0|]. split; [exact Ha0|].
      destruct e;
        try (right; right; right; split; [intros f; discriminate|];
             split; [discriminate|congruence]).
      right. left. split; [reflexivity|]. split; [congruence|]. split; [lia|].
      split; [rewrite Hcs0; exact Hinv|].
      unfold read_step. rewrite bind_unfold.
      rewrite (gen_next_set_size next good parents Hblind _ self Hg), Hnext. reflexivity. }
  2:{ injection H as <- <-. split; [exact Hg0|]. split; [exact Ha0|].
      right. right. right. split; [intros f; discriminate|].
      split; [discriminate|congruence]. }
  specialize (Hok field eq_refl).
  assert (Hn0 : _size self0 = None) by congruence.
  destruct (_addField_kept stream autofix _ _ _ _ _ _ _ H) as (Hgen1 & Ha1).
  split; [unfold gen_good in *; rewrite Hgen1; exact Hg0|]. split; [congruence|].
  destruct (_addField_cases stream autofix next _ _ _ _ _ _ _ Hn0 H)
    as (field1 & self3 & Hprep
        & [(Hnok & Hnstop & ->)|(ask & f2 & fsize & Htry & Hs2 & Haf2 & Hsz)]).
  { pose proof (prepare_field_kept _ _ _ _ Hprep) as (_ & _ & _ & _ & _ & Hs3 & _).
    right. right. right. split; [exact Hnok|]. split; [exact Hnstop|]. congruence. }
  pose proof (prepare_field_kept _ _ _ _ Hprep)
    as (Hs1 & Hfs1 & Hg1 & Hcs1 & Haf1 & Hs3 & Hcs3 & Ha3 & Hg3).
  assert (Hn3 : _size self3 = None) by congruence.
  assert (Hframe : _checkSize stream parents self3 0 false
                   = _checkSize stream parents self 0 false)
    by (apply _checkSize_frame; congruence).
  assert (Hok1 : field_ok good field1).
  { unfold field_ok, gen_good in *. rewrite Hs1, Hg1, Hcs1. exact Hok. }
  destruct (add_sized_outcome stream autofix _ _ _ _ _ _ _ _ Hs2 Haf2 Hn3 Hsz)
    as (_ & _ & [(Hfit & Hsn & Hcs & Hends)
                |[(room & Hroom & Hcase)|(Hnok & Hnstop & Hsn)]]);
    rewrite ?Hframe in *.
  - (* the field fits *)
    assert (Hle : ∀ room : Z, _checkSize stream parents self 0 false = Ok (Some room) →
                              _current_size self1 ≤ room).
    { intros room Hroom. rewrite Hcs. rewrite <- Hframe in Hroom.
      exact (fits_room stream _ _ _ _ _ Hfit Hs2 Hroom). }
    destruct ask; cbn [ends] in Hends.
    + (* the child could not be fed to its end *)
      subst r. right. left.
      destruct (ask_stop_at_bound stream autofix next _ _ _ _ _ Hn3 Htry)
        as (room & fsize' & Hroom & Hs2' & Hle').
      rewrite Hframe in Hroom.
      assert (fsize' = fsize) as -> by congruence.
      pose proof (Hle room Hroom) as Hle2. pose proof (Hinv room Hroom) as Hle3.
      assert (Hz : _current_size self1 = room) by lia.
      split; [reflexivity|]. split; [exact Hsn|]. split; [lia|]. split; [exact Hle|].
      rewrite Hz. apply Heq. exact Hroom.
    + destruct Hends as (f & ->). left.
      split; [eexists; reflexivity|]. split; [exact Hsn|]. split; [exact Hle|].
      intros z Hz Hzle.
      assert (Hcase : (∃ room, _checkSize stream parents self 0 false = Ok (Some room)
                               ∧ z = room)
                      ∨ (unbounded_at stream parents (_address self3)
                         ∨ ∃ bound : Z, z < bound
                                        ∧ bounded_at stream parents (_address self3) bound)).
      { destruct (fits_Ok stream _ _ _ Hfit) as (room & Hroom). rewrite Hframe in Hroom.
        destruct (chain_shape stream parents (_address self3)) as [(bound & Hb)|[Hu|Hbr]].
        - pose proof (Hb self3 0 false Hn3 eq_refl) as Hb0.
          rewrite Hframe, Z.sub_0_r in Hb0.
          pose proof (Hzle bound Hb0) as Hzb.
          destruct (Z.eq_dec z bound) as [->|Hne].
          + left. exists bound. split; [exact Hb0|reflexivity].
          + right. right. exists bound. split; [lia|exact Hb].
        - right. left. exact Hu.
        - rewrite <- Hframe, (Hbr self3 0 false Hn3 eq_refl) in Hroom. discriminate. }
      destruct Hcase as [(room & Hroom & ->)|Hreg].
      * split; [exact (Hinv room Hroom)|]. apply Heq. exact Hroom.
      * destruct (try_field_size_fit stream autofix next good parents Hblind Hyield
                    fuel self3 field1 f2 fsize z Hn3 Hok1 Hreg Htry Hs2) as (Hpos & Htry2).
        { rewrite Haf1, <- Hcs3, <- Hcs. exact Hz. }
        split; [lia|].
        unfold read_step. rewrite bind_unfold.
        rewrite (gen_next_set_size next good parents Hblind _ self Hg), Hnext.
        cbn [fst snd].
        rewrite _addField_unfold, prepare_field_set_size, Hprep. cbn [fst snd].
        rewrite Htry2. cbn [fst snd].
        rewrite (add_sized_same_fit stream autofix fuel parents false f2 self3 fsize z
                   Hfit Hs2 Haf2) by lia.
        rewrite Hsz. reflexivity.
  - (* the bound of the ancestors is reached *)
    pose proof (Hinv room Hroom) as Hle3. rewrite <- Hcs0, <- Hcs3 in Hle3.
    destruct Hcase as [(Hlt' & Hsn & Hcs & Hends)|[(Hlt' & -> & Hss)|(Hge & -> & Hsn & Hcs)]].
    + destruct ask; cbn [ends] in Hends.
      * subst r. right. left. split; [reflexivity|]. split; [exact Hsn|].
        split; [lia|].
        split; [intros room' Hr'; rewrite Hroom in Hr'; injection Hr' as <-; lia|].
        rewrite Hcs. apply Heq. exact Hroom.
      * destruct Hends as (f & ->). left.
        split; [eexists; reflexivity|]. split; [exact Hsn|].
        split; [intros room' Hr'; rewrite Hroom in Hr'; injection Hr' as <-; lia|].
        intros z Hz Hzle. specialize (Hzle room Hroom).
        assert (z = room) as -> by lia.
        split; [lia|]. apply Heq. exact Hroom.
    + right. right. left. split; [reflexivity|]. exists room.
      split; [exact Hss|]. split; [exact Hroom|].
      rewrite (Heq room Hroom), (set_size_same self1 room Hss). reflexivity.
    + right. left. split; [reflexivity|]. split; [exact Hsn|]. split; [lia|].
      split; [intros room' Hr'; rewrite Hroom in Hr'; injection Hr' as <-; lia|].
      assert (Hz : _current_size self1 = room) by lia.
      rewrite Hz. apply Heq. exact Hroom.
  - right. right. right. split; [exact Hnok|]. split; [exact Hnstop|exact Hsn].
Qed.

End Top2.

Section Top3.
Context {G : Type}.
Variable stream : InputStream.
Variable autofix : bool.
Variable next : list (Field G) → Field G → G → GenStep G.
Variable good : G → Prop.
Variable parents : list (Field G).
Hypothesis Hblind : size_blind next good parents.
Hypothesis Hyield : yields_ok next good.
Implicit Types (self field head : Field G) (c : list (Field G)).

Lemma read_outcome_size_kept res added self r self' :
  read_outcome autofix parents (res, (added, self)) = (r, self') → size_kept self self'.
Proof.
  unfold read_outcome. destruct res as [u|e|].
  - intros H; injection H as _ <-. intros z Hz. exact Hz.
  - rewrite bind_unfold.
    destruct (feed_except autofix parents e self) as [[nf|e'|] s1] eqn:E;
      intros H; injection H as _ <-; exact (feed_except_size_kept _ _ _ _ _ _ E).
  - intros H; injection H as _ <-. intros z Hz. exact Hz.
Qed.

Lemma readMoreFields_outcome fuel number self :
  _field_generator self ≠ None →
  readMoreFields stream autofix next fuel parents number self
  = read_outcome autofix parents
      (read_fields stream autofix next fuel parents (Z.to_nat number) 0 self).
Proof.
  intros Hg. unfold readMoreFields, read_outcome.
  destruct (_field_generator self); [|congruence].
  destruct (read_fields _ _ _ _ _ _ _ _) as [[u|e|] [added s]]; reflexivity.
Qed.

Lemma read_fields_S fuel number added self :
  read_fields stream autofix next fuel parents (S number) added self
  = match read_step stream autofix next fuel parents self with
    | (Ok _, self) => read_fields stream autofix next fuel parents number (added + 1) self
    | (Raise e, self) => (Raise e, (added, self))
    | (Fuel, self) => (Fuel, (added, self))
    end.
Proof. reflexivity. Qed.

(** The loop of [readMoreFields] and its handlers, in a set whose size is
    not known and becomes [z]: the same loop in the set that has the size
    [z] from the start ends in the same way. *)
Lemma read_fields_blind fuel number : ∀ added self r self_end (z : Z),
  _size self = None → gen_good good self →
  (∀ room : Z, _checkSize stream parents self 0 false = Ok (Some room) →
               _current_size self ≤ room) →
  read_outcome autofix parents
    (read_fields stream autofix next fuel parents number added self) = (r, self_end) →
  _size self_end = Some z →
  _current_size self ≤ z
  ∧ (∀ room : Z, _checkSize stream parents self 0 false = Ok (Some room) → z ≤ room)
  ∧ read_outcome autofix parents
      (read_fields stream autofix next fuel parents number added (set_size (Some z) self))
    = (r, self_end).
Proof.
  induction number as [|number IH]; intros added self r self_end z Hn Hgood Hinv H Hz.
  - cbn in H. injection H as _ <-. congruence.
  - rewrite read_fields_S in H |- *.
    destruct (read_step stream autofix next fuel parents self) as [rs self1] eqn:Hstep.
    destruct (read_step_outcome stream autofix next good parents Hblind Hyield fuel self
                rs self1 Hn Hgood Hinv Hstep)
      as (Hg1 & Ha1 & [((f & ->) & Hs1 & Hle & Hrun)
                      |[(-> & Hs1 & Hmono & Hle & Hrun)
                       |[(-> & room & Hs1 & Hroom & Hrun)|(Hnok & Hnstop & Hs1)]]]).
    + assert (Hframe : _checkSize stream parents self1 0 false
                       = _checkSize stream parents self 0 false)
        by (apply _checkSize_frame; congruence).
      destruct (IH (added + 1) self1 r self_end z Hs1 Hg1) as (Hz1 & Hz2 & Hrun2);
        [rewrite Hframe; exact Hle|exact H|exact Hz|].
      rewrite Hframe in Hz2.
      destruct (Hrun z Hz1 Hz2) as (Hz0 & Hrun0).
      split; [exact Hz0|]. split; [exact Hz2|].
      rewrite Hrun0. exact Hrun2.
    + unfold read_outcome in H. rewrite bind_unfold in H.
      rewrite (stop_unsized autofix parents self1 Hs1) in H.
      destruct (has_parent parents) eqn:Hp; injection H as <- <-.
      * cbn in Hz. injection Hz as <-.
        split; [exact Hmono|]. split; [exact Hle|].
        rewrite Hrun. unfold read_outcome. rewrite bind_unfold.
        unfold feed_except. cbn [HACHOIR_ERRORS].
        unfold _stopFeeding. mrun. rewrite Z.eqb_refl. reflexivity.
      * cbn in Hz. congruence.
    + pose proof (read_outcome_size_kept _ _ _ _ _ H room Hs1) as Hend.
      assert (z = room) as -> by congruence.
      split; [exact (Hinv room Hroom)|].
      split; [intros room' Hr; rewrite Hroom in Hr; injection Hr as <-; lia|].
      rewrite Hrun. exact H.
    + destruct rs as [f|e|].
      * exfalso. exact (Hnok f eq_refl).
      * unfold read_outcome in H. rewrite bind_unfold in H.
        rewrite (feed_except_unsized autofix parents e self1 Hs1) in H by congruence.
        injection H as _ <-. congruence.
      * injection H as _ <-. congruence.
Qed.

Lemma reset_set_size v self :
  reset (set_size v self) = ((reset self).1, set_size v (reset self).2).
Proof. unfold reset. mrun. destruct (createFields self); reflexivity. Qed.

Lemma reset_read_kept fuel k self r1 self1 :
  (reset ;;; readMoreFields stream autofix next fuel parents k) self = (r1, self1) →
  size_kept self self1.
Proof.
  intros H z Hz. unfold bind in H.
  destruct (reset self) as [[u|e|] s0] eqn:Hr.
  - apply reset_cleared in Hr as (_ & Hsz & _).
    apply readMoreFields_size_kept in H. apply H. congruence.
  - injection H as _ <-. apply reset_cleared in Hr as (_ & Hsz & _). congruence.
  - injection H as _ <-. apply reset_cleared in Hr as (_ & Hsz & _). congruence.
Qed.

Lemma reset_read_again fuel k self r1 self1 :
  (reset ;;; readMoreFields stream autofix next fuel parents k) self = (r1, self1) →
  _size self1 = _size self →
  (reset ;;; readMoreFields stream autofix next fuel parents k) self1 = (r1, self1).
Proof.
  intros H Hsize. unfold bind in H |- *.
  destruct (reset self) as [[u|e|] s0] eqn:Hr.
  - pose proof (reset_cleared _ _ _ Hr) as (Hst0 & _).
    pose proof (readMoreFields_static _ _ _ _ _ _ _ _ _ H) as Hst1.
    assert (Hst : static self = static self1)
      by (unfold same_static in *; congruence).
    rewrite (reset_determined self self1 Hst (eq_sym Hsize) u s0 Hr). exact H.
  - unfold reset in Hr |- *. revert Hr. mrun.
    destruct (createFields self) eqn:Hg; intros Hr; [discriminate|].
    injection Hr as <- <-. injection H as <- <-. simpl. rewrite Hg. reflexivity.
  - unfold reset in Hr. revert Hr. mrun.
    destruct (createFields self); discriminate.
Qed.

(** The first run gives the set its size: the second run, in which the
    producers and the fields are the same, ends in the same way. *)
Lemma reset_read_blind fuel k self r1 self1 :
  (∀ g, createFields self = Some g → good g) →
  well_placed stream parents self →
  (reset ;;; readMoreFields stream autofix next fuel parents k) self = (r1, self1) →
  (reset ;;; readMoreFields stream autofix next fuel parents k) self1 = (r1, self1).
Proof.
  intros Hgood Hplaced H.
  destruct (_size self) as [z0|] eqn:Hs.
  { apply (reset_read_again _ _ _ _ _ H).
    rewrite Hs. exact (reset_read_kept _ _ _ _ _ H z0 Hs). }
  destruct (_size self1) as [z|] eqn:Hs1;
    [|apply (reset_read_again _ _ _ _ _ H); congruence].
  pose proof H as Hrun. unfold bind in H.
  destruct (reset self) as [[u|e|] s0] eqn:Hr;
    try (injection H as _ <-; apply reset_cleared in Hr as (_ & Hsz & _); congruence).
  destruct (reset_cleared _ _ _ Hr) as (Hst0 & Hsz0 & _ & Hrest).
  destruct u. destruct (Hrest eq_refl) as (_ & Hcs0 & _ & g & Hg & Hgen0).
  pose proof (readMoreFields_static _ _ _ _ _ _ _ _ _ H) as Hst1.
  assert (Ha0 : _address s0 = _address self).
  { unfold same_static, static in Hst0. injection Hst0 as _ _ _ _ Ha _ _. exact Ha. }
  rewrite readMoreFields_outcome in H by congruence.
  destruct (read_fields_blind fuel (Z.to_nat k) 0 s0 r1 self1 z) as (_ & _ & Hrun2);
    try assumption.
  - congruence.
  - unfold gen_good. rewrite Hgen0. exact (Hgood g Hg).
  - intros room Hroom. rewrite Hcs0. apply Hplaced.
    rewrite <- Hroom. symmetry. apply _checkSize_frame; congruence.
  - unfold bind.
    assert (Hreset : reset self1 = (Ok tt, set_size (Some z) s0)).
    { apply (reset_determined (set_size (Some z) self) self1).
      - unfold same_static in *. unfold static in *. cbn. congruence.
      - cbn. congruence.
      - rewrite reset_set_size, Hr. reflexivity. }
    rewrite Hreset. rewrite readMoreFields_outcome by (cbn; congruence).
    exact Hrun2.
Qed.

End Top3.

Section Twice.
Context {G : Type}.
Variable stream : InputStream.
Variable autofix : bool.
Variable next : list (Field G) → Field G → G → GenStep G.
Implicit Types (self field : Field G) (parents : list (Field G)).

(** Claim C6, as amended.  [reset()] keeps the name, the size and the
    description and clears the children, the counters and the current
    size.  [reset(); readMoreFields(k)] never changes a size that is
    known.  Doing it again gives the same result and the same children
    when the first run leaves the size as it found it, and also when the
    first run gives the set its size, provided that neither the producer
    of the set nor those of the sets below it read that size, that no
    field yielded has a negative size, and that the set does not start
    after the end of an ancestor.  From the second run on, each run gives
    what the one before it gave. *)
Theorem reset_read_twice fuel parents k self r1 self1 :
  (reset ;;; readMoreFields stream autofix next fuel parents k) self = (r1, self1) →
  ((∀ u self0, reset self = (Ok u, self0) →
      _name self0 = _name self ∧ _size self0 = _size self
      ∧ _description self0 = _description self
      ∧ _fields self0 = [] ∧ _field_array_count self0 = ∅ ∧ _current_size self0 = 0)
   ∧ (∀ z : Z, _size self = Some z → _size self1 = Some z)
   ∧ (_size self1 = _size self →
      (reset ;;; readMoreFields stream autofix next fuel parents k) self1 = (r1, self1))
   ∧ (∀ good : G → Prop,
        size_blind next good parents → yields_ok next good →
        (∀ g, createFields self = Some g → good g) →
        well_placed stream parents self →
        (reset ;;; readMoreFields stream autofix next fuel parents k) self1 = (r1, self1))
   ∧ (∀ r2 self2,
        (reset ;;; readMoreFields stream autofix next fuel parents k) self1 = (r2, self2) →
        (reset ;;; readMoreFields stream autofix next fuel parents k) self2 = (r2, self2))).
Proof.
  intros H. split; [|split; [|split; [|split]]].
  - intros u self0 Hr. apply reset_cleared in Hr as (Hst & Hsz & Hf & Hrest).
    destruct u. destruct (Hrest eq_refl) as (Hc & Hcs & _).
    unfold same_static, static in Hst. injection Hst as _ _ _ Hn _ Hd _.
    repeat split; assumption.
  - exact (reset_read_kept _ _ _ _ _ _ _ _ _ H).
  - exact (reset_read_again _ _ _ _ _ _ _ _ _ H).
  - intros good Hblind Hyield Hgood Hplaced.
    exact (reset_read_blind _ _ _ good _ Hblind Hyield _ _ _ _ _ Hgood Hplaced H).
  - intros r2 self2 H2. apply (reset_read_again _ _ _ _ _ _ _ _ _ H2).
    destruct (_size self1) as [z|] eqn:Hs1.
    + exact (reset_read_kept _ _ _ _ _ _ _ _ _ H2 z Hs1).
    + assert (Hs : _size self = None).
      { destruct (_size self) as [z|] eqn:Hs; [|reflexivity].
        pose proof (reset_read_kept _ _ _ _ _ _ _ _ _ H z Hs). congruence. }
      rewrite (reset_read_again _ _ _ _ _ _ _ _ _ H) in H2 by congruence.
      injection H2 as _ <-. exact Hs1.
Qed.

End Twice.

(** ** A concrete case *)

Lemma parts_next_blind parents : size_blind parts_next (λ _, True) parents.
Proof.
  split.
  - intros self v g _. destruct g as [|[name size|name parts] g']; reflexivity.
  - intros below self v child g _. reflexivity.
Qed.

Lemma parts_next_ok : yields_ok parts_next (λ _, True).
Proof.
  intros parents self g field g' _.
  destruct g as [|[name size|name parts] rest]; cbn [parts_next]; try discriminate.
  - intros H; injection H as <- <-. split; [exact I|]. unfold field_ok. cbn. lia.
  - cbn. intros H; injection H as <- <-. split; [exact I|].
    unfold field_ok, gen_good. cbn. split; [exact I|lia].
Qed.

Lemma reset_read_twice_witness :
  _size parts_inner = None
  ∧ _size (state_after (parts_read [parts_outer] 3) parts_inner) = Some 24
  ∧ layout (state_after (parts_read [parts_outer] 3) parts_inner)
    = [("g", 0, Some 16); ("c", 16, Some 8)]
  ∧ parts_read [parts_outer] 3 (state_after (parts_read [parts_outer] 3) parts_inner)
    = parts_read [parts_outer] 3 parts_inner.
Proof.
  split; [reflexivity|]. split; [vm_compute; reflexivity|]. split; [vm_compute; reflexivity|].
  destruct (reset_read_twice script_stream true parts_next 4 [parts_outer] 3 parts_inner
              (parts_read [parts_outer] 3 parts_inner).1
              (state_after (parts_read [parts_outer] 3) parts_inner))
    as (_ & _ & _ & H & _).
  { vm_compute. reflexivity. }
  unfold parts_read at 1. rewrite (H (λ _, True)).
  - vm_compute. reflexivity.
  - apply parts_next_blind.
  - exact parts_next_ok.
  - intros g _. exact I.
  - intros room Hroom. vm_compute in Hroom. injection Hroom as <-. lia.
Defined.
